(** * Patch-to-edit translation of [src/formatters/base.ts]

    A shallow embedding of the formatter pipeline of coc-pyright:
    [patch_fromText] (the unified-diff hunk parser), [getTextEditsInternal]
    (the edit synthesizer), [Edit.apply] (the materializer) and
    [getTextEditsFromPatch] (the pipeline that chains them).

    JavaScript strings are modelled as lists of characters ([str]); the
    [length] of a string is the length of the list.  JavaScript numbers are
    modelled as unbounded integers ([Z]); this is exact for every value below
    2^53.  A thrown [Error] is modelled by the [Throw] constructor of [Result]. *)

From Stdlib Require Import List Ascii String ZArith Lia Bool.
Import ListNotations.

Local Open Scope Z_scope.

(** ** Strings *)

Definition str := list ascii.

Definition lit (s : string) : str := list_ascii_of_string s.

Definition LF : ascii := "010"%char.
Definition CR : ascii := "013"%char.

Definition len (s : str) : Z := Z.of_nat (List.length s).

Fixpoint str_eqb (a b : str) : bool :=
  match a, b with
  | [], [] => true
  | x :: a', y :: b' => Ascii.eqb x y && str_eqb a' b'
  | _, _ => false
  end.

(** [s.startsWith(p)]: on success the remainder of [s] after [p]. *)
Fixpoint stripPrefix (p s : str) : option str :=
  match p, s with
  | [], _ => Some s
  | x :: p', y :: s' => if Ascii.eqb x y then stripPrefix p' s' else None
  | _ :: _, [] => None
  end.

Definition startsWith (s p : str) : bool :=
  match stripPrefix p s with Some _ => true | None => false end.

(** [s.substring(s.indexOf(p))]: the suffix of [s] that starts at the first
    occurrence of [p]; [indexOf] answers -1 when there is none and
    [substring] clamps a negative index to 0, so the whole string is kept. *)
Fixpoint suffixFrom (p s : str) : option str :=
  if startsWith s p then Some s
  else match s with
       | [] => None
       | _ :: s' => suffixFrom p s'
       end.

Definition substringFromIndexOf (s p : str) : str :=
  match suffixFrom p s with Some r => r | None => s end.

(** [s.split(/[\r\n]/)]: every single CR and every single LF separates. *)
Fixpoint splitCRorLF (s : str) : list str :=
  match s with
  | [] => [[]]
  | c :: rest =>
      if Ascii.eqb c CR || Ascii.eqb c LF then [] :: splitCRorLF rest
      else match splitCRorLF rest with
           | h :: t => (c :: h) :: t
           | [] => [[c]]
           end
  end.

(** [s.split(/\r?\n/g)]: LF, or CR immediately followed by LF, separates. *)
Fixpoint splitLines (s : str) : list str :=
  match s with
  | [] => [[]]
  | c :: rest =>
      if Ascii.eqb c LF then [] :: splitLines rest
      else
        let keep := match splitLines rest with
                    | h :: t => (c :: h) :: t
                    | [] => [[c]]
                    end in
        match rest with
        | d :: rest' =>
            if Ascii.eqb c CR && Ascii.eqb d LF then [] :: splitLines rest'
            else keep
        | [] => keep
        end
  end.

(** [array.filter((_, i) => p(i))], the index counted from [i]. *)
Fixpoint filterIndexFrom {A} (p : nat -> bool) (i : nat) (l : list A) : list A :=
  match l with
  | [] => []
  | x :: l' =>
      if p i then x :: filterIndexFrom p (S i) l' else filterIndexFrom p (S i) l'
  end.

Definition filterIndex {A} (p : nat -> bool) (l : list A) : list A :=
  filterIndexFrom p 0 l.

(** ** Results *)

Inductive Error : Type :=
| InternalError                              (* 'cannot format due to an internal error.' *)
| InvalidPatchString (line : str)            (* `Invalid patch string: ${line}` *)
| InvalidPatchMode (sign : ascii) (line : str) (* `Invalid patch mode '${sign}' in: ${line}` *)
| UnableToParse                              (* 'Unable to parse Patch string' *)
| InvalidRange.                              (* Range.create on an undefined end *)

Inductive Result (A : Type) : Type :=
| Ok (a : A)
| Throw (e : Error).
Arguments Ok {A} a.
Arguments Throw {A} e.

Definition bind {A B} (r : Result A) (k : A -> Result B) : Result B :=
  match r with
  | Ok a => k a
  | Throw e => Throw e
  end.

Notation "x <- r ;; k" := (bind r (fun x => k))
  (at level 61, r at next level, right associativity).

Definition isOk {A} (r : Result A) : bool :=
  match r with Ok _ => true | Throw _ => false end.

(** ** Data model *)

(** The three diff-match-patch tags: DIFF_DELETE = -1, DIFF_INSERT = 1,
    DIFF_EQUAL = 0. *)
Inductive Op : Type := DIFF_DELETE | DIFF_INSERT | DIFF_EQUAL.

Definition Diff : Type := (Op * str)%type.

Record Position : Type := mkPosition { line : Z; character : Z }.

Inductive EditAction : Type := Delete | Insert | Replace.

(** [end] is declared [end!: Position]: it stays undefined until a Delete
    primitive assigns it. *)
Record Edit : Type := mkEdit {
  action : EditAction;
  start : Position;
  end_ : option Position;
  text : str
}.

Record Patch : Type := mkPatch {
  diffs : list Diff;
  start1 : Z;
  start2 : Z;
  length1 : Z;
  length2 : Z
}.

Record Range : Type := mkRange { range_start : Position; range_end : Position }.

Record TextEdit : Type := mkTextEdit { range : Range; newText : str }.

Definition Op_eqb (a b : Op) : bool :=
  match a, b with
  | DIFF_DELETE, DIFF_DELETE | DIFF_INSERT, DIFF_INSERT | DIFF_EQUAL, DIFF_EQUAL => true
  | _, _ => false
  end.

(** ** The edit synthesizer: [getTextEditsInternal] *)

(** One turn of the inner loop over the characters of a payload. *)
Definition advanceChar (p : Position) (c : ascii) : Position :=
  if Ascii.eqb c LF
  then {| line := line p + 1; character := 0 |}
  else {| line := line p; character := character p + 1 |}.

Definition advance (p : Position) (t : str) : Position :=
  fold_left advanceChar t p.

(** The variables the loop over the primitives reads and writes. *)
Record State : Type := mkState {
  cursor : Position;          (* line, character *)
  edit : option Edit;         (* the edit in progress, null when none *)
  edits : list Edit           (* the edits pushed so far *)
}.

Definition setEnd (e : Edit) (p : Position) : Edit :=
  {| action := action e; start := start e; end_ := Some p; text := text e |}.

Definition setAction (e : Edit) (a : EditAction) : Edit :=
  {| action := a; start := start e; end_ := end_ e; text := text e |}.

Definition appendText (e : Edit) (t : str) : Edit :=
  {| action := action e; start := start e; end_ := end_ e; text := text e ++ t |}.

Definition newEdit (a : EditAction) (s : Position) : Edit :=
  {| action := a; start := s; end_ := None; text := [] |}.

(** The body of the loop for the primitive [d]. *)
Definition step (st : State) (d : Diff) : Result State :=
  let start := cursor st in
  let after := advance start (snd d) in
  match fst d with
  | DIFF_DELETE =>
      match edit st with
      | None =>
          Ok (mkState after (Some (setEnd (newEdit Delete start) after)) (edits st))
      | Some e =>
          match action e with
          | Delete => Ok (mkState after (Some (setEnd e after)) (edits st))
          | _ => Throw InternalError
          end
      end
  | DIFF_INSERT =>
      let e := match edit st with
               | None => newEdit Insert start
               | Some e =>
                   match action e with
                   | Delete => setAction e Replace
                   | _ => e
                   end
               end in
      Ok (mkState start (Some (appendText e (snd d))) (edits st))
  | DIFF_EQUAL =>
      match edit st with
      | Some e => Ok (mkState after None (edits st ++ [e]))
      | None => Ok (mkState after None (edits st))
      end
  end.

Fixpoint loop (st : State) (ds : list Diff) : Result State :=
  match ds with
  | [] => Ok st
  | d :: ds' => st' <- step st d ;; loop st' ds'
  end.

Definition finish (st : State) : list Edit :=
  match edit st with
  | Some e => edits st ++ [e]
  | None => edits st
  end.

Section Formatter.

(** [EOL] of node's [os] module: the line terminator of the platform. *)
Variable EOL : str.

Definition NEW_LINE_LENGTH : Z := len EOL.

(** The value of [character] before the loop starts. *)
Definition initialCharacter (before : str) (startLine : Z) : Z :=
  if 0 <? startLine then
    let beforeLines := splitLines before in
    fold_left (fun character l => character + (len l + NEW_LINE_LENGTH))
              (filterIndex (fun i => Z.of_nat i <? startLine) beforeLines) 0
  else 0.

Definition initialState (before : str) (startLine : Z) : State :=
  mkState (mkPosition startLine (initialCharacter before startLine)) None [].

Definition getTextEditsInternal (before : str) (diffs : list Diff) (startLine : Z)
  : Result (list Edit) :=
  st <- loop (initialState before startLine) diffs ;; Ok (finish st).

(** The [start] object of every turn of the loop, in order: the position at
    which each primitive is placed.  The list stops where the loop throws. *)
Fixpoint startsFrom (st : State) (ds : list Diff) : list Position :=
  match ds with
  | [] => []
  | d :: ds' =>
      cursor st :: match step st d with
                   | Ok st' => startsFrom st' ds'
                   | Throw _ => []
                   end
  end.

Definition primitiveStarts (before : str) (diffs : list Diff) (startLine : Z)
  : list Position :=
  startsFrom (initialState before startLine) diffs.

End Formatter.


(** ** The patch parser: [patch_fromText] *)

(** [\d] of a JavaScript regular expression: the ten ASCII digits. *)
Definition isDigit (c : ascii) : bool :=
  let n := nat_of_ascii c in (Nat.leb 48 n && Nat.leb n 57)%bool.

(** The longest run of digits at the head of [s], and what follows it. *)
Fixpoint takeDigits (s : str) : str * str :=
  match s with
  | [] => ([], [])
  | c :: rest =>
      if isDigit c
      then let (d, r) := takeDigits rest in (c :: d, r)
      else ([], s)
  end.

(** [,?] *)
Definition skipComma (s : str) : str :=
  match s with
  | c :: rest => if Ascii.eqb c ","%char then rest else s
  | [] => []
  end.

(** [line.match(patchHeader)], where [patchHeader] is the regular expression
    that reads: start of input, "@@ -", group 1 (one or more digits), an
    optional comma, group 2 (zero or more digits), " +", group 3 (one or more
    digits), an optional comma, group 4 (zero or more digits), " @@", end of
    input.  The result is the four groups m[1] .. m[4] when the whole line
    matches.  Every quantifier of the expression is followed by a character
    outside its own class, so the greedy choice is the only one that can
    match and the scan needs no backtracking. *)
Definition patchHeader (line : str) : option (str * str * str * str) :=
  match stripPrefix (lit "@@ -") line with
  | None => None
  | Some r0 =>
      let (m1, r1) := takeDigits r0 in
      let (m2, r2) := takeDigits (skipComma r1) in
      match stripPrefix (lit " +") r2 with
      | None => None
      | Some r3 =>
          let (m3, r4) := takeDigits r3 in
          let (m4, r5) := takeDigits (skipComma r4) in
          match m1, m3, stripPrefix (lit " @@") r5 with
          | _ :: _, _ :: _, Some [] => Some (m1, m2, m3, m4)
          | _, _, _ => None
          end
      end
  end.

Definition digitValue (c : ascii) : Z := Z.of_nat (nat_of_ascii c) - 48.

(** [parseInt(s, 10)] on a string of digits. *)
Definition parseInt (s : str) : Z :=
  fold_left (fun n c => 10 * n + digitValue c) s 0.

(** The start and the length of one half of the header, from the groups
    [m] (start digits) and [l] (length digits). *)
Definition headerHalf (m l : str) : Z * Z :=
  let start := parseInt m in
  if str_eqb l [] then (start - 1, 1)
  else if str_eqb l (lit "0") then (start, 0)
  else (start - 1, parseInt l).

(** The two loops of [patch_fromText] over the lines [text]: the outer one
    reads a header, the inner one ([body]) the content lines after it, and a
    line whose sign is '@' is handed back to the outer loop. *)
Fixpoint patchLoop (text : list str) : Result (list Patch) :=
  match text with
  | [] => Ok []
  | header :: content =>
      match patchHeader header with
      | None => Throw (InvalidPatchString header)
      | Some (m1, m2, m3, m4) =>
          let (s1, l1) := headerHalf m1 m2 in
          let (s2, l2) := headerHalf m3 m4 in
          (fix body (ls : list str) (ds : list Diff) {struct ls}
             : Result (list Patch) :=
             match ls with
             | [] => Ok [mkPatch ds s1 s2 l1 l2]
             | [] :: rest => body rest ds
             | (sign :: line) :: rest =>
                 if Ascii.eqb sign "-"%char then body rest (ds ++ [(DIFF_DELETE, line)])
                 else if Ascii.eqb sign "+"%char then body rest (ds ++ [(DIFF_INSERT, line)])
                 else if Ascii.eqb sign " "%char then body rest (ds ++ [(DIFF_EQUAL, line)])
                 else if Ascii.eqb sign "@"%char then
                   ps <- patchLoop ls ;; Ok (mkPatch ds s1 s2 l1 l2 :: ps)
                 else Throw (InvalidPatchMode sign line)
             end) content []
      end
  end.

Definition patch_fromText (textline : str) : Result (list Patch) :=
  match textline with
  | [] => Ok []
  | _ => patchLoop (splitCRorLF textline)
  end.

(** ** The materializer: [Edit.apply] *)

(** [Range.create(start, end)] throws when [end] is undefined. *)
Definition apply (e : Edit) : Result TextEdit :=
  match action e with
  | Insert => Ok (mkTextEdit (mkRange (start e) (start e)) (text e))
  | Delete =>
      match end_ e with
      | Some p => Ok (mkTextEdit (mkRange (start e) p) [])
      | None => Throw InvalidRange
      end
  | Replace =>
      match end_ e with
      | Some p => Ok (mkTextEdit (mkRange (start e) p) (text e))
      | None => Throw InvalidRange
      end
  end.

Fixpoint applyAll (es : list Edit) : Result (list TextEdit) :=
  match es with
  | [] => Ok []
  | e :: es' => t <- apply e ;; ts <- applyAll es' ;; Ok (t :: ts)
  end.

(** ** The pipeline: [getTextEditsFromPatch] *)

Definition noNewlineMarker : str := lit "\ No newline at end of file".

(** [patch.replace(/\\ No newline at end of file[\r\n]/, '')]: the
    expression has no [g] flag, so the leftmost match alone is removed. *)
Fixpoint removeMarker (s : str) : str :=
  let next := match s with
              | [] => []
              | c :: s' => c :: removeMarker s'
              end in
  match stripPrefix noNewlineMarker s with
  | Some (c :: rest) =>
      if (Ascii.eqb c CR || Ascii.eqb c LF)%bool then rest else next
  | _ => next
  end.

(** The first statement of [getTextEditsFromPatch]: a patch that starts with
    "---" loses everything before its first "@@". *)
Definition stripFileHeader (patch : str) : str :=
  if startsWith patch (lit "---")
  then substringFromIndexOf patch (lit "@@")
  else patch.

Section Pipeline.

Variable EOL : str.

Definition addLineFeed (d : Diff) : Diff := (fst d, snd d ++ EOL).

Fixpoint forEachPatch (before : str) (patches : list Patch) (textEdits : list TextEdit)
  : Result (list TextEdit) :=
  match patches with
  | [] => Ok textEdits
  | p :: rest =>
      es <- getTextEditsInternal EOL before (map addLineFeed (diffs p)) (start1 p) ;;
      ts <- applyAll es ;;
      forEachPatch before rest (textEdits ++ ts)
  end.

Definition getTextEditsFromPatch (before patch : str) : Result (list TextEdit) :=
  let patch := stripFileHeader patch in
  match patch with
  | [] => Ok []
  | _ =>
      patches <- patch_fromText (removeMarker patch) ;;
      match patches with
      | [] => Throw UnableToParse
      | _ => forEachPatch before patches []
      end
  end.

End Pipeline.

(** ** The editor's side: applying text edits to a document

    The edits are handed to the editor, which resolves every position
    against the text they were computed from and splices the new texts in.
    Lines are counted by LF, as the synthesizer counts them; a character
    index past the end of its line is clamped to the end of the line. *)

Fixpoint offsetOf (doc : str) (l c : nat) : nat :=
  match doc with
  | [] => O
  | ch :: rest =>
      match l, c with
      | S l', _ => S (offsetOf rest (if Ascii.eqb ch LF then l' else l) c)
      | O, O => O
      | O, S c' => if Ascii.eqb ch LF then O else S (offsetOf rest O c')
      end
  end.

Definition offsetAt (doc : str) (p : Position) : nat :=
  offsetOf doc (Z.to_nat (line p)) (Z.to_nat (character p)).

(** The edits are applied in the order given, each one at or after the end
    of the one before; [last] is the offset up to which the document has
    been rewritten.  An edit that starts before [last] overlaps and is
    refused. *)
Fixpoint applyFrom (doc : str) (last : nat) (tes : list TextEdit) : option str :=
  match tes with
  | [] => Some (skipn last doc)
  | te :: tes' =>
      let s := offsetAt doc (range_start (range te)) in
      let e := offsetAt doc (range_end (range te)) in
      if Nat.ltb s last then None
      else match applyFrom doc e tes' with
           | Some r => Some (firstn (s - last) (skipn last doc) ++ newText te ++ r)
           | None => None
           end
  end.

Definition applyEdits (doc : str) (tes : list TextEdit) : option str :=
  applyFrom doc O tes.

(** ** Strings, continued *)

(** [s.indexOf(p)]: the index of the first occurrence of [p] in [s], -1
    when there is none. *)
Fixpoint indexOf (s p : str) : Z :=
  if startsWith s p then 0
  else match s with
       | [] => -1
       | _ :: s' => let i := indexOf s' p in if i <? 0 then -1 else i + 1
       end.

(** The white space [String.prototype.trim] removes, among the characters
    below 256: TAB, LF, VT, FF, CR, space and the no-break space. *)
Definition isWhiteSpace (c : ascii) : bool :=
  let n := nat_of_ascii c in
  (Nat.leb 9 n && Nat.leb n 13) || Nat.eqb n 32 || Nat.eqb n 160.

Fixpoint trimStart (s : str) : str :=
  match s with
  | [] => []
  | c :: s' => if isWhiteSpace c then trimStart s' else s
  end.

(** [s.trim()] *)
Definition trim (s : str) : str := rev (trimStart (rev (trimStart s))).

(** [s.split(sep)] for a separator of one character. *)
Fixpoint splitOn (sep : ascii) (s : str) : list str :=
  match s with
  | [] => [[]]
  | c :: rest =>
      if Ascii.eqb c sep then [] :: splitOn sep rest
      else match splitOn sep rest with
           | h :: t => (c :: h) :: t
           | [] => [[c]]
           end
  end.

(** ** [ErrorUtils.outputHasModuleNotInstalledError] and [isNotInstalledError] *)

(** [content] is optional: [None] stands for undefined. *)
Definition outputHasModuleNotInstalledError (moduleName : str) (content : option str)
  : bool :=
  match content with
  | None => false
  | Some [] => false
  | Some c =>
      (0 <? indexOf c (lit "No module named " ++ moduleName)) ||
      (0 <? indexOf c (lit "No module named '" ++ moduleName ++ lit "'"))
  end.

(** The [code] property of an error object. *)
Inductive ErrorCode : Type :=
| NoCode
| CodeString (s : str)
| CodeNumber (n : Z).

(** What [isNotInstalledError] is handed: something that is not an object
    (or is null), or an error object, of which the function reads whether it
    is a [ModuleNotInstalledError], its message and its code. *)
Inductive Thrown : Type :=
| NotAnObject
| ErrorObject (isModuleNotInstalledError : bool) (message : str) (code : ErrorCode).

(** [new ModuleNotInstalledError(moduleName)] *)
Definition ModuleNotInstalledError (moduleName : str) : Thrown :=
  ErrorObject true (lit "Module '" ++ moduleName ++ lit "' not installed.") NoCode.

Definition isNotInstalledError (error : Thrown) : bool :=
  match error with
  | NotAnObject => false
  | ErrorObject true _ _ => true
  | ErrorObject false message code =>
      let isModuleNoInstalledError := 0 <=? indexOf message (lit "No module named") in
      match code with
      | CodeString s => str_eqb s (lit "ENOENT") || isModuleNoInstalledError
      | CodeNumber n => (n =? 127) || isModuleNoInstalledError
      | NoCode => isModuleNoInstalledError
      end
  end.

(** ** [parsePythonVersion] *)

(** [/^\d+$/.test(s)] *)
Definition isDigits (s : str) : bool := negb (str_eqb s []) && forallb isDigit s.

Definition releaseLevels : list str :=
  [lit "alpha"; lit "beta"; lit "candidate"; lit "final"].

(** [releaseLevels.indexOf(s) !== -1] *)
Definition isReleaseLevel (s : str) : bool := existsb (str_eqb s) releaseLevels.

(** The last part is cut at its hyphens when it holds one past its first
    character: the text before the first hyphen replaces it and the text
    between the first and the second hyphen is pushed after it. *)
Definition splitHyphen (versionParts : list str) : list str :=
  match rev versionParts with
  | [] => versionParts
  | lastPart :: front =>
      if 0 <? indexOf lastPart (lit "-") then
        rev front ++ [trim (nth 0 (splitOn "-" lastPart) []);
                      trim (nth 1 (splitOn "-" lastPart) [])]
      else versionParts
  end.

(** [while (versionParts.length < 4) versionParts.push('')] *)
Definition padTo4 (versionParts : list str) : list str :=
  versionParts ++ repeat [] (4 - List.length versionParts).

Definition numericPart (s : str) : str := if isDigits s then s else lit "0".

(** The loop over the indices 0, 1, 2 of a list of at least four parts. *)
Definition numericParts (versionParts : list str) : list str :=
  match versionParts with
  | p0 :: p1 :: p2 :: rest => numericPart p0 :: numericPart p1 :: numericPart p2 :: rest
  | _ => versionParts
  end.

(** [versionParts.pop()] unless [versionParts[3]] is a release level. *)
Definition dropLevel (versionParts : list str) : list str :=
  if isReleaseLevel (nth 3 versionParts []) then versionParts
  else removelast versionParts.

Definition normalizedParts (version : str) : list str :=
  dropLevel (numericParts (padTo4 (splitHyphen
    (filterIndex (fun index => Nat.ltb index 4)
       (filter (fun item => negb (str_eqb item []))
          (map trim (splitOn "."%char version))))))).

Definition rawVersionOf (versionParts : list str) : str :=
  let numberParts :=
    nth 0 versionParts [] ++ lit "." ++ nth 1 versionParts [] ++ lit "." ++
    nth 2 versionParts [] in
  if Nat.eqb (List.length versionParts) 4
  then numberParts ++ lit "-" ++ nth 3 versionParts []
  else numberParts.

(** The string [parsePythonVersion] hands to [new SemVer], [None] when it
    returns undefined.  The construction of the [SemVer] object is outside
    this model. *)
Definition parsePythonVersion (version : str) : option str :=
  match trim version with
  | [] => None
  | _ => Some (rawVersionOf (normalizedParts version))
  end.

(** ** Vocabulary of the statements *)

(** The position reached from the start of a document after the text [t]. *)
Definition posOf (t : str) : Position := advance (mkPosition 0 0) t.

(** Document order on positions. *)
Definition ple (p q : Position) : Prop :=
  line p < line q \/ (line p = line q /\ character p <= character q).

(** The end of the span of an edit in the original document; an Insert
    covers nothing, its span ends where it starts. *)
Definition spanEnd (e : Edit) : Position :=
  match end_ e with
  | Some p => p
  | None => start e
  end.

(** *** Diff sequences *)

Definition isInsert (d : Diff) : bool := Op_eqb (fst d) DIFF_INSERT.
Definition isDelete (d : Diff) : bool := Op_eqb (fst d) DIFF_DELETE.

(** The payloads of a diff sequence, one after the other. *)
Definition payloads (ds : list Diff) : str := List.concat (map snd ds).

(** The text of the original document a diff sequence walks over: the
    payloads of its Equal and Delete primitives. *)
Definition consumed (ds : list Diff) : str :=
  payloads (filter (fun d => negb (isInsert d)) ds).

(** The text a diff sequence describes: the payloads of its Equal and Insert
    primitives. *)
Definition produced (ds : list Diff) : str :=
  payloads (filter (fun d => negb (isDelete d)) ds).

(** A Delete primitive directly after an Insert primitive. *)
Definition DeleteAfterInsert (ds : list Diff) : Prop :=
  exists pre t1 t2 post,
    ds = pre ++ (DIFF_INSERT, t1) :: (DIFF_DELETE, t2) :: post.

(** A Delete primitive after an Insert primitive with no Equal primitive
    between the two. *)
Definition DeleteFollowsInsert (ds : list Diff) : Prop :=
  exists pre t1 mid t2 post,
    ds = pre ++ (DIFF_INSERT, t1) :: mid ++ (DIFF_DELETE, t2) :: post /\
    Forall (fun d => fst d <> DIFF_EQUAL) mid.

(** *** The loop of the synthesizer *)

(** The synthesizer started at an arbitrary cursor with no edit in
    progress. *)
Definition synthesizeFrom (p : Position) (ds : list Diff) : Result (list Edit) :=
  st <- loop (mkState p None []) ds ;; Ok (finish st).

(** The edits still to come from a cursor and an edit in progress. *)
Fixpoint emit (p : Position) (pending : option Edit) (ds : list Diff)
  : Result (list Edit) :=
  match ds with
  | [] => Ok (finish (mkState p pending []))
  | d :: ds' =>
      st <- step (mkState p pending []) d ;;
      es <- emit (cursor st) (edit st) ds' ;;
      Ok (edits st ++ es)
  end.

(** The edit in progress is an Insert or a Replace. *)
Definition notDelete (pending : option Edit) : bool :=
  match pending with
  | Some e => match action e with Delete => false | _ => true end
  | None => false
  end.

(** A Delete primitive comes directly after an Insert primitive of [ds], or
    first in [ds] when [afterInsert] is set. *)
Fixpoint deleteAfter (afterInsert : bool) (ds : list Diff) : bool :=
  match ds with
  | [] => false
  | (DIFF_DELETE, _) :: ds' => afterInsert || deleteAfter false ds'
  | (DIFF_INSERT, _) :: ds' => deleteAfter true ds'
  | (DIFF_EQUAL, _) :: ds' => deleteAfter false ds'
  end.

(** Edits in document order, one after the end of the other, between the
    positions [lo] and [hi]. *)
Fixpoint chain (lo : Position) (es : list Edit) (hi : Position) : Prop :=
  match es with
  | [] => ple lo hi
  | e :: es' =>
      ple lo (start e) /\ ple (start e) (spanEnd e) /\ chain (spanEnd e) es' hi
  end.

(** The sum of a list of integers. *)
Definition sumZ (l : list Z) : Z := fold_right Z.add 0 l.

(** The cursor walk on natural numbers. *)
Fixpoint walk (l c : nat) (t : str) : nat * nat :=
  match t with
  | [] => (l, c)
  | ch :: t' => if Ascii.eqb ch LF then walk (S l) O t' else walk l (S c) t'
  end.

(** *** Hunks and documents *)

(** What the edit in progress contributes to the result, [M] being the text
    walked over since the edit started (or since the last offset written,
    when there is no edit in progress). *)
Definition pendingText (pending : option Edit) (M : str) : str :=
  match pending with
  | None => M
  | Some e => match action e with Delete => [] | _ => text e end
  end.

(** The edit in progress started after the text [S] and has walked over
    [M]. *)
Definition pendingOK (pending : option Edit) (S M : str) : Prop :=
  match pending with
  | None => True
  | Some e =>
      start e = posOf S /\
      match action e with
      | Insert => M = []
      | Delete => end_ e = Some (posOf (S ++ M)) /\ text e = []
      | Replace => end_ e = Some (posOf (S ++ M))
      end
  end.

(** A hunk that fits the document: the original text is [pre], then the
    text the hunk walks over, then [post]; [pre] is made of the first
    [startLine] lines; and no Delete primitive comes directly after an
    Insert primitive. *)
Definition wellFormedHunk
  (before : str) (ds : list Diff) (startLine : Z) (pre post : str) : Prop :=
  before = pre ++ consumed ds ++ post /\
  posOf pre = mkPosition startLine 0 /\
  ~ DeleteAfterInsert ds.

(** The hunk opens with a line of context. *)
Definition opensWithContext (ds : list Diff) : Prop :=
  exists t ds', ds = (DIFF_EQUAL, t) :: ds' /\ In LF t.

(** Every payload carries the line terminator the pipeline appends. *)
Definition terminated (EOL : str) (ds : list Diff) : Prop :=
  Forall (fun d => exists l, snd d = l ++ EOL) ds.

(** C1 as worded: the edits turn the document into
    the text of the Equal and Insert primitives alone. *)
Definition roundtrip_to_hunk_text : Prop :=
  forall EOL before ds startLine pre post,
    wellFormedHunk before ds startLine pre post ->
    terminated EOL ds ->
    exists es tes,
      getTextEditsInternal EOL before ds startLine = Ok es /\
      applyAll es = Ok tes /\
      applyEdits before tes = Some (produced ds).

(** A line of text with its LF terminator. *)
Definition ln (s : string) : str := lit s ++ [LF].

(** A document of five lines; the hunk below replaces its first line and
    carries three lines of context. *)
Definition fiveLines : str := ln "a" ++ ln "b" ++ ln "c" ++ ln "d" ++ ln "e".

(** The hunk "-a", "+x", " b", " c", " d" of that document. *)
Definition firstLineHunk : list Diff :=
  [(DIFF_DELETE, ln "a"); (DIFF_INSERT, ln "x");
   (DIFF_EQUAL, ln "b"); (DIFF_EQUAL, ln "c"); (DIFF_EQUAL, ln "d")].

(** The hunk that replaces the third line of the same document, with one
    line of context on each side; it starts at line 1. *)
Definition thirdLineHunk : list Diff :=
  [(DIFF_EQUAL, ln "b"); (DIFF_DELETE, ln "c"); (DIFF_INSERT, ln "y");
   (DIFF_INSERT, ln "z"); (DIFF_EQUAL, ln "d")].

(** *** Runs of primitives *)

(** Every primitive of [ds] has the tag [op]. *)
Definition allOp (op : Op) (ds : list Diff) : Prop :=
  Forall (fun d => fst d = op) ds.

(** The sequence is empty or its last primitive is an Equal. *)
Definition endsWithEqual (ds : list Diff) : Prop :=
  ds = [] \/ exists ds' t, ds = ds' ++ [(DIFF_EQUAL, t)].

(** The sequence is empty or its first primitive is an Equal. *)
Definition startsWithEqual (ds : list Diff) : Prop :=
  ds = [] \/ exists t ds', ds = (DIFF_EQUAL, t) :: ds'.

(** The one edit that a run of Delete primitives [dels] followed by a run
    of Insert primitives [inss] leaves when it starts at [s] with no edit in
    progress. *)
Definition runEdit (s : Position) (dels inss : list Diff) : Edit :=
  match dels with
  | [] => mkEdit Insert s None (payloads inss)
  | _ :: _ => mkEdit Replace s (Some (advance s (payloads dels))) (payloads inss)
  end.

(** C3 as worded: every Delete primitive directly followed by an Insert
    primitive gives a Replace edit that starts where that Delete starts, ends
    after its payload, and carries the payload of that Insert. *)
Definition delete_insert_pair_is_one_replace : Prop :=
  forall EOL before startLine pre d i post,
    exists es1 es2 s,
      nth_error
        (primitiveStarts EOL before
           (pre ++ (DIFF_DELETE, d) :: (DIFF_INSERT, i) :: post) startLine)
        (List.length pre) = Some s /\
      getTextEditsInternal EOL before
        (pre ++ (DIFF_DELETE, d) :: (DIFF_INSERT, i) :: post) startLine =
      Ok (es1 ++ mkEdit Replace s (Some (advance s d)) i :: es2).

(** C10 as worded: a run of two or more Insert primitives, with no Insert
    primitive before or after it, gives an Insert edit anchored where the
    first of them is placed, with their payloads in order. *)
Definition insert_run_is_one_insert : Prop :=
  forall EOL before startLine pre inss post,
    allOp DIFF_INSERT inss -> (2 <= List.length inss)%nat ->
    ~ (exists pre' t, pre = pre' ++ [(DIFF_INSERT, t)]) ->
    ~ (exists t post', post = (DIFF_INSERT, t) :: post') ->
    exists es1 es2 s,
      nth_error (primitiveStarts EOL before (pre ++ inss ++ post) startLine)
                (List.length pre) = Some s /\
      getTextEditsInternal EOL before (pre ++ inss ++ post) startLine =
      Ok (es1 ++ mkEdit Insert s None (payloads inss) :: es2).

(** *** The lines of a patch text *)

(** The header fields of a patch, from the four groups of the match. *)
Definition patchOf (m : str * str * str * str) (ds : list Diff) : Patch :=
  let '(m1, m2, m3, m4) := m in
  mkPatch ds (fst (headerHalf m1 m2)) (fst (headerHalf m3 m4))
             (snd (headerHalf m1 m2)) (snd (headerHalf m3 m4)).

(** The content lines of one hunk, read in one pass: the primitives up to
    the next line whose sign is '@', and the patches from that line on. *)
Fixpoint contentLines (ls : list str) : Result (list Diff * list Patch) :=
  match ls with
  | [] => Ok ([], [])
  | [] :: rest => contentLines rest
  | (sign :: line) :: rest =>
      if Ascii.eqb sign "-"%char then
        r <- contentLines rest ;; Ok ((DIFF_DELETE, line) :: fst r, snd r)
      else if Ascii.eqb sign "+"%char then
        r <- contentLines rest ;; Ok ((DIFF_INSERT, line) :: fst r, snd r)
      else if Ascii.eqb sign " "%char then
        r <- contentLines rest ;; Ok ((DIFF_EQUAL, line) :: fst r, snd r)
      else if Ascii.eqb sign "@"%char then
        match patchHeader (sign :: line) with
        | None => Throw (InvalidPatchString (sign :: line))
        | Some m => r <- contentLines rest ;; Ok ([], patchOf m (fst r) :: snd r)
        end
      else Throw (InvalidPatchMode sign line)
  end.

(** The patches of a list of lines, read in one pass: a header, then the
    content lines after it. *)
Definition hunks (text : list str) : Result (list Patch) :=
  match text with
  | [] => Ok []
  | header :: content =>
      match patchHeader header with
      | None => Throw (InvalidPatchString header)
      | Some m => r <- contentLines content ;; Ok (patchOf m (fst r) :: snd r)
      end
  end.

(** The inner loop of [patchLoop], with the outer loop as a parameter. *)
Definition bodyLoop (outer : list str -> Result (list Patch)) (m : str * str * str * str)
  : list str -> list Diff -> Result (list Patch) :=
  fix body (ls : list str) (ds : list Diff) {struct ls} : Result (list Patch) :=
    match ls with
    | [] => Ok [patchOf m ds]
    | [] :: rest => body rest ds
    | (sign :: line) :: rest =>
        if Ascii.eqb sign "-"%char then body rest (ds ++ [(DIFF_DELETE, line)])
        else if Ascii.eqb sign "+"%char then body rest (ds ++ [(DIFF_INSERT, line)])
        else if Ascii.eqb sign " "%char then body rest (ds ++ [(DIFF_EQUAL, line)])
        else if Ascii.eqb sign "@"%char then
          ps <- outer ls ;; Ok (patchOf m ds :: ps)
        else Throw (InvalidPatchMode sign line)
    end.

(** The sign of a content line is one the parser knows: '-', '+', ' ',
    '@', or the line is empty. *)
Definition contentOK (l : str) : bool :=
  match l with
  | [] => true
  | sign :: _ =>
      Ascii.eqb sign "-"%char || Ascii.eqb sign "+"%char ||
      Ascii.eqb sign " "%char || Ascii.eqb sign "@"%char
  end.

(** The sign of the line is '@'. *)
Definition startsHunk (l : str) : bool :=
  match l with
  | sign :: _ => Ascii.eqb sign "@"%char
  | [] => false
  end.

(** [o] is not [None]. *)
Definition isSome {A} (o : option A) : bool :=
  match o with Some _ => true | None => false end.

(** A line after the first that the parser accepts: its sign is known, and
    when the sign is '@' the line is a header. *)
Definition lineAccepted (l : str) : bool :=
  contentOK l && (negb (startsHunk l) || isSome (patchHeader l)).

(** The primitive a content line stands for. *)
Definition lineDiffs (l : str) : list Diff :=
  match l with
  | [] => []
  | sign :: line =>
      if Ascii.eqb sign "-"%char then [(DIFF_DELETE, line)]
      else if Ascii.eqb sign "+"%char then [(DIFF_INSERT, line)]
      else if Ascii.eqb sign " "%char then [(DIFF_EQUAL, line)]
      else []
  end.

(** *** Header lines *)

(** A number of the header: one to fifteen digits, so that its value is an
    exact JavaScript number. *)
Definition isNumber (d : str) : bool :=
  negb (str_eqb d []) && forallb isDigit d && Nat.leb (List.length d) 15.

(** The length of a half of the header: left out, or a number. *)
Definition isLength (l : option str) : bool :=
  match l with
  | None => true
  | Some l => isNumber l
  end.

(** One half of a header: the start, then a comma and the length when
    there is one. *)
Definition halfText (d : str) (l : option str) : str :=
  d ++ match l with
       | None => []
       | Some l => ","%char :: l
       end.

(** The header line for the starts [d1], [d2] and the lengths [l1], [l2]. *)
Definition headerText (d1 : str) (l1 : option str) (d2 : str) (l2 : option str) : str :=
  lit "@@ -" ++ halfText d1 l1 ++ lit " +" ++ halfText d2 l2 ++ lit " @@".

(** The rule for one half of the header: a length left out gives length 1
    and the start less one; the length "0" gives length 0 and the start as
    written; any other length gives that length and the start less one. *)
Definition halfRule (d : str) (l : option str) : Z * Z :=
  match l with
  | None => (parseInt d - 1, 1)
  | Some l =>
      if str_eqb l (lit "0") then (parseInt d, 0)
      else (parseInt d - 1, parseInt l)
  end.

(** The second group of a half: the digits of the length, none when it is
    left out. *)
Definition lengthDigits (l : option str) : str :=
  match l with
  | None => []
  | Some l => l
  end.

(** [c] is one of the two characters [patch_fromText] splits on. *)
Definition isSeparator (c : ascii) : bool := Ascii.eqb c CR || Ascii.eqb c LF.

(** A patch whose old and new last lines both lack a line terminator: the
    marker follows the '-' line and the '+' line. *)
Definition twoMarkers : str :=
  ln "@@ -1 +1 @@" ++
  ln "-a" ++ ln "\ No newline at end of file" ++
  ln "+b" ++ ln "\ No newline at end of file".

(** The same patch with the new last line terminated: one marker. *)
Definition oneMarker : str :=
  ln "@@ -1 +1 @@" ++ ln "-a" ++ ln "+b" ++ ln "\ No newline at end of file".

(** *** The lines of a document *)

(** A line of a document with the terminator that follows it: the line
    holds no LF, and the terminator is CR LF, or LF after a line that does
    not end in CR. *)
Definition terminatedLine (lt : str * str) : Prop :=
  ~ In LF (fst lt) /\
  (snd lt = [CR; LF] \/ (snd lt = [LF] /\ forall l0, fst lt <> l0 ++ [CR])).

(** The text of a list of lines, each followed by its terminator. *)
Definition linesText (lines : list (str * str)) : str :=
  flat_map (fun lt => fst lt ++ snd lt) lines.

(** The number of characters of the lines, each counted with [eol]
    characters for its terminator. *)
Definition lengthWith (eol : nat) (lines : list str) : Z :=
  sumZ (map (fun l => Z.of_nat (List.length l) + Z.of_nat eol) lines).

(** *** The grammar of a header line *)

(** One of the ten decimal digits. *)
Definition decimalDigit (c : ascii) : Prop := In c (lit "0123456789").

(** Zero or more digits. *)
Definition digitString (s : str) : Prop := Forall decimalDigit s.

(** One or more digits. *)
Definition numeral (s : str) : Prop := s <> [] /\ digitString s.

(** The header grammar as the specification writes it,
    [@@ -<start1>[,<len1>] +<start2>[,<len2>] @@]: the starts and the lengths
    are numerals, and each bracketed part, a comma and a length, is there or
    not. *)
Definition optionalLength (o : str) : Prop :=
  o = [] \/ exists n, numeral n /\ o = ","%char :: n.

Definition specHeaderGrammar (l : str) : Prop :=
  exists s1 o1 s2 o2,
    numeral s1 /\ optionalLength o1 /\ numeral s2 /\ optionalLength o2 /\
    l = lit "@@ -" ++ s1 ++ o1 ++ lit " +" ++ s2 ++ o2 ++ lit " @@".

(** The same grammar with a looser bracketed part: after the comma the
    digits of the length may be missing. *)
Definition looseLength (o : str) : Prop :=
  o = [] \/ exists n, digitString n /\ o = ","%char :: n.

Definition looseHeaderGrammar (l : str) : Prop :=
  exists s1 o1 s2 o2,
    numeral s1 /\ looseLength o1 /\ numeral s2 /\ looseLength o2 /\
    l = lit "@@ -" ++ s1 ++ o1 ++ lit " +" ++ s2 ++ o2 ++ lit " @@".

(** What follows the longest run of digits at the head of a text is no
    digit. *)
Definition stopsDigits (r : str) : Prop :=
  match r with
  | [] => True
  | c :: _ => isDigit c = false
  end.

(** The patch text [textline] is refused under the header grammar [G]: it
    is not empty, and among its lines the first one, or a later one whose
    sign is '@', is not a header of [G], or a later one has a sign other
    than '-', '+', ' ', '@' and is not empty. *)
Definition refusedUnder (G : str -> Prop) (textline : str) : Prop :=
  textline <> [] /\
  exists i l,
    nth_error (splitCRorLF textline) i = Some l /\
    (((i = O \/ startsHunk l = true) /\ ~ G l) \/
     (i <> O /\ contentOK l = false)).

(** *** Shape and number of the edits *)

(** What the loop leaves in an edit: an Insert has no end, a Delete has an
    end and no text, a Replace has an end. *)
Definition editOK (e : Edit) : Prop :=
  match action e with
  | Insert => end_ e = None
  | Delete => (exists p, end_ e = Some p) /\ text e = []
  | Replace => exists p, end_ e = Some p
  end.

(** The text edit an edit of that shape is materialized to. *)
Definition materialized (e : Edit) : TextEdit :=
  mkTextEdit (mkRange (start e) (spanEnd e)) (text e).

(** Some primitive of [ds] is not an Equal. *)
Definition changed (ds : list Diff) : bool :=
  existsb (fun d => negb (Op_eqb (fst d) DIFF_EQUAL)) ds.

(** An edit has been pushed or is in progress. *)
Definition busy (st : State) : bool :=
  match edit st, edits st with
  | None, [] => false
  | _, _ => true
  end.

(** The number of maximal runs of Delete and Insert primitives in [ds];
    [inRun] says that [ds] continues such a run. *)
Fixpoint changeRuns (inRun : bool) (ds : list Diff) : nat :=
  match ds with
  | [] => O
  | (DIFF_EQUAL, _) :: ds' => changeRuns false ds'
  | _ :: ds' => (if inRun then O else 1%nat) + changeRuns true ds'
  end.

(** *** Patches of several hunks *)

(** The text edits of one patch, as [getTextEditsFromPatch] computes them:
    the line terminator is appended to every payload, the edits are
    synthesized from the patch's first line and then materialized. *)
Definition patchEdits (EOL before : str) (p : Patch) : Result (list TextEdit) :=
  es <- getTextEditsInternal EOL before (map (addLineFeed EOL) (diffs p)) (start1 p) ;;
  applyAll es.

(** The hunks of [ps] lie in the document one after the other.  The
    document is [done ++ todo]; each hunk starts after a gap of untouched
    text at the beginning of its line [start1], walks over the text of its
    Equal and Delete primitives, has no Delete directly after an Insert, and
    starts at line 0 or opens with a line of context.  The last index is the
    text that [todo] becomes: every hunk replaced by the text of its Equal
    and Insert primitives. *)
Inductive Layout (EOL : str) : str -> str -> list Patch -> str -> Prop :=
| Layout_nil (done todo : str) : Layout EOL done todo [] todo
| Layout_cons (done gap todo' : str) (p : Patch) (ps : list Patch) (r : str) :
    posOf (done ++ gap) = mkPosition (start1 p) 0 ->
    ~ DeleteAfterInsert (map (addLineFeed EOL) (diffs p)) ->
    start1 p = 0 \/ opensWithContext (map (addLineFeed EOL) (diffs p)) ->
    Layout EOL (done ++ gap ++ consumed (map (addLineFeed EOL) (diffs p))) todo' ps r ->
    Layout EOL done
      (gap ++ consumed (map (addLineFeed EOL) (diffs p)) ++ todo') (p :: ps)
      (gap ++ produced (map (addLineFeed EOL) (diffs p)) ++ r).

(** A document of ten lines and a patch text for it with a file header and
    two hunks: the first replaces line 1, the second replaces line 9 by two
    lines; and the document the patch leads to. *)
Definition tenLines : str :=
  ln "a" ++ ln "b" ++ ln "c" ++ ln "d" ++ ln "e" ++
  ln "f" ++ ln "g" ++ ln "h" ++ ln "i" ++ ln "j".

Definition twoHunkPatch : str :=
  ln "--- old" ++ ln "+++ new" ++
  ln "@@ -1,4 +1,4 @@" ++ ln "-a" ++ ln "+A" ++ ln " b" ++ ln " c" ++ ln " d" ++
  ln "@@ -7,4 +7,5 @@" ++ ln " g" ++ ln " h" ++ ln "-i" ++ ln "+I" ++ ln "+I2" ++ ln " j".

Definition twoHunks : list Patch :=
  [mkPatch [(DIFF_DELETE, lit "a"); (DIFF_INSERT, lit "A"); (DIFF_EQUAL, lit "b");
            (DIFF_EQUAL, lit "c"); (DIFF_EQUAL, lit "d")] 0 0 4 4;
   mkPatch [(DIFF_EQUAL, lit "g"); (DIFF_EQUAL, lit "h"); (DIFF_DELETE, lit "i");
            (DIFF_INSERT, lit "I"); (DIFF_INSERT, lit "I2"); (DIFF_EQUAL, lit "j")]
           6 6 4 5].

Definition tenLinesPatched : str :=
  ln "A" ++ ln "b" ++ ln "c" ++ ln "d" ++ ln "e" ++
  ln "f" ++ ln "g" ++ ln "h" ++ ln "I" ++ ln "I2" ++ ln "j".

(** *** Errors of the pipeline *)

(** The two errors [patch_fromText] throws. *)
Definition isParseError (e : Error) : Prop :=
  match e with
  | InvalidPatchString _ | InvalidPatchMode _ _ => True
  | _ => False
  end.

(** *** Searching a text *)

(** [p] is found in [a ++ rest] at no index inside [a]. *)
Definition notBefore (p a rest : str) : Prop :=
  forall a1 a2, a = a1 ++ a2 -> a2 <> [] -> startsWith (a2 ++ rest) p = false.

(** The same, decided by trying every index of [a]. *)
Fixpoint notBeforeb (p a rest : str) : bool :=
  match a with
  | [] => true
  | _ :: a' => negb (startsWith (a ++ rest) p) && notBeforeb p a' rest
  end.

(** The marker followed by a line terminator stands at the head of [s]. *)
Definition markerAt (s : str) : bool :=
  match stripPrefix noNewlineMarker s with
  | Some (c :: _) => isSeparator c
  | _ => false
  end.

(** The marker followed by a line terminator stands at no index inside [a]
    in [a ++ rest]. *)
Definition noMarkerIn (a rest : str) : Prop :=
  forall a1 a2, a = a1 ++ a2 -> a2 <> [] -> markerAt (a2 ++ rest) = false.

(** The text [ls] with every line followed by the terminator [eol]. *)
Definition joinLines (eol : str) (ls : list str) : str :=
  List.concat (map (fun l => l ++ eol) ls).

(** The line holds no CR and no LF. *)
Definition oneLine (l : str) : bool := forallb (fun c => negb (isSeparator c)) l.

(** *** Whole lines *)

(** The two ends of the edit stand at the start of a line. *)
Definition wholeLines (e : Edit) : Prop :=
  character (start e) = 0 /\ character (spanEnd e) = 0.

(** The two ends of the edit stand at the start of a line or at [c0]. *)
Definition wholeLinesFrom (c0 : Position) (e : Edit) : Prop :=
  (start e = c0 \/ character (start e) = 0) /\
  (spanEnd e = c0 \/ character (spanEnd e) = 0).

(** The number of Equal and Delete primitives of [ds]. *)
Definition walkedLines (ds : list Diff) : nat :=
  List.length (filter (fun d => negb (isInsert d)) ds).

(** *** Messages and versions *)

(** The two messages [outputHasModuleNotInstalledError] looks for. *)
Definition moduleMessages (moduleName : str) : list str :=
  [lit "No module named " ++ moduleName;
   lit "No module named '" ++ moduleName ++ lit "'"].

(** [p] occurs in [s]. *)
Definition occursIn (p s : str) : Prop := exists a b, s = a ++ p ++ b.

(** Neither white space nor a dot. *)
Definition solidChar (c : ascii) : bool :=
  negb (isWhiteSpace c) && negb (Ascii.eqb c "."%char).

(** A character of a word: a solid character other than a hyphen. *)
Definition plainChar (c : ascii) : bool :=
  solidChar c && negb (Ascii.eqb c "-"%char).

(** A word: not empty, of plain characters. *)
Definition plainWord (s : str) : bool :=
  negb (str_eqb s []) && forallb plainChar s.

(** [a.b.c] *)
Definition dotted (a b c : str) : str := a ++ lit "." ++ b ++ lit "." ++ c.

(** A part that trimming and splitting at the dots leave alone. *)
Definition solidWord (w : str) : Prop := w <> [] /\ forallb solidChar w = true.

(** [ws.join('.')] *)
Fixpoint joinDots (ws : list str) : str :=
  match ws with
  | [] => []
  | [w] => w
  | w :: ws' => w ++ "."%char :: joinDots ws'
  end.

(** * Properties *)

(** ** Cursor arithmetic *)

Lemma advance_app p a b : advance p (a ++ b) = advance (advance p a) b.
Proof. unfold advance. apply fold_left_app. Qed.

Lemma advance_cons p c t : advance p (c :: t) = advance (advanceChar p c) t.
Proof. reflexivity. Qed.

Lemma ple_refl p : ple p p.
Proof. unfold ple. lia. Qed.

Lemma ple_trans p q r : ple p q -> ple q r -> ple p r.
Proof. unfold ple. lia. Qed.

Lemma advanceChar_ple p c : ple p (advanceChar p c).
Proof.
  unfold advanceChar, ple. destruct (Ascii.eqb c LF); simpl; lia.
Qed.

Lemma advance_ple t : forall p, ple p (advance p t).
Proof.
  induction t as [|c t IH]; intro p.
  - apply ple_refl.
  - rewrite advance_cons. eapply ple_trans; [apply advanceChar_ple | apply IH].
Qed.

(** ** The loop and the edits it has pushed *)

Lemma step_edits st d :
  step st d =
  (st' <- step (mkState (cursor st) (edit st) []) d ;;
   Ok (mkState (cursor st') (edit st') (edits st ++ edits st'))).
Proof.
  destruct st as [p pend es], d as [op t]. unfold step; simpl.
  destruct op, pend as [[[] s0 en tx]|]; simpl;
    rewrite ?app_nil_r; reflexivity.
Qed.

Lemma finish_edits st :
  finish st = edits st ++ finish (mkState (cursor st) (edit st) []).
Proof.
  unfold finish; simpl. destruct (edit st); simpl; now rewrite ?app_nil_r.
Qed.

Lemma loop_emit ds : forall st,
  (st' <- loop st ds ;; Ok (finish st')) =
  (es <- emit (cursor st) (edit st) ds ;; Ok (edits st ++ es)).
Proof.
  induction ds as [|d ds IH]; intro st; simpl.
  - now rewrite finish_edits.
  - rewrite step_edits.
    destruct (step (mkState (cursor st) (edit st) []) d) as [st1|err]; simpl; [|reflexivity].
    unfold bind in IH |- *. rewrite IH; simpl.
    destruct (emit (cursor st1) (edit st1) ds); simpl; [|reflexivity].
    now rewrite app_assoc.
Qed.

Lemma synthesizeFrom_emit p ds : synthesizeFrom p ds = emit p None ds.
Proof.
  unfold synthesizeFrom. rewrite loop_emit; simpl.
  destruct (emit p None ds); reflexivity.
Qed.

Lemma getTextEditsInternal_from EOL before ds startLine :
  getTextEditsInternal EOL before ds startLine =
  synthesizeFrom (cursor (initialState EOL before startLine)) ds.
Proof. reflexivity. Qed.

Lemma loop_app ds1 : forall st ds2,
  loop st (ds1 ++ ds2) = (st1 <- loop st ds1 ;; loop st1 ds2).
Proof.
  induction ds1 as [|d ds1 IH]; intros st ds2; simpl; [reflexivity|].
  destruct (step st d); simpl; [apply IH | reflexivity].
Qed.

(** ** When the synthesizer throws *)

Lemma step_throw st d err :
  step st d = Throw err ->
  err = InternalError /\ isDelete d = true /\ notDelete (edit st) = true.
Proof.
  destruct st as [p pend es], d as [op t]. unfold step; simpl.
  destruct op, pend as [[[] s0 en tx]|]; simpl;
    intro H; try discriminate H; inversion H; auto.
Qed.

Lemma step_delete_throws st t :
  step st (DIFF_DELETE, t) = Throw InternalError <-> notDelete (edit st) = true.
Proof.
  destruct st as [p pend es]. unfold step; simpl.
  destruct pend as [[[] s0 en tx]|]; simpl;
    split; intro H; try discriminate H; reflexivity.
Qed.

Lemma step_notDelete st d st' :
  step st d = Ok st' -> notDelete (edit st') = isInsert d.
Proof.
  destruct st as [p pend es], d as [op t]. unfold step; simpl.
  destruct op, pend as [[[] s0 en tx]|]; simpl;
    intro H; inversion H; reflexivity.
Qed.

Lemma loop_ok_iff ds : forall st,
  isOk (loop st ds) = negb (deleteAfter (notDelete (edit st)) ds).
Proof.
  induction ds as [|[op t] ds IH]; intro st; [reflexivity|].
  simpl loop. destruct (step st (op, t)) as [st1|err] eqn:Hs; simpl bind.
  - rewrite IH, (step_notDelete _ _ _ Hs).
    destruct op; simpl; try reflexivity.
    destruct (notDelete (edit st)) eqn:Hn; [|reflexivity].
    apply (step_delete_throws st t) in Hn. congruence.
  - apply step_throw in Hs. destruct Hs as (_ & Hd & Hn).
    destruct op; try discriminate Hd. simpl. now rewrite Hn.
Qed.

Lemma loop_throw ds : forall st err, loop st ds = Throw err -> err = InternalError.
Proof.
  induction ds as [|d ds IH]; intros st err; simpl; [discriminate|].
  destruct (step st d) as [st1|e1] eqn:Hs; simpl.
  - apply IH.
  - intro H; inversion H; subst. now apply step_throw in Hs.
Qed.

Lemma DeleteAfterInsert_cons d ds : DeleteAfterInsert ds -> DeleteAfterInsert (d :: ds).
Proof.
  intros (pre & t1 & t2 & post & ->). now exists (d :: pre), t1, t2, post.
Qed.

Lemma deleteAfter_spec ds : forall b,
  deleteAfter b ds = true <->
  (b = true /\ exists t post, ds = (DIFF_DELETE, t) :: post) \/ DeleteAfterInsert ds.
Proof.
  induction ds as [|[op t] ds IH]; intro b.
  - simpl. split; [discriminate|].
    intros [(_ & t & post & H) | (pre & t1 & t2 & post & H)];
      [discriminate | destruct pre; discriminate].
  - split.
    + destruct op; simpl; intro H.
      * apply orb_true_iff in H. destruct H as [-> | H]; [left; eauto|].
        apply IH in H. destruct H as [(H & _) | H]; [discriminate|].
        right. now apply DeleteAfterInsert_cons.
      * apply IH in H. destruct H as [(_ & t' & post & ->) | H].
        -- right. now exists [], t, t', post.
        -- right. now apply DeleteAfterInsert_cons.
      * apply IH in H. destruct H as [(H & _) | H]; [discriminate|].
        right. now apply DeleteAfterInsert_cons.
    + intros [(-> & t' & post & H) | (pre & t1 & t2 & post & H)].
      * inversion H; subst. reflexivity.
      * destruct pre as [|x pre]; simpl in H; inversion H; subst.
        -- reflexivity.
        -- assert (Hd : forall b', deleteAfter b' (pre ++ (DIFF_INSERT, t1) :: (DIFF_DELETE, t2) :: post) = true).
           { intro b'. apply IH. right. now exists pre, t1, t2, post. }
           destruct op; simpl; rewrite Hd; auto using orb_true_r.
Qed.

Lemma synthesizeFrom_ok_iff p ds :
  (exists es, synthesizeFrom p ds = Ok es) <-> ~ DeleteAfterInsert ds.
Proof.
  unfold synthesizeFrom.
  pose proof (loop_ok_iff ds (mkState p None [])) as H. simpl in H.
  pose proof (deleteAfter_spec ds false) as Hd.
  destruct (loop (mkState p None []) ds) as [st|err]; simpl in *.
  - split; [|eauto]. intros _ Hx.
    assert (deleteAfter false ds = true) by (apply Hd; now right).
    destruct (deleteAfter false ds); discriminate.
  - split; [intros (es & Hes); discriminate|].
    intro Hn. exfalso. apply Hn.
    destruct (deleteAfter false ds); [|discriminate].
    destruct Hd as [Hd _]. destruct (Hd eq_refl) as [(Hf & _)|]; [discriminate | assumption].
Qed.

Lemma synthesizeFrom_throw_iff p ds :
  synthesizeFrom p ds = Throw InternalError <-> DeleteAfterInsert ds.
Proof.
  pose proof (synthesizeFrom_ok_iff p ds) as H.
  unfold synthesizeFrom in *.
  destruct (loop (mkState p None []) ds) as [st|err] eqn:Hl; simpl in *.
  - split; [discriminate|]. intro Hd. exfalso. apply H; eauto.
  - apply loop_throw in Hl. subst. split; [|reflexivity]. intros _.
    destruct (deleteAfter false ds) eqn:Hb.
    + apply deleteAfter_spec in Hb. destruct Hb as [(Hf & _)|]; [discriminate | assumption].
    + exfalso. pose proof (loop_ok_iff ds (mkState p None [])) as Hk.
      simpl in Hk. rewrite Hb in Hk.
      destruct (loop (mkState p None []) ds); [|discriminate].
      destruct H as [_ H].
      assert (Hn : ~ DeleteAfterInsert ds).
      { intro Hx. assert (deleteAfter false ds = true) by (apply deleteAfter_spec; now right). congruence. }
      destruct (H Hn) as (es & Hes). discriminate.
Qed.

Lemma DeleteFollowsInsert_iff ds : DeleteFollowsInsert ds <-> DeleteAfterInsert ds.
Proof.
  split.
  - intros (pre & t1 & mid & t2 & post & -> & Hmid).
    revert pre t1 Hmid.
    induction mid as [|[op t] mid IH]; intros pre t1 Hmid.
    + now exists pre, t1, t2, post.
    + inversion Hmid as [|? ? Hop Hrest]; subst. simpl in Hop.
      destruct op; [| |congruence].
      * now exists pre, t1, t, (mid ++ (DIFF_DELETE, t2) :: post).
      * specialize (IH (pre ++ [(DIFF_INSERT, t1)]) t Hrest).
        rewrite <- app_assoc in IH. exact IH.
  - intros (pre & t1 & t2 & post & ->).
    exists pre, t1, [], t2, post. split; [reflexivity | constructor].
Qed.

(** C9.  The synthesizer throws at a Delete primitive exactly when the edit
    in progress is an Insert or a Replace; a whole run throws, with no edit
    list, exactly when some Delete primitive comes after an Insert primitive
    with no Equal primitive between the two, and it returns an edit list for
    every other ordering of the primitives. *)
Theorem delete_after_insert_is_the_only_failure
  (EOL before : str) (ds : list Diff) (startLine : Z) :
  (forall st t,
      step st (DIFF_DELETE, t) = Throw InternalError <-> notDelete (edit st) = true) /\
  (getTextEditsInternal EOL before ds startLine = Throw InternalError
     <-> DeleteFollowsInsert ds) /\
  ((exists es, getTextEditsInternal EOL before ds startLine = Ok es)
     <-> ~ DeleteFollowsInsert ds).
Proof.
  split; [exact step_delete_throws|].
  rewrite getTextEditsInternal_from, DeleteFollowsInsert_iff.
  split; [apply synthesizeFrom_throw_iff | apply synthesizeFrom_ok_iff].
Qed.

(** ** Order of the edits *)

Lemma chain_hi lo es : forall hi hi' ,
  chain lo es hi -> ple hi hi' -> chain lo es hi'.
Proof.
  revert lo. induction es as [|e es IH]; simpl; intros lo hi hi' H Hle.
  - eapply ple_trans; eauto.
  - destruct H as (H1 & H2 & H3). eauto.
Qed.

Lemma chain_snoc es : forall lo e hi,
  chain lo (es ++ [e]) hi <->
  chain lo es (start e) /\ ple (start e) (spanEnd e) /\ ple (spanEnd e) hi.
Proof.
  induction es as [|x es IH]; simpl; intros lo e hi.
  - tauto.
  - rewrite IH. tauto.
Qed.

Lemma chain_finish lo st :
  chain lo (finish st) (cursor st) <->
  match edit st with
  | Some e =>
      chain lo (edits st) (start e) /\ ple (start e) (spanEnd e) /\
      ple (spanEnd e) (cursor st)
  | None => chain lo (edits st) (cursor st)
  end.
Proof.
  unfold finish. destruct (edit st); [apply chain_snoc | tauto].
Qed.

Lemma step_chain lo st d st' :
  step st d = Ok st' ->
  chain lo (finish st) (cursor st) -> chain lo (finish st') (cursor st').
Proof.
  intros Hs. rewrite !chain_finish.
  destruct st as [p pend es], d as [op t]. unfold step in Hs; simpl in *.
  pose proof (advance_ple t p) as Hadv.
  destruct op, pend as [[[] s0 en tx]|]; simpl in Hs; inversion Hs; subst; clear Hs;
    unfold spanEnd; simpl; intros H;
    repeat match goal with
           | H : _ /\ _ |- _ => destruct H
           | |- _ /\ _ => split
           end;
    eauto using ple_refl, ple_trans, chain_hi;
    try (apply chain_snoc; unfold spanEnd; simpl; eauto using ple_refl, ple_trans).
Qed.

Lemma loop_chain lo ds : forall st st',
  loop st ds = Ok st' ->
  chain lo (finish st) (cursor st) -> chain lo (finish st') (cursor st').
Proof.
  induction ds as [|d ds IH]; simpl; intros st st' H Hc.
  - inversion H; subst. assumption.
  - destruct (step st d) as [st1|] eqn:Hs; simpl in H; [|discriminate].
    eapply IH; eauto using step_chain.
Qed.

Lemma chain_lo lo es hi :
  chain lo es hi -> forall e, In e es -> ple lo (start e).
Proof.
  revert lo. induction es as [|x es IH]; simpl; intros lo H e Hin; [contradiction|].
  destruct H as (H1 & H2 & H3). destruct Hin as [<- | Hin].
  - assumption.
  - eapply ple_trans; [eassumption|]. eapply ple_trans; [eassumption|]. eauto.
Qed.

Lemma chain_span lo es hi :
  chain lo es hi -> forall e, In e es -> ple (start e) (spanEnd e).
Proof.
  revert lo. induction es as [|x es IH]; simpl; intros lo H e Hin; [contradiction|].
  destruct H as (H1 & H2 & H3). destruct Hin as [<- | Hin]; eauto.
Qed.

Lemma chain_pairs es : forall lo hi i j e1 e2,
  chain lo es hi -> (i < j)%nat ->
  nth_error es i = Some e1 -> nth_error es j = Some e2 ->
  ple (spanEnd e1) (start e2).
Proof.
  induction es as [|x es IH]; intros lo hi i j e1 e2 Hc Hij Hi Hj.
  - destruct i; discriminate.
  - destruct Hc as (H1 & H2 & H3).
    destruct j as [|j]; [lia|]. simpl in Hj.
    destruct i as [|i]; simpl in Hi.
    + inversion Hi; subst. eapply chain_lo; eauto using nth_error_In.
    + apply (IH (spanEnd x) hi i j e1 e2); auto. lia.
Qed.

(** C2.  Whatever the synthesizer returns is in document order: every edit
    ends at or after its start, and of two edits the earlier one ends at or
    before the start of the later one, so the starts never decrease and no
    two spans overlap. *)
Theorem edits_ordered_and_disjoint
  (EOL before : str) (ds : list Diff) (startLine : Z) (es : list Edit) :
  getTextEditsInternal EOL before ds startLine = Ok es ->
  (forall e, In e es -> ple (start e) (spanEnd e)) /\
  (forall i j e1 e2,
      (i < j)%nat -> nth_error es i = Some e1 -> nth_error es j = Some e2 ->
      ple (start e1) (start e2) /\ ple (spanEnd e1) (start e2)).
Proof.
  unfold getTextEditsInternal. intro H.
  destruct (loop (initialState EOL before startLine) ds) as [st|] eqn:Hl;
    simpl in H; [|discriminate].
  inversion H; subst; clear H.
  set (lo := cursor (initialState EOL before startLine)).
  assert (Hc : chain lo (finish st) (cursor st)).
  { eapply loop_chain; [exact Hl|]. simpl. apply ple_refl. }
  split.
  - eapply chain_span; eauto.
  - intros i j e1 e2 Hij Hi Hj.
    assert (Hd : ple (spanEnd e1) (start e2)) by (eapply chain_pairs; eauto).
    split; [|assumption].
    eapply ple_trans; [|exact Hd]. eapply chain_span; eauto using nth_error_In.
Qed.

Lemma edits_ordered_and_disjoint_witness :
  ple (mkPosition 0 0) (mkPosition 2 0) /\ ple (mkPosition 1 0) (mkPosition 2 0).
Proof.
  exact (proj2
    (edits_ordered_and_disjoint [LF] (ln "a" ++ ln "b")
       [(DIFF_DELETE, ln "a"); (DIFF_INSERT, ln "x"); (DIFF_EQUAL, ln "b");
        (DIFF_INSERT, ln "y")] 0
       [mkEdit Replace (mkPosition 0 0) (Some (mkPosition 1 0)) (ln "x");
        mkEdit Insert (mkPosition 2 0) None (ln "y")]
       eq_refl)
    0%nat 1%nat
    (mkEdit Replace (mkPosition 0 0) (Some (mkPosition 1 0)) (ln "x"))
    (mkEdit Insert (mkPosition 2 0) None (ln "y"))
    (le_n 1) eq_refl eq_refl).
Defined.

(** ** The cursor and the Insert primitives *)

Lemma consumed_cons d ds :
  consumed (d :: ds) = (if isInsert d then [] else snd d) ++ consumed ds.
Proof.
  unfold consumed, payloads. simpl. destruct (isInsert d); reflexivity.
Qed.

Lemma produced_cons d ds :
  produced (d :: ds) = (if isDelete d then [] else snd d) ++ produced ds.
Proof.
  unfold produced, payloads. simpl. destruct (isDelete d); reflexivity.
Qed.

Lemma step_cursor st d st' :
  step st d = Ok st' ->
  cursor st' = advance (cursor st) (if isInsert d then [] else snd d).
Proof.
  destruct st as [p pend es], d as [op t]. unfold step; simpl.
  destruct op, pend as [[[] s0 en tx]|]; simpl;
    intro H; inversion H; reflexivity.
Qed.

Lemma loop_cursor ds : forall st st',
  loop st ds = Ok st' -> cursor st' = advance (cursor st) (consumed ds).
Proof.
  induction ds as [|d ds IH]; intros st st' H; simpl in H.
  - inversion H; reflexivity.
  - destruct (step st d) as [st1|] eqn:Hs; simpl in H; [|discriminate].
    pose proof (step_cursor _ _ _ Hs) as Hc.
    rewrite consumed_cons, advance_app, (IH _ _ H). f_equal. exact Hc.
Qed.

Lemma startsFrom_nth ds : forall st i p,
  nth_error (startsFrom st ds) i = Some p ->
  p = advance (cursor st) (consumed (firstn i ds)).
Proof.
  induction ds as [|d ds IH]; intros st i p H.
  - destruct i; discriminate.
  - destruct i as [|i]; simpl in H.
    + inversion H; reflexivity.
    + destruct (step st d) as [st1|] eqn:Hs; [|destruct i; discriminate].
      pose proof (step_cursor _ _ _ Hs) as Hc.
      simpl firstn. rewrite consumed_cons, advance_app, (IH _ _ _ H).
      f_equal. exact Hc.
Qed.

(** C4.  An Insert primitive never throws and leaves the cursor where it
    was; the position at which any primitive is placed is the walk over the
    payloads of the Equal and Delete primitives before it, the Insert
    payloads left out.  For the document of the lines "a" and "b" and the
    primitives Equal "a", Insert "x", Equal "b", each with its line
    terminator, Equal "b" is placed at line 1. *)
Theorem insert_keeps_the_cursor :
  (forall st t,
      exists st', step st (DIFF_INSERT, t) = Ok st' /\ cursor st' = cursor st) /\
  (forall EOL before ds startLine i p,
      nth_error (primitiveStarts EOL before ds startLine) i = Some p ->
      p = advance (cursor (initialState EOL before startLine))
                  (consumed (firstn i ds))) /\
  (forall EOL, EOL = [LF] \/ EOL = [CR; LF] ->
      primitiveStarts EOL (lit "a" ++ [LF] ++ lit "b" ++ [LF])
        (map (addLineFeed EOL)
             [(DIFF_EQUAL, lit "a"); (DIFF_INSERT, lit "x"); (DIFF_EQUAL, lit "b")]) 0
      = [mkPosition 0 0; mkPosition 1 0; mkPosition 1 0]).
Proof.
  split; [|split].
  - intros [p pend es] t. unfold step; simpl. eexists; split; reflexivity.
  - intros EOL before ds startLine i p H. now apply startsFrom_nth in H.
  - intros EOL [-> | ->]; reflexivity.
Qed.

(** ** The initial cursor *)

Lemma filterIndexFrom_firstn {A} (z : Z) (l : list A) : forall k,
  filterIndexFrom (fun i => Z.of_nat i <? z) k l = firstn (Z.to_nat z - k) l.
Proof.
  induction l as [|x l IH]; intro k; simpl.
  - now rewrite firstn_nil.
  - rewrite IH. destruct (Z.ltb_spec (Z.of_nat k) z) as [Hlt | Hge].
    + replace (Z.to_nat z - k)%nat with (S (Z.to_nat z - S k)) by lia. reflexivity.
    + replace (Z.to_nat z - k)%nat with O by lia.
      replace (Z.to_nat z - S k)%nat with O by lia. reflexivity.
Qed.

Lemma fold_left_sum {A} (f : A -> Z) (l : list A) : forall a,
  fold_left (fun c x => c + f x) l a = a + sumZ (map f l).
Proof.
  induction l as [|x l IH]; intro a; simpl; [lia|]. rewrite IH. lia.
Qed.

Lemma initialCharacter_sum (EOL before : str) (startLine : Z) :
  initialCharacter EOL before startLine =
  if 0 <? startLine
  then sumZ (map (fun l => len l + len EOL)
                 (firstn (Z.to_nat startLine) (splitLines before)))
  else 0.
Proof.
  unfold initialCharacter, filterIndex, NEW_LINE_LENGTH.
  destruct (0 <? startLine); [|reflexivity].
  cbv zeta. rewrite filterIndexFrom_firstn, fold_left_sum, Nat.sub_0_r. reflexivity.
Qed.

Lemma splitLines_last (rest : str) : ~ In LF rest -> splitLines rest = [rest].
Proof.
  induction rest as [|c rest IH]; [reflexivity|]. intros H.
  assert (Hc : Ascii.eqb c LF = false).
  { apply Ascii.eqb_neq. intros ->. apply H. now left. }
  assert (Hr : ~ In LF rest) by (intros Hi; apply H; now right).
  cbn [splitLines]. rewrite Hc, (IH Hr).
  destruct rest as [|d rest']; [reflexivity|].
  assert (Hd : Ascii.eqb d LF = false).
  { apply Ascii.eqb_neq. intros ->. apply Hr. now left. }
  now rewrite Hd, andb_false_r.
Qed.

Lemma splitLines_line (l t rest : str) :
  terminatedLine (l, t) -> splitLines (l ++ t ++ rest) = l :: splitLines rest.
Proof.
  unfold terminatedLine. cbn [fst snd].
  induction l as [|c l IH]; intros (Hn & Ht).
  - destruct Ht as [-> | (-> & _)]; reflexivity.
  - assert (Hc : Ascii.eqb c LF = false).
    { apply Ascii.eqb_neq. intros ->. apply Hn. now left. }
    assert (Hl : ~ In LF l) by (intros Hi; apply Hn; now right).
    assert (Ht' : t = [CR; LF] \/ t = [LF] /\ (forall l0, l <> l0 ++ [CR])).
    { destruct Ht as [Ht | (Ht & He)]; [now left | right].
      split; [exact Ht|]. intros l0 ->. now apply (He (c :: l0)). }
    change ((c :: l) ++ t ++ rest) with (c :: (l ++ t ++ rest)).
    cbn [splitLines]. rewrite Hc, (IH (conj Hl Ht')).
    destruct (l ++ t ++ rest) as [|d rest'] eqn:E; [reflexivity|].
    destruct (Ascii.eqb c CR && Ascii.eqb d LF) eqn:Hcd; [|reflexivity].
    exfalso. apply andb_true_iff in Hcd. destruct Hcd as (Hcr & Hdl).
    apply Ascii.eqb_eq in Hcr, Hdl. subst c d.
    destruct l as [|x l].
    + destruct Ht as [-> | (_ & He)]; [discriminate E|]. now apply (He []).
    + injection E as -> _. apply Hl. now left.
Qed.

Lemma splitLines_lines (lines : list (str * str)) (rest : str) :
  Forall terminatedLine lines ->
  splitLines (linesText lines ++ rest) = map fst lines ++ splitLines rest.
Proof.
  induction 1 as [|[l t] lines Hl _ IH]; [reflexivity|].
  cbn [linesText flat_map map fst snd app]. rewrite <- !app_assoc.
  fold (linesText lines). now rewrite (splitLines_line l t _ Hl), IH.
Qed.

Lemma sumZ_app (a b : list Z) : sumZ (a ++ b) = sumZ a + sumZ b.
Proof. induction a as [|x a IH]; simpl; [reflexivity|]. rewrite IH. lia. Qed.

Lemma lengthWith_text (eol : str) (lines : list (str * str)) :
  Forall (fun lt => snd lt = eol) lines ->
  lengthWith (List.length eol) (map fst lines) = Z.of_nat (List.length (linesText lines)).
Proof.
  unfold lengthWith. induction 1 as [|[l t] lines Ht _ IH]; [reflexivity|].
  cbn [map fst snd linesText flat_map sumZ fold_right] in *.
  fold (linesText lines). unfold sumZ in IH. rewrite IH, !length_app, Ht. lia.
Qed.

(** C6.  The cursor starts on line [startLine].  For a document that opens
    with the lines [lines], each followed by LF or CR LF, and goes on with
    [rest]: when [startLine] is the number of these lines and greater than
    0, the character is the sum over these lines of the length of the line
    plus the length of the platform's line terminator [EOL]; where the
    document's own terminators are [EOL], that is the offset at which line
    [startLine] starts.  When [rest] is the last line and [startLine] is
    greater than the number of lines, every line of the document is counted.
    When [startLine] is 0 (or less) the character is 0, so a patch with
    [start1] 0 starts at (0, 0).  The first primitive is placed at that
    cursor. *)
Theorem initial_cursor (EOL : str) (lines : list (str * str)) (rest : str) :
  Forall terminatedLine lines ->
  (lines <> [] ->
   cursor (initialState EOL (linesText lines ++ rest) (Z.of_nat (List.length lines))) =
     mkPosition (Z.of_nat (List.length lines))
                (lengthWith (List.length EOL) (map fst lines))) /\
  (lines <> [] -> Forall (fun lt => snd lt = EOL) lines ->
   cursor (initialState EOL (linesText lines ++ rest) (Z.of_nat (List.length lines))) =
     mkPosition (Z.of_nat (List.length lines))
                (Z.of_nat (List.length (linesText lines)))) /\
  (forall startLine,
      ~ In LF rest -> Z.of_nat (List.length lines) < startLine ->
      cursor (initialState EOL (linesText lines ++ rest) startLine) =
        mkPosition startLine (lengthWith (List.length EOL) (map fst lines ++ [rest]))) /\
  (forall before startLine,
      startLine <= 0 ->
      cursor (initialState EOL before startLine) = mkPosition startLine 0) /\
  (forall before startLine d ds,
      hd_error (primitiveStarts EOL before (d :: ds) startLine) =
      Some (cursor (initialState EOL before startLine))).
Proof.
  intros Hl.
  assert (H1 : lines <> [] ->
    cursor (initialState EOL (linesText lines ++ rest) (Z.of_nat (List.length lines))) =
      mkPosition (Z.of_nat (List.length lines))
                 (lengthWith (List.length EOL) (map fst lines))).
  { intros Hn. unfold initialState. cbn [cursor]. f_equal.
    rewrite initialCharacter_sum, (splitLines_lines lines rest Hl).
    destruct (Z.ltb_spec 0 (Z.of_nat (List.length lines))) as [_|H0].
    - rewrite Nat2Z.id, <- (length_map fst lines), firstn_app, Nat.sub_diag.
      rewrite firstn_all, firstn_O, app_nil_r. reflexivity.
    - destruct lines; [congruence | simpl in H0; lia]. }
  split; [exact H1|]. split; [|split; [|split]].
  - intros Hn He. rewrite (H1 Hn). f_equal. now apply lengthWith_text.
  - intros startLine Hr Hs. unfold initialState. cbn [cursor]. f_equal.
    rewrite initialCharacter_sum, (splitLines_lines lines rest Hl), (splitLines_last rest Hr).
    destruct (Z.ltb_spec 0 startLine) as [_|H0]; [|lia].
    rewrite firstn_all2; [reflexivity|].
    rewrite length_app, length_map. simpl. lia.
  - intros before startLine Hs. unfold initialState. cbn [cursor]. f_equal.
    rewrite initialCharacter_sum.
    destruct (Z.ltb_spec 0 startLine); [lia | reflexivity].
  - reflexivity.
Qed.

(** A document with CR LF terminators on a platform whose terminator is
    LF: two characters are counted for each of the lines "ab" and "cd" and
    one for each terminator, so line 2 starts at character 6, while its
    offset in the document is 8.  With LF terminators in the document the
    character is the offset, 6. *)
Lemma initial_cursor_witness :
  cursor (initialState [LF] (lit "ab" ++ [CR; LF] ++ lit "cd" ++ [CR; LF] ++ lit "ef") 2) =
    mkPosition 2 6 /\
  cursor (initialState [LF] (lit "ab" ++ [LF] ++ lit "cd" ++ [LF] ++ lit "ef") 2) =
    mkPosition 2 6.
Proof.
  split.
  - refine (proj1 (initial_cursor [LF] [(lit "ab", [CR; LF]); (lit "cd", [CR; LF])]
                     (lit "ef") _) _); [|discriminate].
    repeat apply Forall_cons; try apply Forall_nil;
      (split; [intros [H|[H|[]]]; discriminate H | now left]).
  - refine (proj1 (proj2 (initial_cursor [LF] [(lit "ab", [LF]); (lit "cd", [LF])]
                            (lit "ef") _)) _ _); [|discriminate|].
    + repeat apply Forall_cons; try apply Forall_nil;
        (split; [intros [H|[H|[]]]; discriminate H | right; split; [reflexivity|]]).
      * intros [|x [|y [|z l0]]] H; discriminate H.
      * intros [|x [|y [|z l0]]] H; discriminate H.
    + repeat apply Forall_cons; try apply Forall_nil; reflexivity.
Defined.

(** ** Positions and offsets *)

Lemma advance_walk t : forall l c,
  advance (mkPosition (Z.of_nat l) (Z.of_nat c)) t =
  mkPosition (Z.of_nat (fst (walk l c t))) (Z.of_nat (snd (walk l c t))).
Proof.
  induction t as [|ch t IH]; intros l c; [reflexivity|].
  rewrite advance_cons. unfold advanceChar. simpl.
  destruct (Ascii.eqb ch LF).
  - rewrite <- IH. do 2 f_equal. lia.
  - rewrite <- IH. do 2 f_equal. lia.
Qed.

Lemma posOf_walk t :
  posOf t = mkPosition (Z.of_nat (fst (walk 0 0 t))) (Z.of_nat (snd (walk 0 0 t))).
Proof. apply (advance_walk t O O). Qed.

Lemma walk_shift t : forall l c,
  walk l c t =
  ((l + fst (walk 0 0 t))%nat,
   if Nat.eqb (fst (walk 0 0 t)) 0 then (c + snd (walk 0 0 t))%nat
   else snd (walk 0 0 t)).
Proof.
  induction t as [|ch t IH]; intros l c; simpl.
  - f_equal; lia.
  - destruct (Ascii.eqb ch LF).
    + rewrite (IH (S l) O), (IH 1%nat O).
      simpl. destruct (Nat.eqb (fst (walk 0 0 t)) 0); f_equal; lia.
    + rewrite (IH l (S c)), (IH O 1%nat). simpl.
      destruct (Nat.eqb (fst (walk 0 0 t)) 0) eqn:E; simpl; rewrite ?E; f_equal; lia.
Qed.

Lemma offsetOf_walk t rest :
  offsetOf (t ++ rest) (fst (walk 0 0 t)) (snd (walk 0 0 t)) = List.length t.
Proof.
  induction t as [|ch t IH]; simpl.
  - destruct rest; reflexivity.
  - destruct (Ascii.eqb ch LF) eqn:E.
    + rewrite (walk_shift t 1 0). simpl.
      destruct (Nat.eqb (fst (walk 0 0 t)) 0); simpl; now rewrite IH.
    + rewrite (walk_shift t 0 1). simpl.
      destruct (fst (walk 0 0 t)) as [|k] eqn:Ek; simpl; rewrite ?E.
      * f_equal. rewrite <- IH. reflexivity.
      * f_equal. rewrite <- IH. reflexivity.
Qed.

Lemma offsetAt_posOf t rest : offsetAt (t ++ rest) (posOf t) = List.length t.
Proof.
  unfold offsetAt. rewrite posOf_walk. simpl. rewrite !Nat2Z.id.
  apply offsetOf_walk.
Qed.

Lemma posOf_app a b : advance (posOf a) b = posOf (a ++ b).
Proof. unfold posOf. now rewrite advance_app. Qed.

Lemma advance_reset t : forall l c c',
  In LF t -> advance (mkPosition l c) t = advance (mkPosition l c') t.
Proof.
  induction t as [|ch t IH]; intros l c c' Hin; [contradiction|].
  rewrite !advance_cons. unfold advanceChar; simpl.
  destruct (Ascii.eqb_spec ch LF) as [-> | Hne]; [reflexivity|].
  destruct Hin as [-> | Hin]; [congruence|]. now apply IH.
Qed.

Lemma skipn_length_app {A} (a b : list A) : skipn (List.length a) (a ++ b) = b.
Proof. induction a; simpl; auto. Qed.

Lemma firstn_length_app {A} (a b : list A) : firstn (List.length a) (a ++ b) = a.
Proof. induction a; simpl; congruence. Qed.

(** ** Applying the synthesized edits *)

Lemma apply_pending e S M :
  pendingOK (Some e) S M ->
  exists te, apply e = Ok te /\
             range_start (range te) = posOf S /\
             range_end (range te) = posOf (S ++ M) /\
             newText te = pendingText (Some e) M.
Proof.
  destruct e as [[] s en tx]; unfold apply; simpl.
  - intros (-> & -> & ->). eexists; repeat split.
  - intros (-> & ->). rewrite app_nil_r. eexists; repeat split.
  - intros (-> & ->). eexists; repeat split.
Qed.

Lemma applyFrom_head doc L G M R te tes r :
  doc = L ++ G ++ M ++ R ->
  range_start (range te) = posOf (L ++ G) ->
  range_end (range te) = posOf ((L ++ G) ++ M) ->
  applyFrom doc (List.length ((L ++ G) ++ M)) tes = Some r ->
  applyFrom doc (List.length L) (te :: tes) = Some (G ++ newText te ++ r).
Proof.
  intros Hdoc Hs He Hr.
  assert (O1 : offsetAt doc (posOf (L ++ G)) = List.length (L ++ G)).
  { subst doc. replace (L ++ G ++ M ++ R) with ((L ++ G) ++ (M ++ R))
      by now rewrite <- app_assoc.
    apply offsetAt_posOf. }
  assert (O2 : offsetAt doc (posOf ((L ++ G) ++ M)) = List.length ((L ++ G) ++ M)).
  { subst doc. replace (L ++ G ++ M ++ R) with (((L ++ G) ++ M) ++ R)
      by now rewrite <- !app_assoc.
    apply offsetAt_posOf. }
  simpl. rewrite Hs, He, O1, O2, Hr.
  assert (Hlt : Nat.ltb (List.length (L ++ G)) (List.length L) = false).
  { apply Nat.ltb_ge. rewrite length_app. lia. }
  rewrite Hlt. do 2 f_equal.
  rewrite length_app.
  replace (List.length L + List.length G - List.length L)%nat with (List.length G) by lia.
  subst doc. now rewrite skipn_length_app, firstn_length_app.
Qed.

Lemma emit_apply post doc : forall ds L G M pending es,
  doc = L ++ G ++ M ++ consumed ds ++ post ->
  pendingOK pending (L ++ G) M ->
  emit (posOf ((L ++ G) ++ M)) pending ds = Ok es ->
  exists tes,
    applyAll es = Ok tes /\
    applyFrom doc (List.length L) tes =
      Some (G ++ pendingText pending M ++ produced ds ++ post).
Proof.
  induction ds as [|[op t] ds IH]; intros L G M pending es Hdoc Hok Hemit.
  - simpl in Hemit. unfold finish in Hemit; simpl in Hemit.
    destruct pending as [e|]; inversion Hemit; subst es; clear Hemit.
    + destruct (apply_pending _ _ _ Hok) as (te & Ha & Hs & He & Ht).
      exists [te]. split; [simpl; now rewrite Ha|].
      rewrite <- Ht.
      replace (newText te ++ produced [] ++ post) with (newText te ++ post) by reflexivity.
      eapply applyFrom_head; eauto.
      simpl. f_equal. rewrite Hdoc.
      replace (L ++ G ++ M ++ consumed [] ++ post) with (((L ++ G) ++ M) ++ post)
        by (now rewrite <- !app_assoc).
      apply skipn_length_app.
    + exists []. split; [reflexivity|]. simpl. f_equal.
      rewrite Hdoc. apply skipn_length_app.
  - simpl in Hemit. rewrite consumed_cons in Hdoc. rewrite produced_cons.
    destruct op; cbn [isInsert isDelete Op_eqb fst snd] in *.
    + (* Delete *)
      destruct pending as [[[] s en tx]|]; unfold step in Hemit; simpl in Hemit;
        try discriminate Hemit.
      * rewrite posOf_app, <- (app_assoc (L ++ G) M t) in Hemit.
        destruct (emit _ _ ds) as [es'|] eqn:He; simpl in Hemit; [|discriminate].
        inversion Hemit; subst es; clear Hemit.
        destruct Hok as (Hs & Hen & Htx); simpl in *.
        pose proof (fun H1 H2 => IH L G (M ++ t) _ es' H1 H2 He) as IH'.
        destruct IH' as (tes & Ha & Hr).
        -- rewrite Hdoc. now rewrite <- !app_assoc.
        -- simpl. repeat split; auto.
        -- exists tes. split; auto.
      * rewrite posOf_app in Hemit.
        replace (((L ++ G) ++ M) ++ t) with ((L ++ G ++ M) ++ t) in Hemit
          by now rewrite <- !app_assoc.
        destruct (emit _ _ ds) as [es'|] eqn:He; simpl in Hemit; [|discriminate].
        inversion Hemit; subst es; clear Hemit.
        pose proof (fun H1 H2 => IH L (G ++ M) t _ es' H1 H2 He) as IH'.
        destruct IH' as (tes & Ha & Hr).
        -- rewrite Hdoc. now rewrite <- !app_assoc.
        -- simpl. repeat split; auto; now rewrite <- !app_assoc.
        -- exists tes. split; auto. simpl in Hr |- *. rewrite Hr. f_equal.
           now rewrite <- !app_assoc.
    + (* Insert *)
      unfold step in Hemit; simpl in Hemit.
      destruct pending as [[[] s en tx]|]; simpl in Hemit.
      * destruct (emit _ _ ds) as [es'|] eqn:He; simpl in Hemit; [|discriminate].
        inversion Hemit; subst es; clear Hemit.
        destruct Hok as (Hs & Hen & Htx); simpl in *.
        pose proof (fun H1 H2 => IH L G M _ es' H1 H2 He) as IH'.
        destruct IH' as (tes & Ha & Hr); [assumption | now split |].
        exists tes. split; auto. simpl in Hr |- *. rewrite Hr, Htx. simpl.
        now rewrite <- !app_assoc.
      * destruct (emit _ _ ds) as [es'|] eqn:He; simpl in Hemit; [|discriminate].
        inversion Hemit; subst es; clear Hemit.
        pose proof (fun H1 H2 => IH L G M _ es' H1 H2 He) as IH'.
        destruct IH' as (tes & Ha & Hr); [assumption | exact Hok |].
        exists tes. split; auto. simpl in Hr |- *. rewrite Hr.
        now rewrite <- !app_assoc.
      * destruct (emit _ _ ds) as [es'|] eqn:He; simpl in Hemit; [|discriminate].
        inversion Hemit; subst es; clear Hemit.
        pose proof (fun H1 H2 => IH L G M _ es' H1 H2 He) as IH'.
        destruct IH' as (tes & Ha & Hr); [assumption | exact Hok |].
        exists tes. split; auto. simpl in Hr |- *. rewrite Hr.
        now rewrite <- !app_assoc.
      * replace ((L ++ G) ++ M) with ((L ++ G ++ M) ++ []) in Hemit
          by now rewrite app_nil_r, <- !app_assoc.
        destruct (emit _ _ ds) as [es'|] eqn:He; simpl in Hemit; [|discriminate].
        inversion Hemit; subst es; clear Hemit.
        pose proof (fun H1 H2 => IH L (G ++ M) [] _ es' H1 H2 He) as IH'.
        destruct IH' as (tes & Ha & Hr).
        -- rewrite Hdoc. now rewrite <- !app_assoc.
        -- simpl. split; auto. now rewrite app_nil_r.
        -- exists tes. split; auto. simpl in Hr |- *. rewrite Hr. f_equal.
           now rewrite <- !app_assoc.
    + (* Equal *)
      unfold step in Hemit; simpl in Hemit. rewrite posOf_app in Hemit.
      destruct pending as [e|]; simpl in Hemit.
      * replace (((L ++ G) ++ M) ++ t) with (((((L ++ G) ++ M)) ++ []) ++ t) in Hemit
          by now rewrite app_nil_r.
        destruct (emit _ _ ds) as [es'|] eqn:He; simpl in Hemit; [|discriminate].
        inversion Hemit; subst es; clear Hemit.
        pose proof (fun H1 H2 => IH ((L ++ G) ++ M) [] t _ es' H1 H2 He) as IH'.
        destruct IH' as (tes & Ha & Hr).
        -- rewrite Hdoc. now rewrite <- !app_assoc.
        -- exact I.
        -- destruct (apply_pending _ _ _ Hok) as (te & Hae & Hs & Hen & Ht).
           exists (te :: tes). split; [simpl; now rewrite Hae, Ha|].
           rewrite <- Ht.
           replace (newText te ++ (t ++ produced ds) ++ post)
             with (newText te ++ [] ++ pendingText None t ++ produced ds ++ post)
             by (simpl; now rewrite <- !app_assoc).
           eapply applyFrom_head; eauto.
      * rewrite <- (app_assoc (L ++ G) M t) in Hemit.
        destruct (emit _ _ ds) as [es'|] eqn:He; simpl in Hemit; [|discriminate].
        inversion Hemit; subst es; clear Hemit.
        pose proof (fun H1 H2 => IH L G (M ++ t) _ es' H1 H2 He) as IH'.
        destruct IH' as (tes & Ha & Hr).
        -- rewrite Hdoc. now rewrite <- !app_assoc.
        -- exact I.
        -- exists tes. split; auto. simpl in Hr |- *. rewrite Hr.
           now rewrite <- !app_assoc.
Qed.

Lemma deleteAfter_false ds : deleteAfter false ds = false -> ~ DeleteAfterInsert ds.
Proof.
  intros H Hd.
  assert (deleteAfter false ds = true) by (apply deleteAfter_spec; now right).
  congruence.
Qed.

(** C1 (amended).  For a hunk that fits the document and that starts at
    line 0 or opens with a line of context, the synthesizer returns edits,
    every one of them materializes, and applying them to the original
    document yields the text before the hunk, then the payloads of the Equal
    and Insert primitives in order, then the text after the hunk. *)
Theorem roundtrip_within_document
  (EOL before : str) (ds : list Diff) (startLine : Z) (pre post : str) :
  wellFormedHunk before ds startLine pre post ->
  startLine = 0 \/ opensWithContext ds ->
  exists es tes,
    getTextEditsInternal EOL before ds startLine = Ok es /\
    applyAll es = Ok tes /\
    applyEdits before tes = Some (pre ++ produced ds ++ post).
Proof.
  intros (Hdoc & Hpre & Hwf) Hstart.
  destruct (proj2 (synthesizeFrom_ok_iff (cursor (initialState EOL before startLine)) ds) Hwf)
    as (es & Hes).
  exists es. rewrite getTextEditsInternal_from, Hes.
  rewrite synthesizeFrom_emit in Hes.
  destruct Hstart as [-> | (t & ds' & -> & Hin)].
  - change (cursor (initialState EOL before 0)) with (mkPosition 0 0) in Hes.
    rewrite <- Hpre in Hes.
    destruct (emit_apply post before ds [] [] pre None es Hdoc I Hes) as (tes & Ha & Hr).
    exists tes. auto.
  - simpl in Hes. unfold step in Hes; simpl in Hes.
    rewrite (advance_reset t startLine _ 0 Hin), <- Hpre, posOf_app in Hes.
    destruct (emit (posOf (pre ++ t)) None ds') as [es'|] eqn:He; simpl in Hes;
      [|discriminate].
    inversion Hes; subst es'; clear Hes.
    rewrite consumed_cons in Hdoc. cbn [isInsert Op_eqb fst snd] in Hdoc.
    destruct (emit_apply post before ds' [] [] (pre ++ t) None es) as (tes & Ha & Hr).
    + rewrite Hdoc. simpl. now rewrite <- !app_assoc.
    + exact I.
    + exact He.
    + exists tes. repeat split; auto. unfold applyEdits. simpl in Hr. rewrite Hr.
      rewrite produced_cons. cbn [isDelete Op_eqb fst snd]. now rewrite <- !app_assoc.
Qed.

Lemma roundtrip_within_document_witness :
  (exists es tes,
      getTextEditsInternal [LF] fiveLines firstLineHunk 0 = Ok es /\
      applyAll es = Ok tes /\
      applyEdits fiveLines tes =
        Some ([] ++ produced firstLineHunk ++ ln "e")) /\
  (exists es tes,
      getTextEditsInternal [LF] fiveLines thirdLineHunk 1 = Ok es /\
      applyAll es = Ok tes /\
      applyEdits fiveLines tes =
        Some (ln "a" ++ produced thirdLineHunk ++ ln "e")).
Proof.
  split.
  - apply (roundtrip_within_document [LF] fiveLines firstLineHunk 0 [] (ln "e")).
    + split; [reflexivity|]. split; [reflexivity|].
      apply deleteAfter_false. reflexivity.
    + left. reflexivity.
  - apply (roundtrip_within_document [LF] fiveLines thirdLineHunk 1 (ln "a") (ln "e")).
    + split; [reflexivity|]. split; [reflexivity|].
      apply deleteAfter_false. reflexivity.
    + right. exists (ln "b"), (tl thirdLineHunk). split; [reflexivity|].
      simpl. auto.
Defined.

(** C1 as worded fails: the edits computed for [firstLineHunk] leave the
    fifth line of the document in place, and the text of the hunk's Equal and
    Insert primitives stops at the fourth. *)
Lemma roundtrip_to_hunk_text_fails : ~ roundtrip_to_hunk_text.
Proof.
  intro H.
  destruct (H [LF] fiveLines firstLineHunk 0 [] (ln "e")) as (es & tes & H1 & H2 & H3).
  - split; [reflexivity|]. split; [reflexivity|].
    apply deleteAfter_false. reflexivity.
  - unfold terminated, firstLineHunk.
    repeat constructor; simpl; eexists; unfold ln; reflexivity.
  - vm_compute in H1. inversion H1; subst es; clear H1.
    vm_compute in H2. inversion H2; subst tes; clear H2.
    vm_compute in H3. discriminate H3.
Qed.

(** A hunk that starts after line 0 with a Delete primitive: the edit
    starts at the character the initial cursor holds, past the end of its
    line, and the second line is not replaced. *)
Example roundtrip_without_context :
  getTextEditsInternal [LF] (ln "ab" ++ ln "cd")
    [(DIFF_DELETE, ln "cd"); (DIFF_INSERT, ln "x")] 1 =
    Ok [mkEdit Replace (mkPosition 1 3) (Some (mkPosition 2 0)) (ln "x")] /\
  applyEdits (ln "ab" ++ ln "cd")
    [mkTextEdit (mkRange (mkPosition 1 3) (mkPosition 2 0)) (ln "x")] =
    Some (ln "ab" ++ lit "cd" ++ ln "x").
Proof. split; reflexivity. Qed.

(** ** Runs of Delete and Insert primitives *)

Lemma payloads_cons op t ds : payloads ((op, t) :: ds) = t ++ payloads ds.
Proof. reflexivity. Qed.

Lemma loop_deletes dels : forall p s tx es0,
  allOp DIFF_DELETE dels ->
  loop (mkState p (Some (mkEdit Delete s (Some p) tx)) es0) dels =
  Ok (mkState (advance p (payloads dels))
              (Some (mkEdit Delete s (Some (advance p (payloads dels))) tx)) es0).
Proof.
  induction dels as [|[op t] dels IH]; intros p s tx es0 Hall; [reflexivity|].
  inversion Hall as [|? ? Hop Hrest]; subst. simpl in Hop; subst op.
  simpl loop. unfold step, setEnd, setAction, appendText, newEdit; simpl.
  rewrite IH by assumption. rewrite payloads_cons, advance_app. reflexivity.
Qed.

Lemma loop_inserts inss : forall p e es0,
  allOp DIFF_INSERT inss ->
  action e <> Delete ->
  loop (mkState p (Some e) es0) inss =
  Ok (mkState p (Some (appendText e (payloads inss))) es0).
Proof.
  induction inss as [|[op t] inss IH]; intros p e es0 Hall Hact.
  - simpl. destruct e as [a s en tx]. unfold appendText; simpl.
    now rewrite app_nil_r.
  - inversion Hall as [|? ? Hop Hrest]; subst. simpl in Hop; subst op.
    simpl loop. unfold step, setEnd, setAction, appendText, newEdit; simpl.
    destruct e as [[] s en tx]; simpl in *; try congruence;
      rewrite IH by (auto; simpl; congruence);
      unfold appendText; simpl; now rewrite payloads_cons, app_assoc.
Qed.

Lemma loop_deletes_start dels s es0 :
  allOp DIFF_DELETE dels -> dels <> [] ->
  loop (mkState s None es0) dels =
  Ok (mkState (advance s (payloads dels))
              (Some (mkEdit Delete s (Some (advance s (payloads dels))) [])) es0).
Proof.
  intros Hd Hne. destruct dels as [|[op t] dels]; [congruence|].
  inversion Hd as [|? ? Hop Hrest]; subst. simpl in Hop; subst op.
  simpl loop. unfold step, setEnd, newEdit; simpl.
  rewrite loop_deletes by assumption.
  rewrite payloads_cons, advance_app. reflexivity.
Qed.

Lemma loop_inserts_start inss p es0 :
  allOp DIFF_INSERT inss -> inss <> [] ->
  loop (mkState p None es0) inss =
  Ok (mkState p (Some (mkEdit Insert p None (payloads inss))) es0).
Proof.
  intros Hi Hne. destruct inss as [|[op t] inss]; [congruence|].
  inversion Hi as [|? ? Hop Hrest]; subst. simpl in Hop; subst op.
  simpl loop. unfold step, appendText, newEdit; simpl.
  rewrite loop_inserts by (auto; simpl; congruence). reflexivity.
Qed.

Lemma loop_inserts_replace inss p s en es0 :
  allOp DIFF_INSERT inss -> inss <> [] ->
  loop (mkState p (Some (mkEdit Delete s en [])) es0) inss =
  Ok (mkState p (Some (mkEdit Replace s en (payloads inss))) es0).
Proof.
  intros Hi Hne. destruct inss as [|[op t] inss]; [congruence|].
  inversion Hi as [|? ? Hop Hrest]; subst. simpl in Hop; subst op.
  simpl loop. unfold step, appendText, setAction; simpl.
  rewrite loop_inserts by (auto; simpl; congruence). reflexivity.
Qed.

Lemma loop_run dels inss s es0 :
  allOp DIFF_DELETE dels -> allOp DIFF_INSERT inss -> inss <> [] ->
  loop (mkState s None es0) (dels ++ inss) =
  Ok (mkState (advance s (payloads dels)) (Some (runEdit s dels inss)) es0).
Proof.
  intros Hd Hi Hne. rewrite loop_app.
  destruct dels as [|d dels].
  - simpl loop at 1. simpl bind. now rewrite loop_inserts_start.
  - rewrite loop_deletes_start by (auto; congruence). simpl bind.
    now rewrite loop_inserts_replace.
Qed.

Lemma loop_endsWithEqual pre st st1 :
  endsWithEqual pre -> edit st = None ->
  loop st pre = Ok st1 -> edit st1 = None.
Proof.
  intros [-> | (pre' & t & ->)] Hn H.
  - inversion H; subst; assumption.
  - rewrite loop_app in H.
    destruct (loop st pre') as [stm|]; simpl in H; [|discriminate].
    destruct stm as [p [e|] es]; unfold step in H; simpl in H;
      inversion H; reflexivity.
Qed.

Lemma emit_pending_equal q g post :
  startsWithEqual post ->
  emit q (Some g) post = (es2 <- emit q None post ;; Ok (g :: es2)).
Proof.
  intros [-> | (t & post' & ->)]; [reflexivity|].
  simpl. unfold step, setEnd, setAction, appendText, newEdit; simpl.
  destruct (emit (advance q t) None post'); reflexivity.
Qed.

Lemma synthesizeFrom_run p pre dels inss post :
  endsWithEqual pre -> startsWithEqual post ->
  allOp DIFF_DELETE dels -> allOp DIFF_INSERT inss -> inss <> [] ->
  synthesizeFrom p (pre ++ dels ++ inss ++ post) =
  (es1 <- synthesizeFrom p pre ;;
   es2 <- synthesizeFrom (advance (advance p (consumed pre)) (payloads dels)) post ;;
   Ok (es1 ++ runEdit (advance p (consumed pre)) dels inss :: es2)).
Proof.
  intros Hpre Hpost Hd Hi Hne.
  unfold synthesizeFrom at 1 2. rewrite loop_app.
  destruct (loop (mkState p None []) pre) as [st1|err] eqn:Hl; [|reflexivity].
  pose proof (loop_endsWithEqual pre (mkState p None []) st1 Hpre eq_refl Hl) as Hnone.
  pose proof (loop_cursor _ _ _ Hl) as Hcur. simpl in Hcur.
  destruct st1 as [s pend es1]. simpl in Hnone, Hcur. subst pend s.
  simpl bind at 1 3.
  rewrite app_assoc, loop_app, loop_run by assumption.
  simpl bind at 2.
  pose proof (loop_emit post
    (mkState (advance (advance p (consumed pre)) (payloads dels))
             (Some (runEdit (advance p (consumed pre)) dels inss)) es1)) as He.
  simpl in He. unfold bind in He |- *. rewrite He.
  rewrite emit_pending_equal by assumption. rewrite synthesizeFrom_emit.
  unfold finish; simpl. unfold bind.
  destruct (emit _ None post); reflexivity.
Qed.

(** C3 as worded fails on a line replaced by two lines: the Replace edit
    carries the payloads of both Insert primitives. *)
Lemma delete_insert_pair_is_one_replace_fails : ~ delete_insert_pair_is_one_replace.
Proof.
  intro H.
  destruct (H [LF] (lit "foo") 0 [] (lit "foo") (lit "bar") [(DIFF_INSERT, lit "baz")])
    as (es1 & es2 & s & Hs & Hes).
  vm_compute in Hs. inversion Hs; subst s; clear Hs.
  vm_compute in Hes. inversion Hes as [Hl]; clear Hes.
  destruct es1 as [|a es1]; simpl in Hl.
  - inversion Hl.
  - destruct es1; inversion Hl.
Qed.

(** C3 (amended).  A run of one or more Delete primitives directly followed
    by a run of one or more Insert primitives, the two runs standing first in
    the sequence or after an Equal primitive and last in it or before an
    Equal primitive, gives exactly one edit, between the edits of what comes
    before and the edits of what comes after: a Replace that starts where the
    first Delete starts, ends after the payloads of all the Deletes, and
    carries the payloads of all the Inserts in order.  The position [s] is
    the one at which the first Delete is placed.  The primitives Delete
    "foo", Insert "bar" at line 0 give the single Replace edit from (0,0) to
    (0,3) with the text "bar". *)
Theorem delete_insert_run_is_one_replace
  (EOL before : str) (startLine : Z) (pre dels inss post : list Diff) :
  endsWithEqual pre -> startsWithEqual post ->
  allOp DIFF_DELETE dels -> allOp DIFF_INSERT inss ->
  dels <> [] -> inss <> [] ->
  let s := advance (cursor (initialState EOL before startLine)) (consumed pre) in
  let q := advance s (payloads dels) in
  getTextEditsInternal EOL before (pre ++ dels ++ inss ++ post) startLine =
    (es1 <- getTextEditsInternal EOL before pre startLine ;;
     es2 <- synthesizeFrom q post ;;
     Ok (es1 ++ mkEdit Replace s (Some q) (payloads inss) :: es2)) /\
  (forall p,
      nth_error (primitiveStarts EOL before (pre ++ dels ++ inss ++ post) startLine)
                (List.length pre) = Some p -> p = s) /\
  getTextEditsInternal EOL before
    [(DIFF_DELETE, lit "foo"); (DIFF_INSERT, lit "bar")] 0 =
  Ok [mkEdit Replace (mkPosition 0 0) (Some (mkPosition 0 3)) (lit "bar")].
Proof.
  intros Hpre Hpost Hd Hi Hnd Hni s q. split; [|split].
  - rewrite !getTextEditsInternal_from.
    rewrite synthesizeFrom_run by assumption.
    destruct dels; [congruence | reflexivity].
  - intros p Hp. apply startsFrom_nth in Hp.
    now rewrite firstn_length_app in Hp.
  - reflexivity.
Qed.

Lemma delete_insert_run_is_one_replace_witness :
  getTextEditsInternal [LF] (lit "foo")
    ([] ++ [(DIFF_DELETE, lit "foo")] ++ [(DIFF_INSERT, lit "bar"); (DIFF_INSERT, lit "baz")] ++ [])
    0 =
  Ok [mkEdit Replace (mkPosition 0 0) (Some (mkPosition 0 3)) (lit "barbaz")].
Proof.
  assert (Hd : allOp DIFF_DELETE [(DIFF_DELETE, lit "foo")])
    by (repeat constructor).
  assert (Hi : allOp DIFF_INSERT [(DIFF_INSERT, lit "bar"); (DIFF_INSERT, lit "baz")])
    by (repeat constructor).
  refine (eq_trans
    (proj1 (delete_insert_run_is_one_replace [LF] (lit "foo") 0 []
              [(DIFF_DELETE, lit "foo")]
              [(DIFF_INSERT, lit "bar"); (DIFF_INSERT, lit "baz")] []
              (or_introl eq_refl) (or_introl eq_refl) Hd Hi _ _)) _);
    [discriminate | discriminate | reflexivity].
Defined.

(** C10 as worded fails on a line replaced by two lines: the two Insert
    primitives are folded into the Replace edit the Delete primitive opened,
    and that edit starts where the Delete starts. *)
Lemma insert_run_is_one_insert_fails : ~ insert_run_is_one_insert.
Proof.
  intro H.
  destruct (H [LF] (lit "a") 0 [(DIFF_DELETE, lit "a")]
              [(DIFF_INSERT, lit "b"); (DIFF_INSERT, lit "c")] [])
    as (es1 & es2 & s & Hs & Hes).
  - repeat constructor.
  - simpl. lia.
  - intros (pre' & t & Hp).
    change [(DIFF_DELETE, lit "a")] with ([] ++ [(DIFF_DELETE, lit "a")]) in Hp.
    apply app_inj_tail in Hp. destruct Hp as (_ & Hp). discriminate Hp.
  - intros (t & post' & Hp). discriminate Hp.
  - vm_compute in Hs. inversion Hs; subst s; clear Hs.
    vm_compute in Hes. inversion Hes as [Hl]; clear Hes.
    destruct es1 as [|a es1]; simpl in Hl.
    + inversion Hl.
    + destruct es1; inversion Hl.
Qed.

(** C10 (amended).  A run of one or more Insert primitives (so also of two
    or more) that stands first in the sequence or after an Equal primitive,
    and last in it or before an Equal primitive, gives exactly one edit,
    between the edits of what comes before and the edits of what comes
    after: an Insert anchored where the first of them is placed, with their
    payloads in order. *)
Theorem insert_run_after_equal_is_one_insert
  (EOL before : str) (startLine : Z) (pre inss post : list Diff) :
  endsWithEqual pre -> startsWithEqual post ->
  allOp DIFF_INSERT inss -> inss <> [] ->
  let s := advance (cursor (initialState EOL before startLine)) (consumed pre) in
  getTextEditsInternal EOL before (pre ++ inss ++ post) startLine =
    (es1 <- getTextEditsInternal EOL before pre startLine ;;
     es2 <- synthesizeFrom s post ;;
     Ok (es1 ++ mkEdit Insert s None (payloads inss) :: es2)) /\
  (forall p,
      nth_error (primitiveStarts EOL before (pre ++ inss ++ post) startLine)
                (List.length pre) = Some p -> p = s).
Proof.
  intros Hpre Hpost Hi Hni s. split.
  - rewrite !getTextEditsInternal_from.
    change (pre ++ inss ++ post) with (pre ++ [] ++ inss ++ post).
    rewrite synthesizeFrom_run by (auto; constructor).
    reflexivity.
  - intros p Hp. apply startsFrom_nth in Hp.
    now rewrite firstn_length_app in Hp.
Qed.

Lemma insert_run_after_equal_is_one_insert_witness :
  getTextEditsInternal [LF] (ln "a" ++ ln "b")
    ([(DIFF_EQUAL, ln "a")] ++
     [(DIFF_INSERT, ln "x"); (DIFF_INSERT, ln "y")] ++
     [(DIFF_EQUAL, ln "b")]) 0 =
  Ok [mkEdit Insert (mkPosition 1 0) None (ln "x" ++ ln "y")].
Proof.
  assert (Hi : allOp DIFF_INSERT [(DIFF_INSERT, ln "x"); (DIFF_INSERT, ln "y")])
    by (repeat constructor).
  refine (eq_trans
    (proj1 (insert_run_after_equal_is_one_insert [LF] (ln "a" ++ ln "b") 0
              [(DIFF_EQUAL, ln "a")]
              [(DIFF_INSERT, ln "x"); (DIFF_INSERT, ln "y")]
              [(DIFF_EQUAL, ln "b")]
              (or_intror (ex_intro _ [] (ex_intro _ (ln "a") eq_refl)))
              (or_intror (ex_intro _ (ln "b") (ex_intro _ [] eq_refl)))
              Hi _)) _);
    [discriminate | reflexivity].
Defined.

(** ** The parser, line by line *)

Lemma patchLoop_cons header content :
  patchLoop (header :: content) =
  match patchHeader header with
  | None => Throw (InvalidPatchString header)
  | Some m => bodyLoop patchLoop m content []
  end.
Proof.
  simpl. destruct (patchHeader header) as [[[[m1 m2] m3] m4]|]; [|reflexivity].
  unfold bodyLoop, patchOf; simpl.
  destruct (headerHalf m1 m2), (headerHalf m3 m4). reflexivity.
Qed.

Lemma bodyLoop_content m n :
  (forall ls, (List.length ls <= n)%nat -> patchLoop ls = hunks ls) ->
  forall ls ds, (List.length ls <= n)%nat ->
    bodyLoop patchLoop m ls ds =
    (r <- contentLines ls ;; Ok (patchOf m (ds ++ fst r) :: snd r)).
Proof.
  intros Houter. induction ls as [|l rest IH]; intros ds Hlen.
  - simpl. now rewrite app_nil_r.
  - assert (Hrest : (List.length rest <= n)%nat) by (simpl in Hlen; lia).
    destruct l as [|sign line].
    + simpl. now apply IH.
    + change (bodyLoop patchLoop m ((sign :: line) :: rest) ds) with
        (if Ascii.eqb sign "-"%char then bodyLoop patchLoop m rest (ds ++ [(DIFF_DELETE, line)])
         else if Ascii.eqb sign "+"%char then bodyLoop patchLoop m rest (ds ++ [(DIFF_INSERT, line)])
         else if Ascii.eqb sign " "%char then bodyLoop patchLoop m rest (ds ++ [(DIFF_EQUAL, line)])
         else if Ascii.eqb sign "@"%char then
           ps <- patchLoop ((sign :: line) :: rest) ;; Ok (patchOf m ds :: ps)
         else Throw (InvalidPatchMode sign line)).
      cbn [contentLines].
      destruct (Ascii.eqb sign "-"%char);
        [rewrite IH by assumption; destruct (contentLines rest) as [[ds' ps]|]; simpl;
         [now rewrite <- app_assoc | reflexivity]|].
      destruct (Ascii.eqb sign "+"%char);
        [rewrite IH by assumption; destruct (contentLines rest) as [[ds' ps]|]; simpl;
         [now rewrite <- app_assoc | reflexivity]|].
      destruct (Ascii.eqb sign " "%char);
        [rewrite IH by assumption; destruct (contentLines rest) as [[ds' ps]|]; simpl;
         [now rewrite <- app_assoc | reflexivity]|].
      destruct (Ascii.eqb sign "@"%char); [|reflexivity].
      rewrite Houter by assumption. unfold hunks.
      destruct (patchHeader (sign :: line)) as [m'|]; [|reflexivity].
      destruct (contentLines rest) as [[ds' ps]|]; simpl; [|reflexivity].
      now rewrite app_nil_r.
Qed.

Lemma patchLoop_hunks_upto n : forall ls, (List.length ls <= n)%nat -> patchLoop ls = hunks ls.
Proof.
  induction n as [|n IHn]; intros ls Hlen.
  - destruct ls; [reflexivity | simpl in Hlen; lia].
  - destruct ls as [|header content]; [reflexivity|].
    rewrite patchLoop_cons. unfold hunks.
    destruct (patchHeader header) as [m|]; [|reflexivity].
    rewrite (bodyLoop_content m n IHn) by (simpl in Hlen; lia).
    reflexivity.
Qed.

Lemma patchLoop_hunks ls : patchLoop ls = hunks ls.
Proof. apply (patchLoop_hunks_upto (List.length ls)). lia. Qed.

Lemma diffs_patchOf m ds : diffs (patchOf m ds) = ds.
Proof. destruct m as [[[m1 m2] m3] m4]. reflexivity. Qed.

Lemma contentLines_ok ls : isOk (contentLines ls) = forallb lineAccepted ls.
Proof.
  induction ls as [|[|sign line] rest IH]; [reflexivity | exact IH |].
  cbn [contentLines forallb]. unfold lineAccepted at 1, contentOK, startsHunk.
  destruct (Ascii.eqb sign "-"%char) eqn:E1.
  { apply Ascii.eqb_eq in E1; subst sign. simpl.
    rewrite <- IH. now destruct (contentLines rest). }
  destruct (Ascii.eqb sign "+"%char) eqn:E2.
  { apply Ascii.eqb_eq in E2; subst sign. simpl.
    rewrite <- IH. now destruct (contentLines rest). }
  destruct (Ascii.eqb sign " "%char) eqn:E3.
  { apply Ascii.eqb_eq in E3; subst sign. simpl.
    rewrite <- IH. now destruct (contentLines rest). }
  destruct (Ascii.eqb sign "@"%char) eqn:E4; [|reflexivity].
  cbn [orb andb negb].
  destruct (patchHeader (sign :: line)); [|reflexivity].
  simpl. rewrite <- IH. now destruct (contentLines rest).
Qed.

Lemma contentLines_diffs ls : forall ds ps,
  contentLines ls = Ok (ds, ps) ->
  ds ++ flat_map diffs ps = flat_map lineDiffs ls /\
  List.length ps = List.length (filter startsHunk ls).
Proof.
  induction ls as [|[|sign line] rest IH]; intros ds ps H.
  - inversion H; subst. auto.
  - simpl in H |- *. now apply IH.
  - cbn [contentLines] in H. cbn [flat_map filter lineDiffs startsHunk].
    destruct (Ascii.eqb sign "-"%char) eqn:E1.
    { apply Ascii.eqb_eq in E1; subst sign.
      destruct (contentLines rest) as [[ds' ps']|]; simpl in H; inversion H; subst.
      destruct (IH _ _ eq_refl) as (Hd & Hl). simpl. now rewrite Hd. }
    destruct (Ascii.eqb sign "+"%char) eqn:E2.
    { apply Ascii.eqb_eq in E2; subst sign.
      destruct (contentLines rest) as [[ds' ps']|]; simpl in H; inversion H; subst.
      destruct (IH _ _ eq_refl) as (Hd & Hl). simpl. now rewrite Hd. }
    destruct (Ascii.eqb sign " "%char) eqn:E3.
    { apply Ascii.eqb_eq in E3; subst sign.
      destruct (contentLines rest) as [[ds' ps']|]; simpl in H; inversion H; subst.
      destruct (IH _ _ eq_refl) as (Hd & Hl). simpl. now rewrite Hd. }
    destruct (Ascii.eqb sign "@"%char) eqn:E4; [|discriminate].
    destruct (patchHeader (sign :: line)) as [m|]; [|discriminate].
    destruct (contentLines rest) as [[ds' ps']|]; simpl in H; inversion H; subst.
    destruct (IH _ _ eq_refl) as (Hd & Hl).
    simpl. rewrite diffs_patchOf, Hd, Hl. auto.
Qed.

Lemma forallb_false_nth {A} (f : A -> bool) (l : list A) :
  forallb f l = false <-> exists i x, nth_error l i = Some x /\ f x = false.
Proof.
  induction l as [|a l IH]; simpl.
  - split; [discriminate|]. intros ([|i] & x & H & _); discriminate.
  - rewrite andb_false_iff, IH. split.
    + intros [Ha | (i & x & Hi & Hx)].
      * now exists O, a.
      * now exists (S i), x.
    + intros ([|i] & x & Hi & Hx); simpl in Hi.
      * inversion Hi; subst. now left.
      * right. now exists i, x.
Qed.

Lemma lineAccepted_false l :
  lineAccepted l = false <->
  (startsHunk l = true /\ patchHeader l = None) \/ contentOK l = false.
Proof.
  unfold lineAccepted.
  destruct (contentOK l), (startsHunk l), (patchHeader l); simpl;
    intuition (try discriminate; try congruence).
Qed.

Lemma splitCRorLF_cons s : exists h tl, splitCRorLF s = h :: tl.
Proof.
  induction s as [|c s (h & tl & IH)]; simpl; [eauto|].
  destruct (Ascii.eqb c CR || Ascii.eqb c LF); [eauto|].
  rewrite IH. eauto.
Qed.

Lemma patchHeader_startsHunk l m : patchHeader l = Some m -> startsHunk l = true.
Proof.
  unfold patchHeader. destruct l as [|c l]; [intro H; cbv in H; discriminate H|].
  cbn [stripPrefix lit list_ascii_of_string startsHunk].
  rewrite (Ascii.eqb_sym c). destruct (Ascii.eqb "@"%char c); [reflexivity|].
  intro H; discriminate H.
Qed.

Lemma patch_fromText_fails_iff textline :
  isOk (patch_fromText textline) = false <->
  textline <> [] /\
  exists i l,
    nth_error (splitCRorLF textline) i = Some l /\
    (((i = O \/ startsHunk l = true) /\ patchHeader l = None) \/
     (i <> O /\ contentOK l = false)).
Proof.
  destruct textline as [|c s].
  - simpl. split; [discriminate | intros (H & _); congruence].
  - unfold patch_fromText. rewrite patchLoop_hunks.
    destruct (splitCRorLF_cons (c :: s)) as (h & tl & ->).
    unfold hunks. split.
    + intro H. split; [discriminate|].
      destruct (patchHeader h) as [m|] eqn:Hh.
      * pose proof (contentLines_ok tl) as Hok.
        destruct (contentLines tl); simpl in H; [discriminate|].
        simpl in Hok. symmetry in Hok.
        apply forallb_false_nth in Hok. destruct Hok as (i & l & Hi & Hl).
        exists (S i), l. split; [exact Hi|].
        apply lineAccepted_false in Hl. destruct Hl as [(H1 & H2) | H1]; auto.
      * exists O, h. auto.
    + intros (_ & i & l & Hi & Hl).
      destruct i as [|i]; simpl in Hi.
      * inversion Hi; subst l.
        destruct Hl as [(_ & Hl) | (Hl & _)]; [|congruence].
        now rewrite Hl.
      * destruct (patchHeader h) as [m|]; [|reflexivity].
        assert (Hf : forallb lineAccepted tl = false).
        { apply forallb_false_nth. exists i, l. split; [exact Hi|].
          apply lineAccepted_false. destruct Hl as [([Hl | Hl] & Hn) | (_ & Hl)]; auto.
          discriminate Hl. }
        rewrite <- contentLines_ok in Hf.
        now destruct (contentLines tl).
Qed.

Lemma patch_fromText_primitives textline patches :
  patch_fromText textline = Ok patches ->
  flat_map diffs patches = flat_map lineDiffs (tl (splitCRorLF textline)) /\
  List.length patches = List.length (filter startsHunk (splitCRorLF textline)).
Proof.
  destruct textline as [|c s]; intro H.
  - inversion H; subst. auto.
  - unfold patch_fromText in H. rewrite patchLoop_hunks in H.
    destruct (splitCRorLF_cons (c :: s)) as (h & tl & Hs). rewrite Hs in *.
    unfold hunks in H.
    destruct (patchHeader h) as [m|] eqn:Hh; [|discriminate].
    destruct (contentLines tl) as [[ds ps]|] eqn:Hc; simpl in H; inversion H; subst.
    destruct (contentLines_diffs _ _ _ Hc) as (Hd & Hl).
    simpl. rewrite diffs_patchOf, (patchHeader_startsHunk _ _ Hh). simpl.
    auto.
Qed.

(** ** Hunk headers *)

Lemma stripPrefix_app p : forall s, stripPrefix p (p ++ s) = Some s.
Proof.
  induction p as [|c p IH]; intro s; simpl; [reflexivity|].
  now rewrite Ascii.eqb_refl.
Qed.

Lemma stripPrefix_Some p : forall s r, stripPrefix p s = Some r -> s = p ++ r.
Proof.
  induction p as [|c p IH]; intros s r H; simpl in H.
  - now inversion H.
  - destruct s as [|y s]; [discriminate|].
    destruct (Ascii.eqb c y) eqn:E; [|discriminate].
    apply Ascii.eqb_eq in E. subst y. simpl. f_equal. now apply IH.
Qed.

Lemma takeDigits_app d : forall c rest,
  forallb isDigit d = true -> isDigit c = false ->
  takeDigits (d ++ c :: rest) = (d, c :: rest).
Proof.
  induction d as [|x d IH]; intros c rest Hd Hc; simpl.
  - now rewrite Hc.
  - simpl in Hd. apply andb_true_iff in Hd. destruct Hd as (Hx & Hd).
    rewrite Hx, IH by assumption. reflexivity.
Qed.

Lemma isNumber_digits d : isNumber d = true -> forallb isDigit d = true /\ d <> [].
Proof.
  unfold isNumber. intro H.
  apply andb_true_iff in H. destruct H as (H & _).
  apply andb_true_iff in H. destruct H as (Hne & Hd).
  split; [assumption|]. intros ->. discriminate Hne.
Qed.

Lemma half_scan d l rest :
  isNumber d = true -> isLength l = true ->
  takeDigits (halfText d l ++ " "%char :: rest) =
    (d, match l with None => [] | Some l => ","%char :: l end ++ " "%char :: rest) /\
  takeDigits (skipComma (match l with None => [] | Some l => ","%char :: l end
                         ++ " "%char :: rest)) =
    (lengthDigits l, " "%char :: rest).
Proof.
  intros Hd Hl. apply isNumber_digits in Hd. destruct Hd as (Hd & _).
  unfold halfText. rewrite <- app_assoc. split.
  - destruct l as [l|]; simpl app.
    + now apply takeDigits_app.
    + now apply takeDigits_app.
  - destruct l as [l|]; simpl.
    + apply isNumber_digits in Hl. destruct Hl as (Hl & _).
      now apply takeDigits_app.
    + reflexivity.
Qed.

Lemma patchHeader_headerText d1 l1 d2 l2 :
  isNumber d1 = true -> isLength l1 = true ->
  isNumber d2 = true -> isLength l2 = true ->
  patchHeader (headerText d1 l1 d2 l2) =
  Some (d1, lengthDigits l1, d2, lengthDigits l2).
Proof.
  intros H1 Hl1 H2 Hl2. unfold patchHeader, headerText.
  rewrite stripPrefix_app.
  change (lit " +") with [" "%char; "+"%char].
  change (lit " @@") with [" "%char; "@"%char; "@"%char].
  cbn [app].
  destruct (half_scan d1 l1
              ("+"%char :: halfText d2 l2 ++ [" "%char; "@"%char; "@"%char]) H1 Hl1)
    as (E1 & E2).
  rewrite E1. cbv beta iota. rewrite E2. cbv beta iota.
  cbn [stripPrefix]. rewrite !Ascii.eqb_refl.
  destruct (half_scan d2 l2 ["@"%char; "@"%char] H2 Hl2) as (E3 & E4).
  rewrite E3. cbv beta iota. rewrite E4. cbv beta iota.
  cbn [stripPrefix]. rewrite !Ascii.eqb_refl.
  apply isNumber_digits in H1, H2.
  destruct H1 as (_ & N1), H2 as (_ & N2).
  destruct d1; [congruence|]. destruct d2; [congruence|]. reflexivity.
Qed.

Lemma splitCRorLF_one s :
  forallb (fun c => negb (isSeparator c)) s = true -> splitCRorLF s = [s].
Proof.
  induction s as [|c s IH]; simpl; [reflexivity|].
  intro H. apply andb_true_iff in H. destruct H as (Hc & Hs).
  unfold isSeparator in Hc. apply negb_true_iff in Hc. rewrite Hc, IH by assumption.
  reflexivity.
Qed.

Lemma isDigit_not_separator c : isDigit c = true -> negb (isSeparator c) = true.
Proof.
  destruct c as [[] [] [] [] [] [] [] []]; vm_compute; congruence.
Qed.

Lemma digits_no_separator d :
  forallb isDigit d = true -> forallb (fun c => negb (isSeparator c)) d = true.
Proof.
  induction d as [|c d IH]; simpl; [reflexivity|].
  intro H. apply andb_true_iff in H. destruct H as (Hc & Hd).
  now rewrite isDigit_not_separator, IH.
Qed.

Lemma halfText_no_separator d l :
  isNumber d = true -> isLength l = true ->
  forallb (fun c => negb (isSeparator c)) (halfText d l) = true.
Proof.
  intros Hd Hl. apply isNumber_digits in Hd. destruct Hd as (Hd & _).
  unfold halfText. rewrite forallb_app, digits_no_separator by assumption.
  destruct l as [l|]; [|reflexivity].
  apply isNumber_digits in Hl. destruct Hl as (Hl & _).
  simpl. now rewrite digits_no_separator.
Qed.

Lemma headerHalf_rule d l :
  isLength l = true -> headerHalf d (lengthDigits l) = halfRule d l.
Proof.
  unfold headerHalf, halfRule. destruct l as [l|]; simpl; [|reflexivity].
  intro Hl. apply isNumber_digits in Hl. destruct Hl as (_ & Hne).
  destruct l; [congruence | reflexivity].
Qed.

(** C5.  Each half of the header is read by the same rule, the one
    independently of the other: a length left out gives length 1 and the
    start less one, the length "0" gives length 0 and the start as written,
    any other length gives that length and the start less one.  The headers
    "@@ -5 +5 @@", "@@ -5,0 +5 @@" and "@@ -5,3 +5,3 @@" give the origin
    pairs (4,1), (5,0) and (4,3). *)
Theorem header_length_omission (d1 : str) (l1 : option str) (d2 : str) (l2 : option str) :
  isNumber d1 = true -> isLength l1 = true ->
  isNumber d2 = true -> isLength l2 = true ->
  patch_fromText (headerText d1 l1 d2 l2) =
    Ok [mkPatch [] (fst (halfRule d1 l1)) (fst (halfRule d2 l2))
                   (snd (halfRule d1 l1)) (snd (halfRule d2 l2))] /\
  patch_fromText (lit "@@ -5 +5 @@") = Ok [mkPatch [] 4 4 1 1] /\
  patch_fromText (lit "@@ -5,0 +5 @@") = Ok [mkPatch [] 5 4 0 1] /\
  patch_fromText (lit "@@ -5,3 +5,3 @@") = Ok [mkPatch [] 4 4 3 3].
Proof.
  intros H1 Hl1 H2 Hl2. split; [|repeat split; reflexivity].
  unfold patch_fromText.
  assert (Hs : splitCRorLF (headerText d1 l1 d2 l2) = [headerText d1 l1 d2 l2]).
  { apply splitCRorLF_one. unfold headerText.
    rewrite !forallb_app, !halfText_no_separator by assumption. reflexivity. }
  rewrite Hs, patchLoop_hunks. unfold hunks.
  rewrite patchHeader_headerText by assumption.
  simpl. rewrite !headerHalf_rule by assumption.
  unfold headerText. reflexivity.
Qed.

Lemma header_length_omission_witness :
  patch_fromText (lit "@@ -12,3 +12 @@") = Ok [mkPatch [] 11 11 3 1].
Proof.
  exact (proj1 (header_length_omission (lit "12") (Some (lit "3")) (lit "12") None
                  eq_refl eq_refl eq_refl eq_refl)).
Defined.

(** ** The grammar of the header *)

Lemma isDigit_decimal c : isDigit c = true <-> decimalDigit c.
Proof.
  unfold decimalDigit.
  destruct c as [[] [] [] [] [] [] [] []]; vm_compute; split; intro H;
    first [ reflexivity
          | discriminate H
          | solve [repeat (first [left; reflexivity | right])]
          | solve [repeat (destruct H as [H|H]; [discriminate H|]); destruct H] ].
Qed.

Lemma digits_iff s : forallb isDigit s = true <-> digitString s.
Proof.
  unfold digitString. rewrite forallb_forall, Forall_forall.
  split; intros H c Hc; apply isDigit_decimal; auto.
Qed.

Lemma takeDigits_spec s : forall d r,
  takeDigits s = (d, r) -> s = d ++ r /\ digitString d /\ stopsDigits r.
Proof.
  induction s as [|c s IH]; intros d r H; simpl in H.
  - inversion H; subst. repeat split. constructor.
  - destruct (isDigit c) eqn:Hc.
    + destruct (takeDigits s) as [d' r'] eqn:E. inversion H; subst.
      destruct (IH d' r eq_refl) as (-> & Hd & Hr).
      repeat split; [|exact Hr]. constructor; [now apply isDigit_decimal | exact Hd].
    + inversion H; subst. repeat split; [constructor | exact Hc].
Qed.

Lemma takeDigits_run d r :
  digitString d -> stopsDigits r -> takeDigits (d ++ r) = (d, r).
Proof.
  intros Hd Hr. induction Hd as [|c d Hc _ IH]; simpl.
  - destruct r as [|c r]; [reflexivity|]. simpl in *. now rewrite Hr.
  - apply isDigit_decimal in Hc. now rewrite Hc, IH.
Qed.

Lemma loose_scan o (c : ascii) X :
  looseLength o -> isDigit c = false -> Ascii.eqb c ","%char = false ->
  stopsDigits (o ++ c :: X) /\
  takeDigits (skipComma (o ++ c :: X)) = (tl o, c :: X).
Proof.
  intros [-> | (n & Hn & ->)] Hc Hc'.
  - split; [exact Hc|]. cbn [app skipComma tl]. rewrite Hc'.
    now apply (takeDigits_run [] (c :: X)); [constructor|].
  - split; [reflexivity|]. cbn [app skipComma tl]. rewrite Ascii.eqb_refl.
    now apply takeDigits_run.
Qed.

Lemma scan_loose r1 m2 r2 :
  stopsDigits r1 -> takeDigits (skipComma r1) = (m2, r2) ->
  exists o, looseLength o /\ r1 = o ++ r2.
Proof.
  intros Hs H. destruct r1 as [|c rest].
  - inversion H; subst. exists []. split; [now left | reflexivity].
  - cbn [skipComma] in H. destruct (Ascii.eqb c ","%char) eqn:Hc.
    + apply Ascii.eqb_eq in Hc. subst c.
      destruct (takeDigits_spec _ _ _ H) as (-> & Hd & _).
      exists (","%char :: m2). split; [|reflexivity].
      right. now exists m2.
    + simpl in Hs. cbn [takeDigits] in H. rewrite Hs in H. inversion H; subst.
      exists []. split; [now left | reflexivity].
Qed.

(** The groups of the match on a header of the loose grammar: the two
    starts, and the digits after each comma. *)
Lemma patchHeader_groups s1 o1 s2 o2 :
  numeral s1 -> looseLength o1 -> numeral s2 -> looseLength o2 ->
  patchHeader (lit "@@ -" ++ s1 ++ o1 ++ lit " +" ++ s2 ++ o2 ++ lit " @@") =
  Some (s1, tl o1, s2, tl o2).
Proof.
  intros (N1 & D1) L1 (N2 & D2) L2. unfold patchHeader.
  rewrite stripPrefix_app.
  change (lit " +") with [" "%char; "+"%char].
  change (lit " @@") with [" "%char; "@"%char; "@"%char].
  cbn [app].
  destruct (loose_scan o1 " "%char ("+"%char :: s2 ++ o2 ++ [" "%char; "@"%char; "@"%char])
              L1 eq_refl eq_refl) as (S1 & E1).
  rewrite (takeDigits_run s1 _ D1 S1). cbv beta iota. rewrite E1. cbv beta iota.
  cbn [stripPrefix]. rewrite !Ascii.eqb_refl.
  destruct (loose_scan o2 " "%char ["@"%char; "@"%char] L2 eq_refl eq_refl) as (S2 & E2).
  rewrite (takeDigits_run s2 _ D2 S2). cbv beta iota. rewrite E2. cbv beta iota.
  cbn [stripPrefix]. rewrite !Ascii.eqb_refl.
  destruct s1; [congruence|]. destruct s2; [congruence|]. reflexivity.
Qed.

Lemma patchHeader_loose l m : patchHeader l = Some m -> looseHeaderGrammar l.
Proof.
  unfold patchHeader. intro H.
  destruct (stripPrefix (lit "@@ -") l) as [r0|] eqn:P0; [|discriminate].
  destruct (takeDigits r0) as [m1 r1] eqn:T1.
  destruct (takeDigits (skipComma r1)) as [m2 r2] eqn:T2.
  destruct (stripPrefix (lit " +") r2) as [r3|] eqn:P1; [|discriminate].
  destruct (takeDigits r3) as [m3 r4] eqn:T3.
  destruct (takeDigits (skipComma r4)) as [m4 r5] eqn:T4.
  destruct m1 as [|c1 m1]; [discriminate|].
  destruct m3 as [|c3 m3]; [discriminate|].
  destruct (stripPrefix (lit " @@") r5) as [[|x r6]|] eqn:P2; try discriminate.
  apply stripPrefix_Some in P0, P1, P2.
  destruct (takeDigits_spec _ _ _ T1) as (E1 & D1 & S1).
  destruct (takeDigits_spec _ _ _ T3) as (E3 & D3 & S3).
  destruct (scan_loose _ _ _ S1 T2) as (o1 & L1 & F1).
  destruct (scan_loose _ _ _ S3 T4) as (o2 & L2 & F2).
  exists (c1 :: m1), o1, (c3 :: m3), o2.
  repeat split; try assumption; try discriminate.
  rewrite P0, E1, F1, P1, E3, F2, P2, app_nil_r. reflexivity.
Qed.

(** The parser's test of a header line decides the loose grammar. *)
Lemma patchHeader_None_iff l : patchHeader l = None <-> ~ looseHeaderGrammar l.
Proof.
  split.
  - intros H (s1 & o1 & s2 & o2 & N1 & L1 & N2 & L2 & ->).
    rewrite (patchHeader_groups _ _ _ _ N1 L1 N2 L2) in H. discriminate H.
  - intros H. destruct (patchHeader l) as [m|] eqn:E; [|reflexivity].
    exfalso. apply H. exact (patchHeader_loose _ _ E).
Qed.

Lemma optional_is_loose o : optionalLength o -> looseLength o.
Proof.
  intros [-> | (n & (_ & Hn) & ->)]; [now left | right]. now exists n.
Qed.

Lemma spec_header_is_loose l : specHeaderGrammar l -> looseHeaderGrammar l.
Proof.
  intros (s1 & o1 & s2 & o2 & N1 & L1 & N2 & L2 & E).
  exists s1, o1, s2, o2.
  split; [exact N1|]. split; [now apply optional_is_loose|].
  split; [exact N2|]. split; [now apply optional_is_loose|]. exact E.
Qed.

Lemma optionalLength_tl_nil o : optionalLength o -> tl o = [] -> o = [].
Proof.
  intros [-> | (n & (Hn & _) & ->)] H; [reflexivity|]. simpl in H. congruence.
Qed.

(** C7.  The parser throws exactly when the text is not empty and some line
    that is expected to be a header (the first line, or a later line whose
    sign is '@') is not a header of the loose grammar, which is the written
    grammar with the digits after a comma optional, or some later line has a
    sign other than '-', '+', ' ', '@' and is not empty.  Every header of
    the written grammar is one of the loose grammar.  When the parser
    returns, the primitives of the patches are, in order, those of the lines
    after the first: Delete for '-', Insert for '+', Equal for ' ', nothing
    for an empty line or a header; and there is one patch per line whose
    sign is '@': such a line ends the content of the patch before it and is
    read as the next header ([hunks]).  The text "not a header" followed by
    a line feed is refused. *)
Theorem parser_throws_exactly_on_bad_lines :
  (forall textline,
      isOk (patch_fromText textline) = false <->
      refusedUnder looseHeaderGrammar textline) /\
  (forall l, specHeaderGrammar l -> looseHeaderGrammar l) /\
  (forall textline patches,
      patch_fromText textline = Ok patches ->
      flat_map diffs patches = flat_map lineDiffs (tl (splitCRorLF textline)) /\
      List.length patches = List.length (filter startsHunk (splitCRorLF textline))) /\
  (forall c s, patch_fromText (c :: s) = hunks (splitCRorLF (c :: s))) /\
  patch_fromText (lit "not a header" ++ [LF]) =
    Throw (InvalidPatchString (lit "not a header")).
Proof.
  split; [|split; [|split; [|split]]].
  - intros textline. rewrite patch_fromText_fails_iff. unfold refusedUnder.
    split; intros (Hn & i & l & Hi & Hl); (split; [exact Hn|]); exists i, l;
      (split; [exact Hi|]); destruct Hl as [(Hh & Hp) | Hc]; auto; left;
      (split; [exact Hh|]); now apply patchHeader_None_iff.
  - exact spec_header_is_loose.
  - exact patch_fromText_primitives.
  - intros c s. apply patchLoop_hunks.
  - reflexivity.
Qed.

(** The claim with the grammar as it is written fails on a header whose
    comma is followed by no length: "@@ -5, +5 @@" is not a header of the
    written grammar, and the parser accepts it (as "@@ -5 +5 @@"). *)
Lemma header_grammar_as_written_fails :
  ~ (isOk (patch_fromText (lit "@@ -5, +5 @@")) = false <->
     refusedUnder specHeaderGrammar (lit "@@ -5, +5 @@")).
Proof.
  intros (_ & H).
  assert (R : refusedUnder specHeaderGrammar (lit "@@ -5, +5 @@")).
  { split; [discriminate|]. exists O, (lit "@@ -5, +5 @@").
    split; [reflexivity|]. left. split; [now left|].
    intros (s1 & o1 & s2 & o2 & N1 & L1 & N2 & L2 & E).
    pose proof (patchHeader_groups s1 o1 s2 o2 N1 (optional_is_loose _ L1)
                  N2 (optional_is_loose _ L2)) as G.
    rewrite <- E in G. vm_compute in G. injection G as <- T1 <- T2.
    symmetry in T1, T2.
    apply (optionalLength_tl_nil _ L1) in T1. apply (optionalLength_tl_nil _ L2) in T2.
    subst o1 o2. discriminate E. }
  specialize (H R). discriminate H.
Qed.

(** ** The end-of-file marker *)

(** C8.  The marker is removed once.  Of the two markers of [twoMarkers]
    the second reaches the parser, which refuses the sign of its line, and
    the pipeline throws; with the single marker of [oneMarker] the pipeline
    returns the edit.  In any text the marker that stands first is removed
    and a later one is kept as it is. *)
Theorem marker_removed_once :
  removeMarker (stripFileHeader twoMarkers) = oneMarker /\
  getTextEditsFromPatch [LF] (lit "a") twoMarkers =
    Throw (InvalidPatchMode "\"%char (lit " No newline at end of file")) /\
  getTextEditsFromPatch [LF] (lit "a") oneMarker =
    Ok [mkTextEdit (mkRange (mkPosition 0 0) (mkPosition 1 0)) (ln "b")] /\
  (forall a b,
      removeMarker (ln "\ No newline at end of file" ++ a ++
                    ln "\ No newline at end of file" ++ b) =
      a ++ ln "\ No newline at end of file" ++ b).
Proof.
  repeat split; reflexivity.
Qed.

(** * Further properties of the synthesizer *)

(** ** Shape of the edits and their materialization *)

Lemma step_editOK st d st' :
  step st d = Ok st' -> Forall editOK (finish st) -> Forall editOK (finish st').
Proof.
  destruct st as [p pend es], d as [op t]. unfold step, finish; simpl.
  destruct op, pend as [[[] s0 en tx]|]; simpl; intro H; inversion H; subst; clear H;
    simpl; rewrite ?Forall_app; intros; try assumption;
    repeat match goal with
           | H : _ /\ _ |- _ => destruct H
           | H : Forall _ [_] |- _ => inversion H; subst; clear H
           | |- _ /\ _ => split
           | |- Forall _ [_] => constructor
           | |- Forall _ [] => constructor
           end;
    try assumption;
    unfold editOK, setEnd, setAction, appendText, newEdit in *; simpl in *;
    repeat match goal with
           | H : _ /\ _ |- _ => destruct H
           | H : exists _, _ |- _ => destruct H
           end;
    subst; simpl; eauto.
Qed.

Lemma loop_editOK ds : forall st st',
  loop st ds = Ok st' -> Forall editOK (finish st) -> Forall editOK (finish st').
Proof.
  induction ds as [|d ds IH]; simpl; intros st st' H Hok.
  - inversion H; subst. assumption.
  - destruct (step st d) as [st1|] eqn:Hs; simpl in H; [|discriminate].
    eapply IH; eauto using step_editOK.
Qed.

Lemma apply_editOK e : editOK e -> apply e = Ok (materialized e).
Proof.
  destruct e as [[] s en tx]; unfold editOK, apply, materialized, spanEnd; simpl.
  - intros ((p & ->) & ->). reflexivity.
  - intros ->. reflexivity.
  - intros (p & ->). reflexivity.
Qed.

Lemma applyAll_editOK es :
  Forall editOK es -> applyAll es = Ok (map materialized es).
Proof.
  induction 1 as [|e es He Hes IH]; simpl; [reflexivity|].
  now rewrite (apply_editOK e He), IH.
Qed.

(** X1.  Every edit the synthesizer returns has the shape its action
    needs: an Insert has no end, a Delete has an end and an empty text, a
    Replace has an end.  So [Edit.apply] never throws on them, and the text
    edits are the edits' own start, span end and text. *)
Theorem returned_edits_materialize
  (EOL before : str) (ds : list Diff) (startLine : Z) (es : list Edit) :
  getTextEditsInternal EOL before ds startLine = Ok es ->
  Forall editOK es /\ applyAll es = Ok (map materialized es).
Proof.
  unfold getTextEditsInternal. intro H.
  destruct (loop (initialState EOL before startLine) ds) as [st|] eqn:Hl;
    simpl in H; [|discriminate].
  inversion H; subst; clear H.
  assert (Hok : Forall editOK (finish st)).
  { eapply loop_editOK; [exact Hl|]. constructor. }
  split; [assumption | now apply applyAll_editOK].
Qed.

Lemma returned_edits_materialize_witness :
  Forall editOK
    [mkEdit Replace (mkPosition 0 0) (Some (mkPosition 1 0)) (ln "x");
     mkEdit Delete (mkPosition 2 0) (Some (mkPosition 3 0)) []] /\
  applyAll
    [mkEdit Replace (mkPosition 0 0) (Some (mkPosition 1 0)) (ln "x");
     mkEdit Delete (mkPosition 2 0) (Some (mkPosition 3 0)) []] =
  Ok (map materialized
    [mkEdit Replace (mkPosition 0 0) (Some (mkPosition 1 0)) (ln "x");
     mkEdit Delete (mkPosition 2 0) (Some (mkPosition 3 0)) []]).
Proof.
  exact (returned_edits_materialize [LF] (ln "a" ++ ln "b" ++ ln "c")
           [(DIFF_DELETE, ln "a"); (DIFF_INSERT, ln "x"); (DIFF_EQUAL, ln "b");
            (DIFF_DELETE, ln "c")] 0 _ eq_refl).
Defined.

(** ** Patches that change nothing *)

Lemma step_busy st d st' :
  step st d = Ok st' ->
  busy st' = busy st || negb (Op_eqb (fst d) DIFF_EQUAL).
Proof.
  destruct st as [p pend es], d as [op t]. unfold step, busy; simpl.
  destruct op, pend as [[[] s0 en tx]|]; simpl; intro H; inversion H; subst; clear H;
    simpl; try reflexivity; destruct es; reflexivity.
Qed.

Lemma loop_busy ds : forall st st',
  loop st ds = Ok st' -> busy st' = busy st || changed ds.
Proof.
  induction ds as [|d ds IH]; simpl; intros st st' H.
  - inversion H; subst. now rewrite orb_false_r.
  - destruct (step st d) as [st1|] eqn:Hs; simpl in H; [|discriminate].
    rewrite (IH _ _ H), (step_busy _ _ _ Hs). now rewrite orb_assoc.
Qed.

Lemma finish_nil st : finish st = [] <-> busy st = false.
Proof.
  unfold finish, busy. destruct (edit st), (edits st); simpl; split; intro H;
    try discriminate; try reflexivity.
Qed.

Lemma changed_false ds : changed ds = false <-> allOp DIFF_EQUAL ds.
Proof.
  unfold changed, allOp. induction ds as [|[op t] ds IH]; simpl.
  - split; [constructor | reflexivity].
  - rewrite orb_false_iff, IH. split.
    + intros (Hop & Hds). constructor; [|assumption]. simpl. now destruct op.
    + intro H. inversion H as [|? ? Hop Hds]; subst. simpl in Hop; subst op. auto.
Qed.

Lemma loop_all_equal ds : forall st,
  allOp DIFF_EQUAL ds -> exists st', loop st ds = Ok st'.
Proof.
  induction ds as [|[op t] ds IH]; intros st H; simpl; [eauto|].
  inversion H as [|? ? Hop Hds]; subst. simpl in Hop; subst op.
  unfold step; simpl. destruct (edit st); simpl; now apply IH.
Qed.

(** X2.  The synthesizer returns no edit exactly when every primitive of
    the patch is an Equal: a patch of context lines alone changes nothing,
    and any Delete or Insert primitive leaves at least one edit (or makes the
    synthesizer throw). *)
Theorem no_edit_iff_all_equal
  (EOL before : str) (ds : list Diff) (startLine : Z) :
  getTextEditsInternal EOL before ds startLine = Ok [] <-> allOp DIFF_EQUAL ds.
Proof.
  unfold getTextEditsInternal. split.
  - intro H.
    destruct (loop (initialState EOL before startLine) ds) as [st|] eqn:Hl;
      simpl in H; [|discriminate].
    inversion H as [Hf]. apply finish_nil in Hf.
    rewrite (loop_busy _ _ _ Hl) in Hf. apply orb_false_iff in Hf.
    now apply changed_false.
  - intro H.
    destruct (loop_all_equal ds (initialState EOL before startLine) H) as (st & Hl).
    rewrite Hl. simpl. f_equal. apply finish_nil.
    rewrite (loop_busy _ _ _ Hl). apply changed_false in H. now rewrite H.
Qed.

(** ** What the edits carry *)

Lemma emit_texts ds : forall p pending es,
  emit p pending ds = Ok es ->
  List.concat (map text es) =
  match pending with Some e => text e | None => [] end ++
  payloads (filter isInsert ds).
Proof.
  induction ds as [|[op t] ds IH]; intros p pending es H.
  - simpl in H. unfold finish in H; simpl in H.
    destruct pending; inversion H; subst; simpl; now rewrite ?app_nil_r.
  - simpl in H. unfold step in H.
    destruct op, pending as [[[] s0 en tx]|]; simpl in H; try discriminate H;
      match type of H with
      | context [emit ?q ?pe ds] =>
          destruct (emit q pe ds) as [es'|] eqn:He; simpl in H; [|discriminate H];
          inversion H; subst; clear H; apply IH in He
      end;
      unfold isInsert; simpl; unfold payloads in *; simpl in *;
      rewrite ?He; simpl; rewrite <- ?app_assoc, ?app_nil_r; reflexivity.
Qed.

Lemma emit_length ds : forall p pending es,
  emit p pending ds = Ok es ->
  List.length es =
  ((match pending with Some _ => 1 | None => 0 end) +
   changeRuns (match pending with Some _ => true | None => false end) ds)%nat.
Proof.
  induction ds as [|[op t] ds IH]; intros p pending es H.
  - simpl in H. unfold finish in H; simpl in H.
    destruct pending; inversion H; subst; reflexivity.
  - simpl in H. unfold step in H.
    destruct op, pending as [[[] s0 en tx]|]; simpl in H; try discriminate H;
      match type of H with
      | context [emit ?q ?pe ds] =>
          destruct (emit q pe ds) as [es'|] eqn:He; simpl in H; [|discriminate H];
          inversion H; subst; clear H; apply IH in He
      end;
      simpl in *; rewrite ?length_app; simpl; lia.
Qed.

(** X3.  The texts of the returned edits, one after the other, are the
    payloads of the Insert primitives in order: no inserted text is lost,
    repeated or reordered, and no edit carries anything else. *)
Theorem edits_carry_the_inserted_text
  (EOL before : str) (ds : list Diff) (startLine : Z) (es : list Edit) :
  getTextEditsInternal EOL before ds startLine = Ok es ->
  List.concat (map text es) = payloads (filter isInsert ds).
Proof.
  rewrite getTextEditsInternal_from, synthesizeFrom_emit. intro H.
  now rewrite (emit_texts _ _ _ _ H).
Qed.

Lemma edits_carry_the_inserted_text_witness :
  List.concat (map text
    [mkEdit Replace (mkPosition 1 0) (Some (mkPosition 2 0)) (ln "y" ++ ln "z")]) =
  payloads (filter isInsert thirdLineHunk).
Proof.
  exact (edits_carry_the_inserted_text [LF] fiveLines thirdLineHunk 1 _ eq_refl).
Defined.

(** X4.  The synthesizer returns one edit per maximal run of Delete and
    Insert primitives: Equal primitives separate the edits and nothing else
    does. *)
Theorem one_edit_per_run
  (EOL before : str) (ds : list Diff) (startLine : Z) (es : list Edit) :
  getTextEditsInternal EOL before ds startLine = Ok es ->
  List.length es = changeRuns false ds.
Proof.
  rewrite getTextEditsInternal_from, synthesizeFrom_emit. intro H.
  now rewrite (emit_length _ _ _ _ H).
Qed.

Lemma one_edit_per_run_witness :
  List.length
    [mkEdit Replace (mkPosition 0 0) (Some (mkPosition 1 0)) (ln "x");
     mkEdit Delete (mkPosition 2 0) (Some (mkPosition 3 0)) []] =
  changeRuns false
    [(DIFF_DELETE, ln "a"); (DIFF_INSERT, ln "x"); (DIFF_EQUAL, ln "b");
     (DIFF_DELETE, ln "c")].
Proof.
  exact (one_edit_per_run [LF] (ln "a" ++ ln "b" ++ ln "c")
           [(DIFF_DELETE, ln "a"); (DIFF_INSERT, ln "x"); (DIFF_EQUAL, ln "b");
            (DIFF_DELETE, ln "c")] 0 _ eq_refl).
Defined.

(** ** Splitting a patch at a line of context *)

(** X5.  An Equal primitive closes the edit in progress, so a diff sequence
    can be cut in front of any Equal primitive: the edits of the whole are
    the edits of the part before it followed by the edits of the part from
    it on, synthesized from the cursor the first part ends at; and the whole
    throws exactly when one of the parts does. *)
Theorem synthesis_splits_at_equal
  (EOL before : str) (startLine : Z) (ds1 ds2 : list Diff) (t : str) :
  getTextEditsInternal EOL before (ds1 ++ (DIFF_EQUAL, t) :: ds2) startLine =
  (es1 <- getTextEditsInternal EOL before ds1 startLine ;;
   es2 <- synthesizeFrom
            (advance (cursor (initialState EOL before startLine)) (consumed ds1))
            ((DIFF_EQUAL, t) :: ds2) ;;
   Ok (es1 ++ es2)).
Proof.
  rewrite !getTextEditsInternal_from.
  set (p := cursor (initialState EOL before startLine)).
  unfold synthesizeFrom at 1 2. rewrite loop_app.
  destruct (loop (mkState p None []) ds1) as [st1|err] eqn:Hl; [|reflexivity].
  pose proof (loop_cursor _ _ _ Hl) as Hc. simpl in Hc.
  simpl bind at 1 3. rewrite synthesizeFrom_emit.
  assert (Hstep : step st1 (DIFF_EQUAL, t) =
                  Ok (mkState (advance (cursor st1) t) None (finish st1))).
  { unfold step, finish; simpl. now destruct (edit st1). }
  simpl loop. rewrite Hstep. simpl bind at 2.
  pose proof (loop_emit ds2 (mkState (advance (cursor st1) t) None (finish st1))) as He.
  simpl in He. unfold bind in He |- *. rewrite He.
  simpl. unfold step; simpl. rewrite <- Hc.
  destruct (emit (advance (cursor st1) t) None ds2); reflexivity.
Qed.

(** ** Several hunks *)

Lemma forEachPatch_acc EOL before ps : forall acc,
  forEachPatch EOL before ps acc =
  (ts <- forEachPatch EOL before ps [] ;; Ok (acc ++ ts)).
Proof.
  induction ps as [|p ps IH]; intro acc; simpl.
  - now rewrite app_nil_r.
  - destruct (getTextEditsInternal EOL before (map (addLineFeed EOL) (diffs p)) (start1 p))
      as [es|]; simpl; [|reflexivity].
    destruct (applyAll es) as [ts|]; simpl; [|reflexivity].
    rewrite (IH (acc ++ ts)), (IH ts).
    destruct (forEachPatch EOL before ps []); simpl; [|reflexivity].
    now rewrite app_assoc.
Qed.

Lemma forEachPatch_cons EOL before p ps :
  forEachPatch EOL before (p :: ps) [] =
  (t1 <- patchEdits EOL before p ;;
   ts <- forEachPatch EOL before ps [] ;; Ok (t1 ++ ts)).
Proof.
  simpl. unfold patchEdits.
  destruct (getTextEditsInternal EOL before (map (addLineFeed EOL) (diffs p)) (start1 p))
    as [es|]; simpl; [|reflexivity].
  destruct (applyAll es) as [ts|]; simpl; [|reflexivity].
  apply forEachPatch_acc.
Qed.

(** X6.  The hunks of a patch are synthesized one by one against the same
    original text and their text edits are returned in hunk order; the call
    throws as soon as one hunk throws, and then no edit of any hunk is
    returned. *)
Theorem hunks_are_independent (EOL before : str) (ps1 ps2 : list Patch) :
  forEachPatch EOL before (ps1 ++ ps2) [] =
  (t1 <- forEachPatch EOL before ps1 [] ;;
   t2 <- forEachPatch EOL before ps2 [] ;;
   Ok (t1 ++ t2)).
Proof.
  induction ps1 as [|p ps1 IH].
  - simpl. now destruct (forEachPatch EOL before ps2 []).
  - rewrite <- app_comm_cons, !forEachPatch_cons, IH.
    destruct (patchEdits EOL before p) as [t0|]; simpl; [|reflexivity].
    destruct (forEachPatch EOL before ps1 []) as [t1|]; simpl; [|reflexivity].
    destruct (forEachPatch EOL before ps2 []) as [t2|]; simpl; [|reflexivity].
    now rewrite app_assoc.
Qed.

(** The edits of a hunk followed by later edits [R]: what [emit_apply] says
    of a hunk alone, with the text after the hunk rewritten by [R]. *)
Lemma emit_apply_then rest doc C R r :
  doc = C ++ rest ->
  (forall L' G', L' ++ G' = C -> applyFrom doc (List.length L') R = Some (G' ++ r)) ->
  forall ds L G M pending es,
    C = L ++ G ++ M ++ consumed ds ->
    pendingOK pending (L ++ G) M ->
    emit (posOf ((L ++ G) ++ M)) pending ds = Ok es ->
    exists tes,
      applyAll es = Ok tes /\
      applyFrom doc (List.length L) (tes ++ R) =
        Some (G ++ pendingText pending M ++ produced ds ++ r).
Proof.
  intros Hdoc HK.
  induction ds as [|[op t] ds IH]; intros L G M pending es Hc Hok Hemit.
  - simpl in Hemit. unfold finish in Hemit; simpl in Hemit.
    change (consumed []) with (@nil ascii) in Hc. rewrite app_nil_r in Hc.
    destruct pending as [e|]; inversion Hemit; subst es; clear Hemit.
    + destruct (apply_pending _ _ _ Hok) as (te & Ha & Hs & He & Ht).
      exists [te]. split; [simpl; now rewrite Ha|].
      rewrite <- Ht.
      replace (newText te ++ produced [] ++ r) with (newText te ++ r) by reflexivity.
      apply (applyFrom_head doc L G M rest te R r); auto.
      * rewrite Hdoc, Hc. now rewrite <- ?app_assoc.
      * rewrite (HK ((L ++ G) ++ M) []); [reflexivity|].
        rewrite app_nil_r, Hc. now rewrite <- ?app_assoc.
    + exists []. split; [reflexivity|]. simpl app.
      rewrite (HK L (G ++ M)) by (rewrite Hc; now rewrite <- ?app_assoc).
      simpl. now rewrite <- ?app_assoc.
  - simpl in Hemit. rewrite consumed_cons in Hc. rewrite produced_cons.
    destruct op; cbn [isInsert isDelete Op_eqb fst snd] in *.
    + (* Delete *)
      destruct pending as [[[] s en tx]|]; unfold step in Hemit; simpl in Hemit;
        try discriminate Hemit.
      * rewrite posOf_app, <- (app_assoc (L ++ G) M t) in Hemit.
        destruct (emit _ _ ds) as [es'|] eqn:He; simpl in Hemit; [|discriminate].
        inversion Hemit; subst es; clear Hemit.
        destruct Hok as (Hs & Hen & Htx); simpl in *.
        pose proof (fun H1 H2 => IH L G (M ++ t) _ es' H1 H2 He) as IH'.
        destruct IH' as (tes & Ha & Hr).
        -- rewrite Hc. now rewrite <- ?app_assoc.
        -- simpl. repeat split; auto.
        -- exists tes. split; auto.
      * rewrite posOf_app in Hemit.
        replace (((L ++ G) ++ M) ++ t) with ((L ++ G ++ M) ++ t) in Hemit
          by now rewrite <- ?app_assoc.
        destruct (emit _ _ ds) as [es'|] eqn:He; simpl in Hemit; [|discriminate].
        inversion Hemit; subst es; clear Hemit.
        pose proof (fun H1 H2 => IH L (G ++ M) t _ es' H1 H2 He) as IH'.
        destruct IH' as (tes & Ha & Hr).
        -- rewrite Hc. now rewrite <- ?app_assoc.
        -- simpl. repeat split; auto; now rewrite <- ?app_assoc.
        -- exists tes. split; auto. simpl in Hr |- *. rewrite Hr. f_equal.
           now rewrite <- ?app_assoc.
    + (* Insert *)
      unfold step in Hemit; simpl in Hemit.
      destruct pending as [[[] s en tx]|]; simpl in Hemit.
      * destruct (emit _ _ ds) as [es'|] eqn:He; simpl in Hemit; [|discriminate].
        inversion Hemit; subst es; clear Hemit.
        destruct Hok as (Hs & Hen & Htx); simpl in *.
        pose proof (fun H1 H2 => IH L G M _ es' H1 H2 He) as IH'.
        destruct IH' as (tes & Ha & Hr); [assumption | now split |].
        exists tes. split; auto. simpl in Hr |- *. rewrite Hr, Htx. simpl.
        now rewrite <- ?app_assoc.
      * destruct (emit _ _ ds) as [es'|] eqn:He; simpl in Hemit; [|discriminate].
        inversion Hemit; subst es; clear Hemit.
        pose proof (fun H1 H2 => IH L G M _ es' H1 H2 He) as IH'.
        destruct IH' as (tes & Ha & Hr); [assumption | exact Hok |].
        exists tes. split; auto. simpl in Hr |- *. rewrite Hr.
        now rewrite <- ?app_assoc.
      * destruct (emit _ _ ds) as [es'|] eqn:He; simpl in Hemit; [|discriminate].
        inversion Hemit; subst es; clear Hemit.
        pose proof (fun H1 H2 => IH L G M _ es' H1 H2 He) as IH'.
        destruct IH' as (tes & Ha & Hr); [assumption | exact Hok |].
        exists tes. split; auto. simpl in Hr |- *. rewrite Hr.
        now rewrite <- ?app_assoc.
      * replace ((L ++ G) ++ M) with ((L ++ G ++ M) ++ []) in Hemit
          by now rewrite app_nil_r, <- ?app_assoc.
        destruct (emit _ _ ds) as [es'|] eqn:He; simpl in Hemit; [|discriminate].
        inversion Hemit; subst es; clear Hemit.
        pose proof (fun H1 H2 => IH L (G ++ M) [] _ es' H1 H2 He) as IH'.
        destruct IH' as (tes & Ha & Hr).
        -- rewrite Hc. now rewrite <- ?app_assoc.
        -- simpl. split; auto. now rewrite app_nil_r.
        -- exists tes. split; auto. simpl in Hr |- *. rewrite Hr. f_equal.
           now rewrite <- ?app_assoc.
    + (* Equal *)
      unfold step in Hemit; simpl in Hemit. rewrite posOf_app in Hemit.
      destruct pending as [e|]; simpl in Hemit.
      * replace (((L ++ G) ++ M) ++ t) with (((((L ++ G) ++ M)) ++ []) ++ t) in Hemit
          by now rewrite app_nil_r.
        destruct (emit _ _ ds) as [es'|] eqn:He; simpl in Hemit; [|discriminate].
        inversion Hemit; subst es; clear Hemit.
        pose proof (fun H1 H2 => IH ((L ++ G) ++ M) [] t _ es' H1 H2 He) as IH'.
        destruct IH' as (tes & Ha & Hr).
        -- rewrite Hc. now rewrite <- ?app_assoc.
        -- exact I.
        -- destruct (apply_pending _ _ _ Hok) as (te & Hae & Hs & Hen & Ht).
           exists (te :: tes). split; [simpl; now rewrite Hae, Ha|].
           rewrite <- Ht.
           replace (newText te ++ (t ++ produced ds) ++ r)
             with (newText te ++ [] ++ pendingText None t ++ produced ds ++ r)
             by (simpl; now rewrite <- ?app_assoc).
           apply (applyFrom_head doc L G M ((t ++ consumed ds) ++ rest) te (tes ++ R)); auto.
           rewrite Hdoc, Hc. now rewrite <- ?app_assoc.
      * rewrite <- (app_assoc (L ++ G) M t) in Hemit.
        destruct (emit _ _ ds) as [es'|] eqn:He; simpl in Hemit; [|discriminate].
        inversion Hemit; subst es; clear Hemit.
        pose proof (fun H1 H2 => IH L G (M ++ t) _ es' H1 H2 He) as IH'.
        destruct IH' as (tes & Ha & Hr).
        -- rewrite Hc. now rewrite <- ?app_assoc.
        -- exact I.
        -- exists tes. split; auto. simpl in Hr |- *. rewrite Hr.
           now rewrite <- ?app_assoc.
Qed.

Lemma emit_initial EOL before startLine pre ds :
  posOf pre = mkPosition startLine 0 ->
  startLine = 0 \/ opensWithContext ds ->
  emit (cursor (initialState EOL before startLine)) None ds = emit (posOf pre) None ds.
Proof.
  intros Hpre [-> | (t & ds' & -> & Hin)].
  - now rewrite Hpre.
  - simpl. unfold step; simpl.
    now rewrite (advance_reset t startLine _ 0 Hin), Hpre.
Qed.

Lemma layout_apply EOL doc done todo ps r :
  Layout EOL done todo ps r ->
  doc = done ++ todo ->
  exists tes,
    forEachPatch EOL doc ps [] = Ok tes /\
    forall L G, L ++ G = done ->
      applyFrom doc (List.length L) tes = Some (G ++ r).
Proof.
  induction 1 as [done todo | done gap todo' p ps r Hpos Hwf Hstart Hlay IH];
    intro Hdoc.
  - exists []. split; [reflexivity|]. intros L G <-. simpl. f_equal.
    rewrite Hdoc, <- app_assoc. apply skipn_length_app.
  - set (ds := map (addLineFeed EOL) (diffs p)) in *.
    destruct IH as (tes2 & Hf2 & HK2).
    { rewrite Hdoc. now rewrite <- ?app_assoc. }
    destruct (proj2 (synthesizeFrom_ok_iff (cursor (initialState EOL doc (start1 p))) ds) Hwf)
      as (es & Hes).
    assert (Hem : emit (posOf (done ++ gap)) None ds = Ok es).
    { rewrite <- (emit_initial EOL doc (start1 p) (done ++ gap) ds Hpos Hstart).
      now rewrite <- synthesizeFrom_emit. }
    assert (Hhunk : forall L G, L ++ G = done ->
              exists tes1, applyAll es = Ok tes1 /\
                applyFrom doc (List.length L) (tes1 ++ tes2) =
                  Some (G ++ gap ++ produced ds ++ r)).
    { intros L G HLG.
      destruct (emit_apply_then todo' doc (done ++ gap ++ consumed ds) tes2 r)
        with (ds := ds) (L := L) (G := G ++ gap) (M := @nil ascii)
             (pending := @None Edit) (es := es)
        as (tes1 & Ha & Hr).
      - rewrite Hdoc. now rewrite <- ?app_assoc.
      - exact HK2.
      - rewrite <- HLG. simpl. now rewrite <- ?app_assoc.
      - exact I.
      - rewrite app_nil_r, app_assoc, HLG. exact Hem.
      - exists tes1. split; [assumption|]. rewrite Hr. simpl.
        now rewrite <- ?app_assoc. }
    destruct (Hhunk [] done eq_refl) as (tes1 & Ha1 & _).
    exists (tes1 ++ tes2). split.
    + rewrite forEachPatch_cons. unfold patchEdits. fold ds.
      rewrite getTextEditsInternal_from, Hes. simpl. rewrite Ha1. simpl.
      now rewrite Hf2.
    + intros L G HLG. destruct (Hhunk L G HLG) as (tes1' & Ha1' & Hr).
      rewrite Ha1 in Ha1'. inversion Ha1'; subst tes1'. exact Hr.
Qed.

(** X7.  Round trip of the whole pipeline.  When the patch text parses to
    hunks that lie in the document one after the other (each at the start of
    its line [start1], over the text of its Equal and Delete lines, with no
    '-' line directly after a '+' line, and starting at line 0 or opening
    with a line of context), [getTextEditsFromPatch] returns text edits, and
    applying them to the original document replaces every hunk by the text
    of its Equal and Insert lines and leaves everything between and around
    the hunks as it was. *)
Theorem pipeline_roundtrip
  (EOL before patch : str) (ps : list Patch) (result : str) :
  stripFileHeader patch <> [] ->
  patch_fromText (removeMarker (stripFileHeader patch)) = Ok ps ->
  ps <> [] ->
  Layout EOL [] before ps result ->
  exists tes,
    getTextEditsFromPatch EOL before patch = Ok tes /\
    applyEdits before tes = Some result.
Proof.
  intros Hne Hparse Hps Hlay.
  destruct (layout_apply EOL before [] before ps result Hlay eq_refl)
    as (tes & Hf & HK).
  exists tes. split.
  - unfold getTextEditsFromPatch.
    destruct (stripFileHeader patch) as [|c s]; [congruence|].
    rewrite Hparse. simpl. destruct ps; [congruence | exact Hf].
  - unfold applyEdits. exact (HK [] [] eq_refl).
Qed.

Lemma pipeline_roundtrip_witness :
  exists tes,
    getTextEditsFromPatch [LF] tenLines twoHunkPatch = Ok tes /\
    applyEdits tenLines tes = Some tenLinesPatched.
Proof.
  apply (pipeline_roundtrip [LF] tenLines twoHunkPatch twoHunks tenLinesPatched).
  - discriminate.
  - reflexivity.
  - discriminate.
  - refine (Layout_cons [LF] [] []
              (ln "e" ++ ln "f" ++ ln "g" ++ ln "h" ++ ln "i" ++ ln "j")
              (hd (mkPatch [] 0 0 0 0) twoHunks) (tl twoHunks)
              (ln "e" ++ ln "f" ++ ln "g" ++ ln "h" ++ ln "I" ++ ln "I2" ++ ln "j")
              eq_refl _ (or_introl eq_refl) _).
    + apply deleteAfter_false. reflexivity.
    + refine (Layout_cons [LF] (ln "a" ++ ln "b" ++ ln "c" ++ ln "d")
                (ln "e" ++ ln "f") [] (hd (mkPatch [] 0 0 0 0) (tl twoHunks)) [] []
                eq_refl _ (or_intror _) (Layout_nil [LF] _ [])).
      * apply deleteAfter_false. reflexivity.
      * exists (ln "g"), (map (addLineFeed [LF]) (tl (diffs (hd (mkPatch [] 0 0 0 0) (tl twoHunks))))).
        split; [reflexivity | simpl; auto].
Defined.

(** ** Errors of the pipeline *)

Lemma contentLines_throw ls : forall e, contentLines ls = Throw e -> isParseError e.
Proof.
  induction ls as [|[|sign line] rest IH]; intros e H.
  - discriminate H.
  - now apply IH.
  - cbn [contentLines] in H.
    destruct (Ascii.eqb sign "-"%char);
      [destruct (contentLines rest); simpl in H; [discriminate | inversion H; subst; now apply IH]|].
    destruct (Ascii.eqb sign "+"%char);
      [destruct (contentLines rest); simpl in H; [discriminate | inversion H; subst; now apply IH]|].
    destruct (Ascii.eqb sign " "%char);
      [destruct (contentLines rest); simpl in H; [discriminate | inversion H; subst; now apply IH]|].
    destruct (Ascii.eqb sign "@"%char); [|inversion H; exact I].
    destruct (patchHeader (sign :: line)); [|inversion H; exact I].
    destruct (contentLines rest); simpl in H; [discriminate | inversion H; subst; now apply IH].
Qed.

Lemma patch_fromText_throw textline e :
  patch_fromText textline = Throw e -> isParseError e.
Proof.
  destruct textline as [|c s]; [discriminate|].
  unfold patch_fromText. rewrite patchLoop_hunks.
  destruct (splitCRorLF_cons (c :: s)) as (h & tl & ->). unfold hunks.
  destruct (patchHeader h); [|intro H; inversion H; exact I].
  destruct (contentLines tl) as [r|e'] eqn:Hc; simpl; [discriminate|].
  intro H; inversion H; subst. now apply contentLines_throw in Hc.
Qed.

Lemma patch_fromText_nil textline :
  patch_fromText textline = Ok [] -> textline = [].
Proof.
  destruct textline as [|c s]; [reflexivity|].
  unfold patch_fromText. rewrite patchLoop_hunks.
  destruct (splitCRorLF_cons (c :: s)) as (h & tl & ->). unfold hunks.
  destruct (patchHeader h); [|discriminate].
  destruct (contentLines tl); simpl; discriminate.
Qed.

Lemma removeMarker_eq s :
  removeMarker s =
  match stripPrefix noNewlineMarker s with
  | Some (c :: rest) =>
      if isSeparator c then rest
      else match s with [] => [] | x :: s' => x :: removeMarker s' end
  | _ => match s with [] => [] | x :: s' => x :: removeMarker s' end
  end.
Proof. destruct s; reflexivity. Qed.

Lemma removeMarker_nil s :
  removeMarker s = [] <->
  s = [] \/ exists c, isSeparator c = true /\ s = noNewlineMarker ++ [c].
Proof.
  rewrite removeMarker_eq. split.
  - destruct (stripPrefix noNewlineMarker s) as [[|c rest]|] eqn:Hp;
      try (destruct s; [auto | discriminate]).
    destruct (isSeparator c) eqn:Hc; [|destruct s; [auto | discriminate]].
    intros ->. right. exists c. split; [assumption|].
    now apply stripPrefix_Some in Hp.
  - intros [-> | (c & Hc & ->)]; [reflexivity|].
    now rewrite stripPrefix_app, Hc.
Qed.

Lemma deleteAfter_map EOL ds : forall b,
  deleteAfter b (map (addLineFeed EOL) ds) = deleteAfter b ds.
Proof.
  induction ds as [|[op t] ds IH]; intro b; [reflexivity|].
  destruct op; simpl; now rewrite IH.
Qed.

Lemma DeleteAfterInsert_map EOL ds :
  DeleteAfterInsert (map (addLineFeed EOL) ds) <-> DeleteAfterInsert ds.
Proof.
  pose proof (deleteAfter_spec (map (addLineFeed EOL) ds) false) as H1.
  pose proof (deleteAfter_spec ds false) as H2.
  rewrite deleteAfter_map in H1.
  split; intro H.
  - destruct (proj1 H2 (proj2 H1 (or_intror H))) as [(Hf & _) | Hd];
      [discriminate | assumption].
  - destruct (proj1 H1 (proj2 H2 (or_intror H))) as [(Hf & _) | Hd];
      [discriminate | assumption].
Qed.

Lemma synth_editOK p ds es : synthesizeFrom p ds = Ok es -> Forall editOK es.
Proof.
  unfold synthesizeFrom. intro H.
  destruct (loop (mkState p None []) ds) as [st|] eqn:Hl; simpl in H; [|discriminate].
  inversion H; subst. eapply loop_editOK; [exact Hl | constructor].
Qed.

Lemma patchEdits_cases EOL before p :
  (patchEdits EOL before p = Throw InternalError /\ DeleteAfterInsert (diffs p)) \/
  (exists tes, patchEdits EOL before p = Ok tes /\ ~ DeleteAfterInsert (diffs p)).
Proof.
  unfold patchEdits. rewrite getTextEditsInternal_from.
  set (c := cursor (initialState EOL before (start1 p))).
  set (ds := map (addLineFeed EOL) (diffs p)).
  destruct (synthesizeFrom c ds) as [es|err] eqn:Hs.
  - right. cbn [bind]. rewrite (applyAll_editOK es (synth_editOK _ _ _ Hs)).
    eexists; split; [reflexivity|].
    rewrite <- (DeleteAfterInsert_map EOL).
    apply (proj1 (synthesizeFrom_ok_iff c ds)). eauto.
  - left.
    assert (err = InternalError).
    { unfold synthesizeFrom in Hs.
      destruct (loop (mkState c None []) ds) eqn:Hl; simpl in Hs; [discriminate|].
      inversion Hs; subst. now apply loop_throw in Hl. }
    subst err. split; [reflexivity|].
    rewrite <- (DeleteAfterInsert_map EOL).
    now apply (proj1 (synthesizeFrom_throw_iff c ds)).
Qed.

Lemma forEachPatch_throw EOL before ps : forall e,
  forEachPatch EOL before ps [] = Throw e <->
  e = InternalError /\ Exists (fun p => DeleteAfterInsert (diffs p)) ps.
Proof.
  induction ps as [|p ps IH]; intro e.
  - simpl. split; [discriminate|]. intros (_ & H). inversion H.
  - rewrite forEachPatch_cons.
    destruct (patchEdits_cases EOL before p) as [(Ht & Hd) | (tes & Ht & Hd)];
      rewrite Ht; simpl.
    + split.
      * intro H; inversion H; subst. split; [reflexivity | now constructor].
      * intros (-> & _). reflexivity.
    + destruct (forEachPatch EOL before ps []) as [ts|e'] eqn:Hf; simpl.
      * split; [discriminate|]. intros (-> & H).
        inversion H as [? ? Hx | ? ? Hx]; subst; [contradiction|].
        assert (Hc : @Throw (list TextEdit) InternalError = Throw InternalError) by reflexivity.
        pose proof (proj2 (IH InternalError) (conj eq_refl Hx)). discriminate.
      * split.
        -- intro H; inversion H; subst.
           destruct (proj1 (IH e) eq_refl) as (-> & Hx).
           split; [reflexivity | now constructor 2].
        -- intros (-> & H).
           inversion H as [? ? Hx | ? ? Hx]; subst; [contradiction|].
           now rewrite (proj2 (IH InternalError) (conj eq_refl Hx)).
Qed.

(** X8.  [getTextEditsFromPatch] throws 'Unable to parse Patch string'
    exactly when the patch text, once its file header is stripped, is the
    end-of-file marker followed by one line terminator and nothing else: only
    then is the text empty when it reaches the parser. *)
Theorem unable_to_parse_iff_marker_alone (EOL before patch : str) :
  getTextEditsFromPatch EOL before patch = Throw UnableToParse <->
  exists c, isSeparator c = true /\ stripFileHeader patch = noNewlineMarker ++ [c].
Proof.
  unfold getTextEditsFromPatch. split.
  - destruct (stripFileHeader patch) as [|x s] eqn:Hp; [discriminate|].
    destruct (patch_fromText (removeMarker (x :: s))) as [ps|e] eqn:Hparse; simpl.
    + destruct ps as [|q ps].
      * intros _. apply patch_fromText_nil in Hparse.
        apply removeMarker_nil in Hparse.
        destruct Hparse as [Hn | H]; [discriminate | exact H].
      * intro H. apply forEachPatch_throw in H. destruct H as (H & _). discriminate.
    + intro H. inversion H; subst. now apply patch_fromText_throw in Hparse.
  - intros (c & Hc & ->).
    assert (Hr : removeMarker (noNewlineMarker ++ [c]) = []).
    { apply removeMarker_nil. right. eauto. }
    change (noNewlineMarker ++ [c]) with
      ("\"%char :: tl noNewlineMarker ++ [c]) in *.
    cbv beta iota. rewrite Hr. reflexivity.
Qed.

(** X9.  [getTextEditsFromPatch] throws the internal error exactly when
    the patch text parses and some hunk has a '-' line after a '+' line with
    no ' ' line between the two; the errors of the parser come first.  It
    never throws from [Range.create]: every edit it synthesizes can be
    materialized. *)
Theorem internal_error_iff_delete_after_insert (EOL before patch : str) :
  (getTextEditsFromPatch EOL before patch = Throw InternalError <->
   stripFileHeader patch <> [] /\
   exists ps,
     patch_fromText (removeMarker (stripFileHeader patch)) = Ok ps /\
     Exists (fun p => DeleteFollowsInsert (diffs p)) ps) /\
  getTextEditsFromPatch EOL before patch <> Throw InvalidRange.
Proof.
  unfold getTextEditsFromPatch.
  destruct (stripFileHeader patch) as [|x s] eqn:Hp.
  - split; [|discriminate]. split; [discriminate | intros (H & _); congruence].
  - destruct (patch_fromText (removeMarker (x :: s))) as [ps|e] eqn:Hparse; simpl.
    + destruct ps as [|q ps].
      * split; [|discriminate]. split; [discriminate|].
        intros (_ & ps & Hps & Hex). inversion Hps; subst. inversion Hex.
      * split.
        -- rewrite forEachPatch_throw. split.
           ++ intros (_ & Hex). split; [discriminate|].
              exists (q :: ps). split; [reflexivity|].
              eapply Exists_impl; [|exact Hex].
              intros a Ha. now apply DeleteFollowsInsert_iff.
           ++ intros (_ & ps' & Hps & Hex). inversion Hps; subst ps'.
              split; [reflexivity|].
              eapply Exists_impl; [|exact Hex].
              intros a Ha. now apply DeleteFollowsInsert_iff.
        -- intro H. apply forEachPatch_throw in H. destruct H as (H & _). discriminate.
    + apply patch_fromText_throw in Hparse.
      split.
      * split.
        -- intro H; inversion H; subst. contradiction.
        -- intros (_ & ps & Hps & _). discriminate.
      * intro H; inversion H; subst. contradiction.
Qed.

(** ** The file header *)

Lemma notBefore_tail p x a rest : notBefore p (x :: a) rest -> notBefore p a rest.
Proof.
  intros H a1 a2 Ha Hne. apply (H (x :: a1) a2); [now rewrite Ha | assumption].
Qed.

Lemma suffixFrom_eq p s :
  suffixFrom p s =
  if startsWith s p then Some s
  else match s with [] => None | _ :: s' => suffixFrom p s' end.
Proof. destruct s; reflexivity. Qed.

Lemma startsWith_app p s : startsWith (p ++ s) p = true.
Proof. unfold startsWith. now rewrite stripPrefix_app. Qed.

Lemma suffixFrom_first p a : forall rest,
  notBefore p a (p ++ rest) -> suffixFrom p (a ++ p ++ rest) = Some (p ++ rest).
Proof.
  induction a as [|x a IH]; intros rest H.
  - simpl app. rewrite suffixFrom_eq. now rewrite startsWith_app.
  - rewrite suffixFrom_eq.
    rewrite (H [] (x :: a) eq_refl) by discriminate.
    simpl app. apply IH. eapply notBefore_tail; eauto.
Qed.

Lemma suffixFrom_none p s :
  (forall a b, s <> a ++ p ++ b) -> suffixFrom p s = None.
Proof.
  induction s as [|x s IH]; intro H; rewrite suffixFrom_eq.
  - destruct (startsWith [] p) eqn:E; [|reflexivity].
    unfold startsWith in E. destruct (stripPrefix p []) as [r|] eqn:Hp; [|discriminate].
    apply stripPrefix_Some in Hp. exfalso. apply (H [] r). exact Hp.
  - destruct (startsWith (x :: s) p) eqn:E.
    + unfold startsWith in E. destruct (stripPrefix p (x :: s)) as [r|] eqn:Hp; [|discriminate].
      apply stripPrefix_Some in Hp. exfalso. apply (H [] r). exact Hp.
    + apply IH. intros a b Hs. apply (H (x :: a) b). now rewrite Hs.
Qed.

Lemma first_line_minus s :
  exists h tl, splitCRorLF ("-"%char :: s) = ("-"%char :: h) :: tl.
Proof.
  simpl. destruct (splitCRorLF_cons s) as (h & tl & ->). eauto.
Qed.

(** X10.  The file header.  A patch that does not start with "---" is
    handed on whole.  A patch that starts with "---" is handed on from its
    first "@@" on, whatever stands before it; when it holds no "@@" it is
    handed on whole, and the pipeline then throws 'Invalid patch string' on
    its first line. *)
Theorem file_header_stripped_to_first_hunk (EOL before patch : str) :
  (startsWith patch (lit "---") = false -> stripFileHeader patch = patch) /\
  (startsWith patch (lit "---") = true ->
   forall a rest,
     patch = a ++ lit "@@" ++ rest -> notBefore (lit "@@") a (lit "@@" ++ rest) ->
     stripFileHeader patch = lit "@@" ++ rest) /\
  (startsWith patch (lit "---") = true ->
   (forall a b, patch <> a ++ lit "@@" ++ b) ->
   stripFileHeader patch = patch /\
   exists l, getTextEditsFromPatch EOL before patch = Throw (InvalidPatchString l)).
Proof.
  unfold stripFileHeader, substringFromIndexOf. split; [|split].
  - now intros ->.
  - intros -> a rest -> Hn. now rewrite suffixFrom_first.
  - intros Hs Hno. rewrite Hs, (suffixFrom_none _ _ Hno). split; [reflexivity|].
    unfold getTextEditsFromPatch, stripFileHeader, substringFromIndexOf.
    rewrite Hs, (suffixFrom_none _ _ Hno).
    destruct patch as [|c s]; [discriminate|].
    unfold startsWith in Hs. cbn [stripPrefix lit list_ascii_of_string] in Hs.
    destruct (Ascii.eqb "-"%char c) eqn:E; [|discriminate].
    apply Ascii.eqb_eq in E. subst c.
    assert (Hr : removeMarker ("-"%char :: s) = "-"%char :: removeMarker s) by reflexivity.
    rewrite Hr. unfold patch_fromText. rewrite patchLoop_hunks.
    destruct (first_line_minus (removeMarker s)) as (h & tl & ->).
    exists ("-"%char :: h). reflexivity.
Qed.

Lemma notBeforeb_true p a rest : notBeforeb p a rest = true -> notBefore p a rest.
Proof.
  induction a as [|x a IH]; intros H a1 a2 Ha Hne.
  - destruct a1; [simpl in Ha; congruence | discriminate].
  - simpl in H. apply andb_true_iff in H. destruct H as (Hx & Hrest).
    destruct a1 as [|y a1]; simpl in Ha.
    + subst a2. now apply negb_true_iff in Hx.
    + inversion Ha; subst. now apply (IH Hrest a1 a2).
Qed.

Lemma file_header_stripped_to_first_hunk_witness :
  stripFileHeader twoHunkPatch =
  lit "@@" ++ skipn 2 (skipn (List.length (ln "--- old" ++ ln "+++ new")) twoHunkPatch).
Proof.
  apply (proj1 (proj2 (file_header_stripped_to_first_hunk [LF] [] twoHunkPatch)) eq_refl
           (ln "--- old" ++ ln "+++ new")); [reflexivity|].
  apply notBeforeb_true. reflexivity.
Defined.

(** ** The end-of-file marker, in general *)

Lemma removeMarker_step s :
  removeMarker s =
  if markerAt s
  then skipn (S (List.length noNewlineMarker)) s
  else match s with [] => [] | x :: s' => x :: removeMarker s' end.
Proof.
  rewrite removeMarker_eq. unfold markerAt.
  destruct (stripPrefix noNewlineMarker s) as [[|c rest]|] eqn:Hp; try reflexivity.
  destruct (isSeparator c); [|reflexivity].
  apply stripPrefix_Some in Hp. subst s.
  change (S (List.length noNewlineMarker)) with (1 + List.length noNewlineMarker)%nat.
  rewrite <- skipn_skipn, skipn_length_app. reflexivity.
Qed.

Lemma noMarkerIn_tail x a rest : noMarkerIn (x :: a) rest -> noMarkerIn a rest.
Proof.
  intros H a1 a2 Ha Hne. apply (H (x :: a1) a2); [now rewrite Ha | assumption].
Qed.

Lemma removeMarker_skips a : forall rest,
  noMarkerIn a rest -> removeMarker (a ++ rest) = a ++ removeMarker rest.
Proof.
  induction a as [|x a IH]; intros rest H; [reflexivity|].
  rewrite removeMarker_step.
  rewrite (H [] (x :: a) eq_refl) by discriminate.
  simpl. f_equal. apply IH. eapply noMarkerIn_tail; eauto.
Qed.

(** X11.  The marker is removed where it first stands, with the one line
    terminator after it, wherever that is in the text: the text before it and
    the text after it are joined as they are, so the text after it keeps any
    further marker.  A text in which the marker stands nowhere before a
    terminator is handed on unchanged. *)
Theorem first_marker_removed (a b : str) (c : ascii) :
  (isSeparator c = true ->
   noMarkerIn a (noNewlineMarker ++ c :: b) ->
   removeMarker (a ++ noNewlineMarker ++ c :: b) = a ++ b) /\
  (noMarkerIn a [] -> removeMarker a = a).
Proof.
  split.
  - intros Hc Hno. rewrite (removeMarker_skips _ _ Hno). f_equal.
    rewrite removeMarker_eq, stripPrefix_app, Hc. reflexivity.
  - intro Hno. pose proof (removeMarker_skips a [] Hno) as H.
    change (removeMarker []) with (@nil ascii) in H.
    now rewrite !app_nil_r in H.
Qed.

Lemma noMarkerIn_no_backslash a rest :
  ~ In "\"%char a -> noMarkerIn a rest.
Proof.
  intros Hno a1 a2 Ha Hne.
  destruct a2 as [|x a2]; [congruence|].
  unfold markerAt. cbn [app noNewlineMarker lit list_ascii_of_string stripPrefix].
  destruct (Ascii.eqb_spec "\"%char x) as [<- | Hx]; [|reflexivity].
  exfalso. apply Hno. rewrite Ha. apply in_or_app. right. now left.
Qed.

Lemma first_marker_removed_witness :
  removeMarker
    ((ln "@@ -1 +1 @@" ++ ln "-a") ++ noNewlineMarker ++
     LF :: (ln "+b" ++ ln "\ No newline at end of file")) =
  (ln "@@ -1 +1 @@" ++ ln "-a") ++ (ln "+b" ++ ln "\ No newline at end of file").
Proof.
  apply (proj1 (first_marker_removed (ln "@@ -1 +1 @@" ++ ln "-a")
                  (ln "+b" ++ ln "\ No newline at end of file") LF) eq_refl).
  apply noMarkerIn_no_backslash.
  intro H. repeat (destruct H as [H | H]; [discriminate H|]). exact H.
Defined.

(** ** Line terminators of the patch text *)

Lemma splitCRorLF_line l : forall c rest,
  oneLine l = true -> isSeparator c = true ->
  splitCRorLF (l ++ c :: rest) = l :: splitCRorLF rest.
Proof.
  induction l as [|x l IH]; intros c rest Hl Hc.
  - simpl. unfold isSeparator in Hc. now rewrite Hc.
  - simpl in Hl. apply andb_true_iff in Hl. destruct Hl as (Hx & Hl).
    apply negb_true_iff in Hx. unfold isSeparator in Hx.
    simpl. rewrite Hx, (IH c rest Hl Hc). reflexivity.
Qed.

Lemma splitCRorLF_joinLF ls :
  Forall (fun l => oneLine l = true) ls ->
  splitCRorLF (joinLines [LF] ls) = ls ++ [[]].
Proof.
  induction 1 as [|l ls Hl Hls IH]; [reflexivity|].
  unfold joinLines in *. simpl. rewrite <- app_assoc. simpl.
  now rewrite splitCRorLF_line, IH.
Qed.

Lemma splitCRorLF_joinCR ls :
  Forall (fun l => oneLine l = true) ls ->
  splitCRorLF (joinLines [CR] ls) = ls ++ [[]].
Proof.
  induction 1 as [|l ls Hl Hls IH]; [reflexivity|].
  unfold joinLines in *. simpl. rewrite <- app_assoc. simpl.
  now rewrite splitCRorLF_line, IH.
Qed.

Lemma splitCRorLF_joinCRLF ls :
  Forall (fun l => oneLine l = true) ls ->
  splitCRorLF (joinLines [CR; LF] ls) = flat_map (fun l => [l; []]) ls ++ [[]].
Proof.
  induction 1 as [|l ls Hl Hls IH]; [reflexivity|].
  unfold joinLines in *. simpl. rewrite <- app_assoc. simpl.
  rewrite splitCRorLF_line by auto.
  change (LF :: List.concat (map (fun l0 => l0 ++ [CR; LF]) ls))
    with ([] ++ LF :: List.concat (map (fun l0 => l0 ++ [CR; LF]) ls)).
  rewrite splitCRorLF_line by auto. now rewrite IH.
Qed.

Lemma contentLines_cong l X Y :
  contentLines X = contentLines Y -> contentLines (l :: X) = contentLines (l :: Y).
Proof.
  intro H. destruct l as [|sign line]; simpl; [exact H|]. now rewrite H.
Qed.

Lemma contentLines_blank ls : forall tail,
  contentLines (flat_map (fun l => [l; []]) ls ++ tail) = contentLines (ls ++ tail).
Proof.
  induction ls as [|l ls IH]; intro tail; [reflexivity|].
  simpl. apply contentLines_cong. simpl. apply IH.
Qed.

Lemma patch_fromText_hunks text :
  text <> [] -> patch_fromText text = hunks (splitCRorLF text).
Proof.
  destruct text; [congruence|]. intros _. apply patchLoop_hunks.
Qed.

Lemma joinLines_cons_nonempty eol l ls :
  eol <> [] -> joinLines eol (l :: ls) <> [].
Proof.
  unfold joinLines. simpl. intros He H.
  apply app_eq_nil in H. destruct H as (H & _).
  apply app_eq_nil in H. destruct H as (_ & H). contradiction.
Qed.

(** X12.  The parser reads a patch text the same way whether its lines end
    in LF, in CR LF or in CR: it splits on every CR and every LF, and the
    empty lines that CR LF leaves are skipped by the content loop. *)
Theorem line_terminators_do_not_matter (ls : list str) :
  Forall (fun l => oneLine l = true) ls ->
  patch_fromText (joinLines [CR; LF] ls) = patch_fromText (joinLines [LF] ls) /\
  patch_fromText (joinLines [CR] ls) = patch_fromText (joinLines [LF] ls).
Proof.
  intro H. destruct ls as [|l ls]; [split; reflexivity|].
  rewrite !patch_fromText_hunks by (apply joinLines_cons_nonempty; discriminate).
  rewrite splitCRorLF_joinCRLF, splitCRorLF_joinCR, splitCRorLF_joinLF by assumption.
  split; [|reflexivity].
  simpl. destruct (patchHeader l); [|reflexivity].
  change (contentLines ([] :: flat_map (fun l0 => [l0; []]) ls ++ [[]]))
    with (contentLines (flat_map (fun l0 => [l0; []]) ls ++ [[]])).
  now rewrite contentLines_blank.
Qed.

Lemma line_terminators_do_not_matter_witness :
  patch_fromText (joinLines [CR; LF] [lit "@@ -1 +1 @@"; lit "-a"; lit "+b"]) =
  patch_fromText (joinLines [LF] [lit "@@ -1 +1 @@"; lit "-a"; lit "+b"]).
Proof.
  apply (line_terminators_do_not_matter [lit "@@ -1 +1 @@"; lit "-a"; lit "+b"]).
  repeat constructor.
Defined.

(** ** Whole-line edits *)

Lemma advance_LF p t : advance p (t ++ [LF]) = mkPosition (line (advance p t) + 1) 0.
Proof. rewrite advance_app. reflexivity. Qed.

Lemma character_after_terminated p t e :
  character (advance p (t ++ e ++ [LF])) = 0.
Proof. now rewrite app_assoc, advance_LF. Qed.

Lemma step_wholeLines c0 e0 st t op st' :
  step st (op, t ++ e0 ++ [LF]) = Ok st' ->
  (cursor st = c0 \/ character (cursor st) = 0) ->
  Forall (wholeLinesFrom c0) (finish st) ->
  (cursor st' = c0 \/ character (cursor st') = 0) /\
  Forall (wholeLinesFrom c0) (finish st').
Proof.
  destruct st as [p pend es]. unfold step, finish; simpl.
  pose proof (character_after_terminated p t e0) as Hch.
  destruct op, pend as [[[] s0 en tx]|]; simpl; intro H; inversion H; subst; clear H;
    simpl; rewrite ?Forall_app; intros Hc Hf;
    repeat match goal with
           | H : _ /\ _ |- _ => destruct H
           | H : Forall _ [_] |- _ => inversion H; subst; clear H
           end;
    repeat split; auto;
    try (constructor; [|constructor]);
    unfold wholeLinesFrom, spanEnd in *; simpl in *; intuition auto.
Qed.

Lemma loop_wholeLines c0 e0 raw : forall st st',
  loop st (map (addLineFeed (e0 ++ [LF])) raw) = Ok st' ->
  (cursor st = c0 \/ character (cursor st) = 0) ->
  Forall (wholeLinesFrom c0) (finish st) ->
  Forall (wholeLinesFrom c0) (finish st').
Proof.
  induction raw as [|[op t] raw IH]; simpl; intros st st' H Hc Hf.
  - inversion H; subst. assumption.
  - unfold addLineFeed at 1 in H. simpl in H.
    destruct (step st (op, t ++ e0 ++ [LF])) as [st1|] eqn:Hs; simpl in H; [|discriminate].
    destruct (step_wholeLines c0 e0 st t op st1 Hs Hc Hf) as (Hc1 & Hf1).
    eapply IH; eauto.
Qed.

Lemma wholeLinesFrom_aligned c0 es :
  character c0 = 0 -> Forall (wholeLinesFrom c0) es -> Forall wholeLines es.
Proof.
  intros H0 Hf. eapply Forall_impl; [|exact Hf].
  intros e (Hs & He). unfold wholeLines.
  destruct Hs as [Hs | Hs], He as [He | He]; rewrite ?Hs, ?He; auto.
Qed.

(** X13.  With a line terminator that ends in LF (LF or CR LF) appended to
    every payload, as [getTextEditsFromPatch] does, every edit covers whole
    lines when the hunk starts at line 0 or opens with an Equal primitive:
    the starts and the ends of all the edits are at character 0.  In any
    case the only position that can be off the start of a line is the
    initial cursor. *)
Theorem pipeline_edits_cover_whole_lines
  (e0 before : str) (raw : list Diff) (startLine : Z) (es : list Edit) :
  getTextEditsInternal (e0 ++ [LF]) before
    (map (addLineFeed (e0 ++ [LF])) raw) startLine = Ok es ->
  Forall (wholeLinesFrom (cursor (initialState (e0 ++ [LF]) before startLine))) es /\
  (startLine <= 0 \/ (exists t raw', raw = (DIFF_EQUAL, t) :: raw') ->
   Forall wholeLines es).
Proof.
  unfold getTextEditsInternal. intro H.
  set (EOL := e0 ++ [LF]) in *.
  set (st0 := initialState EOL before startLine) in *.
  destruct (loop st0 (map (addLineFeed EOL) raw)) as [st|] eqn:Hl;
    simpl in H; [|discriminate].
  inversion H; subst es; clear H.
  split.
  - apply (loop_wholeLines (cursor st0) e0 raw st0 st Hl); [now left | constructor].
  - intros [Hle | (t & raw' & ->)].
    + apply (wholeLinesFrom_aligned (cursor st0)).
      * unfold st0, initialState, initialCharacter. simpl.
        destruct (Z.ltb_spec 0 startLine); [lia | reflexivity].
      * apply (loop_wholeLines (cursor st0) e0 raw st0 st Hl); [now left | constructor].
    + simpl in Hl. unfold addLineFeed at 1 in Hl. unfold step in Hl. simpl in Hl.
      set (c1 := advance (cursor st0) (t ++ EOL)) in *.
      assert (Hc1 : character c1 = 0).
      { unfold c1, EOL. apply character_after_terminated. }
      apply (wholeLinesFrom_aligned c1 _ Hc1).
      apply (loop_wholeLines c1 e0 raw' (mkState c1 None []) st Hl);
        [now left | constructor].
Qed.

Lemma pipeline_edits_cover_whole_lines_witness :
  Forall wholeLines
    [mkEdit Replace (mkPosition 8 0) (Some (mkPosition 9 0)) (ln "I" ++ ln "I2")].
Proof.
  refine (proj2 (pipeline_edits_cover_whole_lines [] tenLines
                   (diffs (hd (mkPatch [] 0 0 0 0) (tl twoHunks))) 6 _ eq_refl) _).
  right. eexists; eexists; reflexivity.
Defined.

(** ** Lines of a hunk *)

Lemma advance_no_LF t : forall p,
  ~ In LF t -> line (advance p t) = line p.
Proof.
  induction t as [|c t IH]; intros p Hno; [reflexivity|].
  rewrite advance_cons. rewrite IH by (intro H; apply Hno; now right).
  unfold advanceChar. destruct (Ascii.eqb_spec c LF) as [-> | Hne]; [|reflexivity].
  exfalso. apply Hno. now left.
Qed.

Lemma advance_one_line p t e :
  ~ In LF t -> ~ In LF e ->
  advance p (t ++ e ++ [LF]) = mkPosition (line p + 1) 0.
Proof.
  intros Ht He. rewrite app_assoc, advance_LF.
  rewrite advance_no_LF; [reflexivity|].
  intro H. apply in_app_or in H. tauto.
Qed.

Lemma consumed_nil_of_filter EOL raw :
  filter (fun d => negb (isInsert d)) raw = [] ->
  consumed (map (addLineFeed EOL) raw) = [].
Proof.
  induction raw as [|[o t] raw IH]; [reflexivity|].
  intro Hf. rewrite map_cons, consumed_cons.
  destruct o; cbn [filter isInsert Op_eqb fst negb addLineFeed] in *;
    try discriminate Hf. now apply IH.
Qed.

Lemma advance_walked e0 raw : forall p,
  ~ In LF e0 ->
  Forall (fun d => ~ In LF (snd d)) raw ->
  (0 < walkedLines raw)%nat ->
  advance p (consumed (map (addLineFeed (e0 ++ [LF])) raw)) =
  mkPosition (line p + Z.of_nat (walkedLines raw)) 0.
Proof.
  unfold walkedLines.
  induction raw as [|[op t] raw IH]; intros p He Hraw Hpos; [simpl in Hpos; lia|].
  inversion Hraw as [|? ? Ht Hrest]; subst. simpl in Ht.
  rewrite map_cons, consumed_cons.
  change (snd (addLineFeed (e0 ++ [LF]) (op, t))) with (t ++ e0 ++ [LF]).
  change (isInsert (addLineFeed (e0 ++ [LF]) (op, t))) with (isInsert (op, t)).
  destruct op; cbn [isInsert Op_eqb fst snd filter negb app List.length] in *.
  - rewrite advance_app, advance_one_line by assumption.
    destruct (filter (fun d => negb (isInsert d)) raw) as [|d0 l0] eqn:Hf.
    + rewrite (consumed_nil_of_filter _ _ Hf). simpl. f_equal; lia.
    + rewrite IH by (auto; simpl; lia). cbn [line List.length]. f_equal; lia.
  - apply IH; auto.
  - rewrite advance_app, advance_one_line by assumption.
    destruct (filter (fun d => negb (isInsert d)) raw) as [|d0 l0] eqn:Hf.
    + rewrite (consumed_nil_of_filter _ _ Hf). simpl. f_equal; lia.
    + rewrite IH by (auto; simpl; lia). cbn [line List.length]. f_equal; lia.
Qed.

Lemma splitCRorLF_oneLine s : Forall (fun l => oneLine l = true) (splitCRorLF s).
Proof.
  induction s as [|c s IH]; simpl; [repeat constructor|].
  destruct (Ascii.eqb c CR || Ascii.eqb c LF) eqn:Hc; [now constructor|].
  destruct (splitCRorLF s) as [|h t]; [repeat constructor; simpl; unfold isSeparator; now rewrite Hc|].
  inversion IH as [|? ? Hh Ht]; subst.
  constructor; [|assumption]. simpl. unfold isSeparator at 1. now rewrite Hc.
Qed.

Lemma oneLine_no_LF t : oneLine t = true -> ~ In LF t.
Proof.
  unfold oneLine. intros H Hin.
  rewrite forallb_forall in H. specialize (H LF Hin). discriminate H.
Qed.

Lemma lineDiffs_oneLine l :
  oneLine l = true -> Forall (fun d => oneLine (snd d) = true) (lineDiffs l).
Proof.
  destruct l as [|sign line]; [constructor|].
  simpl. intro H. apply andb_true_iff in H. destruct H as (_ & H).
  destruct (Ascii.eqb sign "-"%char); [now repeat constructor|].
  destruct (Ascii.eqb sign "+"%char); [now repeat constructor|].
  destruct (Ascii.eqb sign " "%char); [now repeat constructor | constructor].
Qed.

Lemma parsed_payloads_oneLine text ps :
  patch_fromText text = Ok ps ->
  Forall (fun d => oneLine (snd d) = true) (flat_map diffs ps).
Proof.
  destruct text as [|c s]; [intro H; inversion H; constructor|].
  unfold patch_fromText. rewrite patchLoop_hunks.
  pose proof (splitCRorLF_oneLine (c :: s)) as Hl.
  destruct (splitCRorLF_cons (c :: s)) as (h & tl & Hs). rewrite Hs in *.
  unfold hunks. destruct (patchHeader h) as [m|]; [|discriminate].
  destruct (contentLines tl) as [[ds ps']|] eqn:Hc; simpl; [|discriminate].
  intro H. inversion H; subst. simpl. rewrite diffs_patchOf.
  destruct (contentLines_diffs _ _ _ Hc) as (-> & _).
  inversion Hl as [|? ? _ Htl]; subst. clear - Htl.
  induction Htl as [|l tl Hl Htl IH]; simpl; [constructor|].
  apply Forall_app. split; [now apply lineDiffs_oneLine | assumption].
Qed.

Lemma Forall_firstn {A} (P : A -> Prop) (l : list A) : forall n,
  Forall P l -> Forall P (firstn n l).
Proof.
  induction l as [|x l IH]; intros [|n] H; simpl; try constructor.
  - now inversion H.
  - apply IH. now inversion H.
Qed.

(** X14.  In the pipeline every line of a hunk is one line of the original
    text: a primitive that comes after [k] Equal and Delete primitives of its
    hunk, [k] at least 1, is placed at line [start1 + k], character 0.  (The
    payloads the parser returns hold no line terminator, and the pipeline
    appends one that ends in LF.) *)
Theorem primitive_lines_count_from_start1
  (e0 before text : str) (ps : list Patch) (q : Patch) (i : nat) (p : Position) :
  ~ In LF e0 ->
  patch_fromText text = Ok ps -> In q ps ->
  nth_error
    (primitiveStarts (e0 ++ [LF]) before
       (map (addLineFeed (e0 ++ [LF])) (diffs q)) (start1 q)) i = Some p ->
  (0 < walkedLines (firstn i (diffs q)))%nat ->
  p = mkPosition (start1 q + Z.of_nat (walkedLines (firstn i (diffs q)))) 0.
Proof.
  intros He Hparse Hq Hp Hk.
  apply startsFrom_nth in Hp. rewrite firstn_map in Hp.
  rewrite advance_walked in Hp; [exact Hp | assumption | | assumption].
  apply Forall_firstn.
  pose proof (parsed_payloads_oneLine _ _ Hparse) as Hall.
  rewrite Forall_forall in Hall. apply Forall_forall. intros d Hd.
  apply oneLine_no_LF. apply Hall. apply in_flat_map. eauto.
Qed.

Lemma primitive_lines_count_from_start1_witness :
  mkPosition 9 0 = mkPosition (6 + Z.of_nat 3) 0.
Proof.
  refine (primitive_lines_count_from_start1 [] tenLines
            (removeMarker (stripFileHeader twoHunkPatch)) twoHunks
            (hd (mkPatch [] 0 0 0 0) (tl twoHunks)) 3 (mkPosition 9 0)
            _ eq_refl _ eq_refl _).
  - intros [].
  - right. left. reflexivity.
  - vm_compute. lia.
Defined.

(** * Errors of the formatter process *)

(** ** Searching with [indexOf] *)

Lemma startsWith_iff s p : startsWith s p = true <-> exists b, s = p ++ b.
Proof.
  unfold startsWith. split.
  - destruct (stripPrefix p s) as [r|] eqn:E; [|discriminate].
    intros _. exists r. now apply stripPrefix_Some.
  - intros [b ->]. now rewrite stripPrefix_app.
Qed.

Lemma indexOf_eq s p :
  indexOf s p =
  if startsWith s p then 0
  else match s with
       | [] => -1
       | _ :: s' => let i := indexOf s' p in if i <? 0 then -1 else i + 1
       end.
Proof. destruct s; reflexivity. Qed.

Lemma indexOf_ge s p : -1 <= indexOf s p.
Proof.
  induction s as [|c s IH]; rewrite indexOf_eq; destruct (startsWith _ p); try lia.
  cbv zeta. destruct (Z.ltb_spec (indexOf s p) 0); lia.
Qed.

Lemma indexOf_zero_iff s p : indexOf s p = 0 <-> startsWith s p = true.
Proof.
  rewrite indexOf_eq. destruct (startsWith s p); split; auto; try discriminate.
  destruct s as [|c s]; [lia|]. cbv zeta.
  destruct (Z.ltb_spec (indexOf s p) 0); lia.
Qed.

Lemma indexOf_nonneg_iff p : forall s, 0 <= indexOf s p <-> occursIn p s.
Proof.
  induction s as [|c s IH]; rewrite indexOf_eq.
  - destruct (startsWith [] p) eqn:E.
    + split; [|lia]. intros _. apply startsWith_iff in E as [b E].
      exists [], b. exact E.
    + split; [lia|]. intros [a [b H]]. exfalso.
      assert (startsWith [] p = true); [|congruence].
      apply startsWith_iff. exists b.
      destruct a; [exact H | discriminate].
  - destruct (startsWith (c :: s) p) eqn:E.
    + split; [|lia]. intros _. apply startsWith_iff in E as [b E].
      exists [], b. exact E.
    + cbv zeta. split.
      * intros H. destruct (Z.ltb_spec (indexOf s p) 0); [lia|].
        destruct (proj1 IH) as [a [b Hs]]; [lia|].
        exists (c :: a), b. simpl. now rewrite Hs.
      * intros [a [b H]]. destruct a as [|c' a].
        -- exfalso. assert (startsWith (c :: s) p = true); [|congruence].
           apply startsWith_iff. exists b. exact H.
        -- simpl in H. injection H as _ Hs.
           assert (0 <= indexOf s p) by (apply IH; now exists a, b).
           destruct (Z.ltb_spec (indexOf s p) 0); lia.
Qed.

Lemma indexOf_pos_iff s p :
  0 < indexOf s p <-> startsWith s p = false /\ occursIn p s.
Proof.
  rewrite <- indexOf_nonneg_iff. split.
  - intros H. split; [|lia].
    destruct (startsWith s p) eqn:E; auto.
    apply indexOf_zero_iff in E. lia.
  - intros [E H]. assert (indexOf s p <> 0); [|lia].
    intros H0. apply indexOf_zero_iff in H0. congruence.
Qed.

Lemma occursIn_In c s : occursIn [c] s -> In c s.
Proof. intros [a [b ->]]. apply in_or_app. right. now left. Qed.

Lemma indexOf_notin c s : ~ In c s -> indexOf s [c] = -1.
Proof.
  intros H. pose proof (indexOf_ge s [c]).
  destruct (Z.eq_dec (indexOf s [c]) (-1)) as [E|E]; auto.
  exfalso. apply H, occursIn_In, indexOf_nonneg_iff. lia.
Qed.

(** ** The message of a missing module *)

Lemma outputHas_iff moduleName content :
  outputHasModuleNotInstalledError moduleName content = true <->
  exists c msg,
    content = Some c /\ In msg (moduleMessages moduleName) /\
    startsWith c msg = false /\ occursIn msg c.
Proof.
  split.
  - destruct content as [[|c0 c]|]; try discriminate.
    unfold outputHasModuleNotInstalledError. intros H.
    apply orb_true_iff in H as [H|H]; apply Z.ltb_lt, indexOf_pos_iff in H as [H1 H2].
    + exists (c0 :: c), (lit "No module named " ++ moduleName).
      repeat split; auto. now left.
    + exists (c0 :: c), (lit "No module named '" ++ moduleName ++ lit "'").
      repeat split; auto. right. now left.
  - intros [c [msg [-> [Hin [Hs Ho]]]]].
    assert (Hpos : 0 < indexOf c msg) by (apply indexOf_pos_iff; auto).
    destruct c as [|c0 c].
    + exfalso. destruct Ho as [a [b Ho]].
      destruct Hin as [<-|[<-|[]]]; destruct a; discriminate.
    + unfold outputHasModuleNotInstalledError. apply orb_true_iff.
      destruct Hin as [<-|[<-|[]]]; [left|right]; now apply Z.ltb_lt.
Qed.

(** X15.  [outputHasModuleNotInstalledError] answers true exactly when the
    content is given and one of the two messages, [No module named m] or
    [No module named 'm'], occurs in it without the content starting with
    that message: a first occurrence at index 0 does not count. *)
Theorem module_message_found_only_past_the_start moduleName content :
  outputHasModuleNotInstalledError moduleName content = true <->
  exists c msg,
    content = Some c /\ In msg (moduleMessages moduleName) /\
    startsWith c msg = false /\ occursIn msg c.
Proof. apply outputHas_iff. Qed.

Lemma message_holds_the_phrase moduleName msg c :
  In msg (moduleMessages moduleName) -> occursIn msg c ->
  occursIn (lit "No module named") c.
Proof.
  intros Hin [a [b ->]].
  destruct Hin as [<-|[<-|[]]].
  - exists a, (lit " " ++ moduleName ++ b).
    simpl. now rewrite <- ?app_assoc.
  - exists a, (lit " '" ++ moduleName ++ lit "'" ++ b).
    simpl. now rewrite <- ?app_assoc.
Qed.

(** X16.  The two detectors agree in one direction: whenever
    [outputHasModuleNotInstalledError] finds the message of a missing module
    in a text, an error object with that text as its message is a
    not-installed error for [isNotInstalledError], whatever its class and
    its code. *)
Theorem reported_output_is_a_not_installed_error moduleName c flag code :
  outputHasModuleNotInstalledError moduleName (Some c) = true ->
  isNotInstalledError (ErrorObject flag c code) = true.
Proof.
  intros H. apply outputHas_iff in H as [c' [msg [E [Hin [_ Ho]]]]].
  injection E as <-.
  assert (Hp : (0 <=? indexOf c (lit "No module named")) = true).
  { apply Z.leb_le, indexOf_nonneg_iff.
    exact (message_holds_the_phrase _ _ _ Hin Ho). }
  destruct flag; [reflexivity|].
  unfold isNotInstalledError. rewrite Hp.
  destruct code; auto using orb_true_r.
Qed.

Lemma reported_output_is_a_not_installed_error_witness :
  isNotInstalledError
    (ErrorObject false (lit "/usr/bin/python: No module named yapf") (CodeNumber 1))
  = true.
Proof.
  apply (reported_output_is_a_not_installed_error (lit "yapf")). reflexivity.
Defined.

(** * The version of the interpreter *)

(** ** Trimming and splitting *)

Lemma str_eqb_eq a : forall b, str_eqb a b = true <-> a = b.
Proof.
  induction a as [|x a IH]; intros [|y b]; simpl; split; try easy.
  - intros H. apply andb_true_iff in H as [H1 H2].
    apply Ascii.eqb_eq in H1. apply IH in H2. now subst.
  - intros H. injection H as -> ->. apply andb_true_iff. split.
    + apply Ascii.eqb_refl.
    + now apply IH.
Qed.

Lemma isReleaseLevel_iff t : isReleaseLevel t = true <-> In t releaseLevels.
Proof.
  unfold isReleaseLevel. rewrite existsb_exists. split.
  - intros [x [Hx H]]. apply str_eqb_eq in H. now subst.
  - intros H. exists t. split; auto. now apply str_eqb_eq.
Qed.

Lemma In_trimStart c s : In c (trimStart s) -> In c s.
Proof.
  induction s as [|x s IH]; simpl; auto.
  destruct (isWhiteSpace x); auto.
Qed.

Lemma In_trim c s : In c (trim s) -> In c s.
Proof.
  unfold trim. intros H.
  apply In_rev, In_trimStart, In_rev in H. now apply In_trimStart in H.
Qed.

Lemma trimStart_head c s : isWhiteSpace c = false -> trimStart (c :: s) = c :: s.
Proof. intros H. simpl. now rewrite H. Qed.

Lemma trimStart_solid s :
  forallb (fun c => negb (isWhiteSpace c)) s = true -> trimStart s = s.
Proof.
  destruct s as [|c s]; auto. simpl. intros H.
  apply andb_true_iff in H as [H _]. now destruct (isWhiteSpace c).
Qed.

Lemma trim_solid s :
  forallb (fun c => negb (isWhiteSpace c)) s = true -> trim s = s.
Proof.
  intros H. unfold trim. rewrite (trimStart_solid s H).
  rewrite trimStart_solid; [apply rev_involutive|].
  apply forallb_forall. intros c Hc. apply In_rev in Hc.
  exact (proj1 (forallb_forall _ _) H c Hc).
Qed.

Lemma trimStart_keeps u c : isWhiteSpace c = false -> trimStart (u ++ [c]) <> [].
Proof.
  intros H. induction u as [|x u IH]; simpl.
  - now rewrite H.
  - destruct (isWhiteSpace x); auto. discriminate.
Qed.

Lemma trim_head c s : isWhiteSpace c = false -> trim (c :: s) <> [].
Proof.
  intros H. unfold trim. rewrite (trimStart_head c s H). simpl rev.
  intros E. apply (f_equal (@rev ascii)) in E. rewrite rev_involutive in E.
  now apply (trimStart_keeps (rev s) c H).
Qed.

Lemma splitOn_notin sep a : ~ In sep a -> splitOn sep a = [a].
Proof.
  induction a as [|c a IH]; simpl; auto. intros H.
  destruct (Ascii.eqb c sep) eqn:E.
  - apply Ascii.eqb_eq in E. exfalso. apply H. now left.
  - rewrite IH; auto.
Qed.

Lemma splitOn_app sep a r :
  ~ In sep a -> splitOn sep (a ++ sep :: r) = a :: splitOn sep r.
Proof.
  induction a as [|c a IH]; simpl; intros H.
  - now rewrite Ascii.eqb_refl.
  - destruct (Ascii.eqb c sep) eqn:E.
    + apply Ascii.eqb_eq in E. exfalso. apply H. now left.
    + rewrite IH; auto.
Qed.

Lemma In_splitOn sep c : forall s q, In q (splitOn sep s) -> In c q -> In c s.
Proof.
  induction s as [|x s IH]; simpl; intros q Hq Hc.
  - destruct Hq as [<-|[]]. destruct Hc.
  - destruct (Ascii.eqb x sep).
    + destruct Hq as [<-|Hq]; [destruct Hc|]. right. eauto.
    + destruct (splitOn sep s) as [|h t] eqn:E.
      * destruct Hq as [<-|[]]. destruct Hc as [<-|[]]. now left.
      * destruct Hq as [<-|Hq].
        -- destruct Hc as [<-|Hc]; [now left|]. right. apply (IH h); auto. now left.
        -- right. apply (IH q); auto. now right.
Qed.

Lemma filterIndexFrom_below {A} n (l : list A) :
  forall i, filterIndexFrom (fun index => Nat.ltb index n) i l = firstn (n - i) l.
Proof.
  induction l as [|x l IH]; intros i; simpl.
  - now rewrite firstn_nil.
  - destruct (Nat.ltb_spec i n) as [H|H].
    + rewrite IH. replace (n - i)%nat with (S (n - S i)) by lia. reflexivity.
    + rewrite IH. replace (n - i)%nat with 0%nat by lia.
      replace (n - S i)%nat with 0%nat by lia. reflexivity.
Qed.

Lemma filterIndex_below {A} n (l : list A) :
  filterIndex (fun index => Nat.ltb index n) l = firstn n l.
Proof. unfold filterIndex. rewrite filterIndexFrom_below. now rewrite Nat.sub_0_r. Qed.

Lemma In_firstn {A} (x : A) n : forall l, In x (firstn n l) -> In x l.
Proof.
  induction n as [|n IH]; intros [|y l]; simpl; try easy.
  intros [H|H]; auto.
Qed.

(** ** Words *)

Lemma isDigit_plainChar c : isDigit c = true -> plainChar c = true.
Proof.
  destruct c as [[] [] [] [] [] [] [] []]; vm_compute; congruence.
Qed.

Lemma isDigits_plainWord a : isDigits a = true -> plainWord a = true.
Proof.
  unfold isDigits, plainWord. intros H. apply andb_true_iff in H as [H1 H2].
  rewrite H1. simpl. apply forallb_forall. intros c Hc.
  apply isDigit_plainChar. exact (proj1 (forallb_forall _ _) H2 c Hc).
Qed.

Lemma releaseLevel_plainWord t : In t releaseLevels -> plainWord t = true.
Proof. intros [<-|[<-|[<-|[<-|[]]]]]; reflexivity. Qed.

Lemma plainWord_solid s :
  plainWord s = true -> forallb solidChar s = true.
Proof.
  unfold plainWord. intros H. apply andb_true_iff in H as [_ H].
  apply forallb_forall. intros c Hc.
  pose proof (proj1 (forallb_forall _ _) H c Hc) as P.
  unfold plainChar in P. now apply andb_true_iff in P as [P _].
Qed.

Lemma solid_no_space s :
  forallb solidChar s = true -> forallb (fun c => negb (isWhiteSpace c)) s = true.
Proof.
  intros H. apply forallb_forall. intros c Hc.
  pose proof (proj1 (forallb_forall _ _) H c Hc) as P.
  unfold solidChar in P. now apply andb_true_iff in P as [P _].
Qed.

Lemma solid_no_dot s : forallb solidChar s = true -> ~ In "."%char s.
Proof.
  intros H Hc. pose proof (proj1 (forallb_forall _ _) H _ Hc) as P. discriminate.
Qed.

Lemma plainWord_no_hyphen s : plainWord s = true -> ~ In "-"%char s.
Proof.
  unfold plainWord. intros H Hc. apply andb_true_iff in H as [_ H].
  pose proof (proj1 (forallb_forall _ _) H _ Hc) as P. discriminate.
Qed.

Lemma plainWord_cons s :
  plainWord s = true ->
  exists c s', s = c :: s' /\ isWhiteSpace c = false /\ Ascii.eqb "-"%char c = false.
Proof.
  destruct s as [|c s]; [discriminate|]. unfold plainWord. intros H.
  cbn [str_eqb negb andb forallb] in H.
  apply andb_true_iff in H as [H _]. exists c, s. split; auto.
  unfold plainChar, solidChar in H.
  apply andb_true_iff in H as [H H2]. apply andb_true_iff in H as [H1 _].
  rewrite Ascii.eqb_sym. split.
  - now destruct (isWhiteSpace c).
  - now destruct (Ascii.eqb c "-"%char).
Qed.

Lemma solid_app s t :
  forallb solidChar s = true -> forallb solidChar t = true ->
  forallb solidChar (s ++ t) = true.
Proof. intros H1 H2. now rewrite forallb_app, H1, H2. Qed.

(** ** The parts of a version *)

Lemma plainWord_solidWord w : plainWord w = true -> solidWord w.
Proof.
  intros H. split.
  - destruct (plainWord_cons w H) as [c [s [-> _]]]. discriminate.
  - now apply plainWord_solid.
Qed.

Lemma splitOn_joinDots ws :
  Forall solidWord ws -> ws <> [] -> splitOn "."%char (joinDots ws) = ws.
Proof.
  induction ws as [|w ws IH]; [easy|]. intros H _.
  inversion H as [|? ? [_ Hw] Hws]; subst.
  destruct ws as [|w' ws].
  - simpl. apply splitOn_notin. now apply solid_no_dot.
  - change (joinDots (w :: w' :: ws)) with (w ++ "."%char :: joinDots (w' :: ws)).
    rewrite splitOn_app by now apply solid_no_dot.
    rewrite IH; auto. discriminate.
Qed.

Lemma splitOn_joinDots_rest ws rest :
  Forall solidWord ws -> ws <> [] ->
  splitOn "."%char (joinDots ws ++ "."%char :: rest) = ws ++ splitOn "."%char rest.
Proof.
  induction ws as [|w ws IH]; [easy|]. intros H _.
  inversion H as [|? ? [_ Hw] Hws]; subst.
  destruct ws as [|w' ws].
  - simpl. apply splitOn_app. now apply solid_no_dot.
  - change (joinDots (w :: w' :: ws)) with (w ++ "."%char :: joinDots (w' :: ws)).
    rewrite <- app_assoc, <- app_comm_cons.
    rewrite splitOn_app by now apply solid_no_dot.
    rewrite IH; auto. discriminate.
Qed.

Lemma trim_words ws : Forall solidWord ws -> map trim ws = ws.
Proof.
  induction 1 as [|w ws [_ Hw] _ IH]; simpl; auto.
  rewrite IH. f_equal. apply trim_solid. now apply solid_no_space.
Qed.

Lemma filter_words ws :
  Forall solidWord ws -> filter (fun item => negb (str_eqb item [])) ws = ws.
Proof.
  induction 1 as [|w ws [Hw _] _ IH]; simpl; auto.
  rewrite IH. destruct w; [easy|reflexivity].
Qed.

Lemma parts_of_words ws :
  Forall solidWord ws -> ws <> [] -> (List.length ws <= 4)%nat ->
  filterIndex (fun index => Nat.ltb index 4)
    (filter (fun item => negb (str_eqb item []))
       (map trim (splitOn "."%char (joinDots ws)))) = ws.
Proof.
  intros H Hn Hl.
  rewrite splitOn_joinDots, trim_words, filter_words, filterIndex_below; auto.
  now apply firstn_all2.
Qed.

Lemma parts_of_words_rest ws rest :
  Forall solidWord ws -> List.length ws = 4%nat ->
  filterIndex (fun index => Nat.ltb index 4)
    (filter (fun item => negb (str_eqb item []))
       (map trim (splitOn "."%char (joinDots ws ++ "."%char :: rest)))) = ws.
Proof.
  intros H Hl.
  rewrite splitOn_joinDots_rest; auto; [|now destruct ws].
  rewrite map_app, filter_app, trim_words, filter_words, filterIndex_below; auto.
  rewrite firstn_app, Hl, Nat.sub_diag, firstn_O, app_nil_r.
  rewrite <- Hl. apply firstn_all.
Qed.

Lemma splitHyphen_plain (front : list str) (w : str) :
  ~ In "-"%char w -> splitHyphen (front ++ [w]) = front ++ [w].
Proof.
  intros H. unfold splitHyphen. rewrite rev_unit.
  change (lit "-") with ["-"%char]. now rewrite indexOf_notin.
Qed.

Lemma splitHyphen_cut (front : list str) (x y : str) :
  plainWord x = true ->
  splitHyphen (front ++ [x ++ "-"%char :: y]) =
  front ++ [x; trim (nth 0 (splitOn "-"%char y) [])].
Proof.
  intros Hx. unfold splitHyphen. rewrite rev_unit, rev_involutive.
  change (lit "-") with ["-"%char].
  assert (Hpos : 0 < indexOf (x ++ "-"%char :: y) ["-"%char]).
  { apply indexOf_pos_iff. split.
    - destruct (plainWord_cons x Hx) as [c [s [-> [_ Hc]]]].
      unfold startsWith. cbn [app stripPrefix]. now rewrite Hc.
    - now exists x, y. }
  apply Z.ltb_lt in Hpos. rewrite Hpos.
  rewrite splitOn_app by now apply plainWord_no_hyphen.
  cbn [nth]. rewrite trim_solid; auto.
  apply solid_no_space. now apply plainWord_solid.
Qed.

Lemma numericPart_digits s : isDigits (numericPart s) = true.
Proof. unfold numericPart. destruct (isDigits s) eqn:E; auto. Qed.

Lemma numericPart_id s : isDigits s = true -> numericPart s = s.
Proof. unfold numericPart. now intros ->. Qed.

Lemma finish_three a b c :
  isDigits a = true -> isDigits b = true -> isDigits c = true ->
  rawVersionOf (dropLevel (numericParts (padTo4 [a; b; c]))) = dotted a b c.
Proof.
  intros Ha Hb Hc. unfold padTo4, numericParts. cbn [List.length Nat.sub repeat app].
  rewrite !numericPart_id by assumption. reflexivity.
Qed.

Lemma finish_four a b c t :
  isDigits a = true -> isDigits b = true -> isDigits c = true ->
  rawVersionOf (dropLevel (numericParts (padTo4 [a; b; c; t]))) =
  if isReleaseLevel t then dotted a b c ++ lit "-" ++ t else dotted a b c.
Proof.
  intros Ha Hb Hc. unfold padTo4, numericParts. cbn [List.length Nat.sub repeat app].
  rewrite !numericPart_id by assumption.
  unfold dropLevel. cbn [nth]. destruct (isReleaseLevel t); reflexivity.
Qed.

Lemma finish_five a b c x z :
  isDigits a = true -> isDigits b = true -> isDigits c = true ->
  rawVersionOf (dropLevel (numericParts (padTo4 [a; b; c; x; z]))) =
  if isReleaseLevel x then dotted a b c else dotted a b c ++ lit "-" ++ x.
Proof.
  intros Ha Hb Hc. unfold padTo4, numericParts. cbn [List.length Nat.sub repeat app].
  rewrite !numericPart_id by assumption.
  unfold dropLevel. cbn [nth]. destruct (isReleaseLevel x); reflexivity.
Qed.

Lemma dotted_app a b c s : dotted a b c ++ s = dotted a b (c ++ s).
Proof. unfold dotted. now rewrite <- !app_assoc. Qed.

Lemma digits_head a b c :
  isDigits a = true ->
  exists ch s, dotted a b c = ch :: s /\ isWhiteSpace ch = false.
Proof.
  intros Ha. destruct (plainWord_cons a (isDigits_plainWord a Ha)) as [ch [s [-> [H _]]]].
  exists ch, (s ++ lit "." ++ b ++ lit "." ++ c). split; auto.
Qed.

Lemma parsePythonVersion_head c s :
  isWhiteSpace c = false ->
  parsePythonVersion (c :: s) = Some (rawVersionOf (normalizedParts (c :: s))).
Proof.
  intros H. unfold parsePythonVersion. pose proof (trim_head c s H).
  destruct (trim (c :: s)); congruence.
Qed.

Lemma parse_dotted a b c tail :
  isDigits a = true ->
  parsePythonVersion (dotted a b c ++ tail) =
  Some (rawVersionOf (normalizedParts (dotted a b c ++ tail))).
Proof.
  intros Ha. rewrite dotted_app.
  destruct (digits_head a b (c ++ tail) Ha) as [ch [s [-> H]]].
  now apply parsePythonVersion_head.
Qed.

Lemma digits_solidWord a : isDigits a = true -> solidWord a.
Proof. intros H. now apply plainWord_solidWord, isDigits_plainWord. Qed.

Lemma parse_three a b c :
  isDigits a = true -> isDigits b = true -> isDigits c = true ->
  parsePythonVersion (dotted a b c) = Some (dotted a b c).
Proof.
  intros Ha Hb Hc. rewrite <- (app_nil_r (dotted a b c)) at 1.
  rewrite parse_dotted, app_nil_r by assumption. f_equal.
  unfold normalizedParts. change (dotted a b c) with (joinDots [a; b; c]).
  rewrite parts_of_words; [| |discriminate|simpl; lia].
  - change [a; b; c] with ([a; b] ++ [c]).
    rewrite (splitHyphen_plain [a; b] c).
    + now apply finish_three.
    + now apply plainWord_no_hyphen, isDigits_plainWord.
  - repeat constructor; now apply digits_solidWord.
Qed.

Lemma parse_hyphen_level a b c t :
  isDigits a = true -> isDigits b = true -> isDigits c = true ->
  In t releaseLevels ->
  parsePythonVersion (dotted a b c ++ lit "-" ++ t) = Some (dotted a b c ++ lit "-" ++ t).
Proof.
  intros Ha Hb Hc Ht. rewrite parse_dotted by assumption. f_equal.
  unfold normalizedParts. rewrite dotted_app.
  change (dotted a b (c ++ lit "-" ++ t)) with (joinDots [a; b; c ++ "-"%char :: t]).
  pose proof (releaseLevel_plainWord t Ht) as Pt.
  rewrite parts_of_words; [| |discriminate|simpl; lia].
  - change [a; b; c ++ "-"%char :: t] with ([a; b] ++ [c ++ "-"%char :: t]).
    rewrite (splitHyphen_cut [a; b] c t) by now apply isDigits_plainWord.
    rewrite splitOn_notin by now apply plainWord_no_hyphen.
    cbn [nth app]. rewrite trim_solid by now apply solid_no_space, plainWord_solid.
    rewrite finish_four by assumption.
    now rewrite (proj2 (isReleaseLevel_iff t) Ht), dotted_app.
  - repeat constructor; try now apply digits_solidWord.
    + destruct (plainWord_cons c (isDigits_plainWord c Hc)) as [ch [s [-> _]]]. discriminate.
    + apply solid_app; [now apply plainWord_solid, isDigits_plainWord|].
      change (forallb solidChar ("-"%char :: t)) with (forallb solidChar t).
      now apply plainWord_solid.
Qed.

Lemma parse_four a b c t :
  isDigits a = true -> isDigits b = true -> isDigits c = true ->
  In t releaseLevels ->
  parsePythonVersion (dotted a b c ++ lit "." ++ t) = Some (dotted a b c ++ lit "-" ++ t).
Proof.
  intros Ha Hb Hc Ht. rewrite parse_dotted by assumption. f_equal.
  unfold normalizedParts. rewrite dotted_app.
  change (dotted a b (c ++ lit "." ++ t)) with (joinDots [a; b; c; t]).
  pose proof (releaseLevel_plainWord t Ht) as Pt.
  rewrite parts_of_words; [| |discriminate|simpl; lia].
  - change [a; b; c; t] with ([a; b; c] ++ [t]).
    rewrite (splitHyphen_plain [a; b; c] t) by now apply plainWord_no_hyphen.
    cbn [app]. rewrite finish_four by assumption.
    now rewrite (proj2 (isReleaseLevel_iff t) Ht).
  - repeat apply Forall_cons; try apply Forall_nil;
      try (now apply digits_solidWord); now apply plainWord_solidWord.
Qed.

Lemma parse_four_rest a b c t rest :
  isDigits a = true -> isDigits b = true -> isDigits c = true ->
  In t releaseLevels ->
  parsePythonVersion (dotted a b c ++ lit "." ++ t ++ lit "." ++ rest) =
  Some (dotted a b c ++ lit "-" ++ t).
Proof.
  intros Ha Hb Hc Ht. rewrite parse_dotted by assumption. f_equal.
  unfold normalizedParts. rewrite dotted_app.
  change (dotted a b (c ++ lit "." ++ t ++ lit "." ++ rest))
    with (a ++ "."%char :: b ++ "."%char :: c ++ "."%char :: t ++ "."%char :: rest).
  replace (a ++ "."%char :: b ++ "."%char :: c ++ "."%char :: t ++ "."%char :: rest)
    with (joinDots [a; b; c; t] ++ "."%char :: rest)
    by (cbn [joinDots];
        repeat (rewrite <- app_assoc || rewrite <- app_comm_cons); reflexivity).
  pose proof (releaseLevel_plainWord t Ht) as Pt.
  rewrite parts_of_words_rest; [| |reflexivity].
  - change [a; b; c; t] with ([a; b; c] ++ [t]).
    rewrite (splitHyphen_plain [a; b; c] t) by now apply plainWord_no_hyphen.
    cbn [app]. rewrite finish_four by assumption.
    now rewrite (proj2 (isReleaseLevel_iff t) Ht).
  - repeat apply Forall_cons; try apply Forall_nil;
      try (now apply digits_solidWord); now apply plainWord_solidWord.
Qed.

Lemma parse_hyphenated_fourth a b c x y :
  isDigits a = true -> isDigits b = true -> isDigits c = true ->
  plainWord x = true -> forallb solidChar y = true ->
  parsePythonVersion (dotted a b c ++ lit "." ++ x ++ lit "-" ++ y) =
  Some (if isReleaseLevel x then dotted a b c else dotted a b c ++ lit "-" ++ x).
Proof.
  intros Ha Hb Hc Hx Hy. rewrite parse_dotted by assumption. f_equal.
  unfold normalizedParts. rewrite dotted_app.
  change (dotted a b (c ++ lit "." ++ x ++ lit "-" ++ y))
    with (joinDots [a; b; c; x ++ "-"%char :: y]).
  rewrite parts_of_words; [| |discriminate|simpl; lia].
  - change [a; b; c; x ++ "-"%char :: y] with ([a; b; c] ++ [x ++ "-"%char :: y]).
    rewrite (splitHyphen_cut [a; b; c] x y) by assumption.
    cbn [app]. now apply finish_five.
  - repeat constructor; try now apply digits_solidWord.
    + destruct (plainWord_cons x Hx) as [ch [s [-> _]]]. discriminate.
    + apply solid_app; [now apply plainWord_solid|]. exact Hy.
Qed.

(** ** The shape of the version string *)

Lemma padTo4_shape (L : list str) :
  exists p0 p1 p2 p3 rest,
    padTo4 L = p0 :: p1 :: p2 :: p3 :: rest /\
    ((List.length L <= 4)%nat -> rest = []).
Proof.
  destruct L as [|p0 [|p1 [|p2 [|p3 rest]]]].
  - now exists [], [], [], [], [].
  - now exists p0, [], [], [], [].
  - now exists p0, p1, [], [], [].
  - now exists p0, p1, p2, [], [].
  - exists p0, p1, p2, p3, rest. split.
    + unfold padTo4. cbn [List.length Nat.sub repeat]. apply app_nil_r.
    + destruct rest; auto. simpl. lia.
Qed.

Lemma raw_shape (L : list str) :
  exists a b c,
    isDigits a = true /\ isDigits b = true /\ isDigits c = true /\
    (rawVersionOf (dropLevel (numericParts (padTo4 L))) = dotted a b c \/
     exists t,
       rawVersionOf (dropLevel (numericParts (padTo4 L))) = dotted a b c ++ lit "-" ++ t /\
       ((List.length L <= 4)%nat -> In t releaseLevels)).
Proof.
  destruct (padTo4_shape L) as [p0 [p1 [p2 [p3 [rest [-> Hr]]]]]].
  exists (numericPart p0), (numericPart p1), (numericPart p2).
  repeat split; try apply numericPart_digits.
  unfold numericParts, dropLevel. cbn [nth].
  destruct (isReleaseLevel p3) eqn:El.
  - destruct rest as [|r rest].
    + right. exists p3. split; [reflexivity|]. intros _. now apply isReleaseLevel_iff.
    + left. reflexivity.
  - destruct rest as [|r [|r' rest]].
    + left. reflexivity.
    + right. exists p3. split; [reflexivity|]. intros H. now specialize (Hr H).
    + left. reflexivity.
Qed.

Lemma splitHyphen_none (P : list str) :
  (forall p, In p P -> ~ In "-"%char p) -> splitHyphen P = P.
Proof.
  destruct P as [|p P] using rev_ind; [reflexivity|]. intros H.
  apply splitHyphen_plain. apply H, in_or_app. right. now left.
Qed.

Lemma In_filterIndex_parts c version p :
  In p (filterIndex (fun index => Nat.ltb index 4)
          (filter (fun item => negb (str_eqb item []))
             (map trim (splitOn "."%char version)))) ->
  In c p -> In c version.
Proof.
  rewrite filterIndex_below. intros H Hc.
  apply In_firstn, filter_In in H as [H _].
  apply in_map_iff in H as [q [<- Hq]].
  apply In_trim in Hc. exact (In_splitOn _ _ _ _ Hq Hc).
Qed.

Lemma version_shape version raw :
  parsePythonVersion version = Some raw ->
  exists a b c,
    isDigits a = true /\ isDigits b = true /\ isDigits c = true /\
    (raw = dotted a b c \/
     exists t, raw = dotted a b c ++ lit "-" ++ t /\
               (~ In "-"%char version -> In t releaseLevels)).
Proof.
  unfold parsePythonVersion. destruct (trim version) as [|ch0 tr]; [discriminate|].
  intros H. injection H as <-. unfold normalizedParts.
  set (P := filterIndex _ _).
  destruct (raw_shape (splitHyphen P)) as [a [b [c [Ha [Hb [Hc H]]]]]].
  exists a, b, c. repeat split; auto.
  destruct H as [H|[t [H Ht]]]; [now left|right].
  exists t. split; auto. intros Hn. apply Ht.
  rewrite splitHyphen_none.
  - unfold P. rewrite filterIndex_below. apply firstn_le_length.
  - intros p Hp Hc'. apply Hn. exact (In_filterIndex_parts _ _ _ Hp Hc').
Qed.

(** X17.  Whatever the input, the string [parsePythonVersion] builds is
    three runs of digits joined by dots, alone or followed by a hyphen and a
    fourth part; when the input holds no hyphen, that fourth part is one of
    the release levels alpha, beta, candidate and final. *)
Theorem version_numbers_are_digits version raw :
  parsePythonVersion version = Some raw ->
  exists a b c,
    isDigits a = true /\ isDigits b = true /\ isDigits c = true /\
    (raw = dotted a b c \/
     exists t, raw = dotted a b c ++ lit "-" ++ t /\
               (~ In "-"%char version -> In t releaseLevels)).
Proof. apply version_shape. Qed.

Lemma version_numbers_are_digits_witness :
  exists a b c,
    isDigits a = true /\ isDigits b = true /\ isDigits c = true /\
    (lit "3.8.0-final" = dotted a b c \/
     exists t, lit "3.8.0-final" = dotted a b c ++ lit "-" ++ t /\
               (~ In "-"%char (lit " 3. 8.x.final.0") -> In t releaseLevels)).
Proof.
  apply (version_numbers_are_digits (lit " 3. 8.x.final.0")). reflexivity.
Defined.

(** X18.  Versions in the usual forms are kept: for runs of digits [a], [b],
    [c] and a release level [t], the inputs [a.b.c] and [a.b.c-t] are handed
    to [SemVer] as they are, and [a.b.c.t], with or without further parts
    after another dot, becomes [a.b.c-t]. *)
Theorem usual_versions_are_kept a b c t rest :
  isDigits a = true -> isDigits b = true -> isDigits c = true ->
  In t releaseLevels ->
  parsePythonVersion (dotted a b c) = Some (dotted a b c) /\
  parsePythonVersion (dotted a b c ++ lit "-" ++ t) = Some (dotted a b c ++ lit "-" ++ t) /\
  parsePythonVersion (dotted a b c ++ lit "." ++ t) = Some (dotted a b c ++ lit "-" ++ t) /\
  parsePythonVersion (dotted a b c ++ lit "." ++ t ++ lit "." ++ rest) =
    Some (dotted a b c ++ lit "-" ++ t).
Proof.
  intros Ha Hb Hc Ht. repeat split.
  - now apply parse_three.
  - now apply parse_hyphen_level.
  - now apply parse_four.
  - now apply parse_four_rest.
Qed.

Lemma usual_versions_are_kept_witness :
  parsePythonVersion (lit "3.10.4") = Some (lit "3.10.4") /\
  parsePythonVersion (lit "3.10.4-final") = Some (lit "3.10.4-final") /\
  parsePythonVersion (lit "3.10.4.final") = Some (lit "3.10.4-final") /\
  parsePythonVersion (lit "3.10.4.final.0") = Some (lit "3.10.4-final").
Proof.
  apply (usual_versions_are_kept (lit "3") (lit "10") (lit "4") (lit "final") (lit "0"));
    try reflexivity.
  right. right. right. now left.
Defined.

(** X19.  A fourth part that holds a hyphen is treated the other way
    round: for a word [x] and a text [y] without white space and dots, the
    input [a.b.c.x-y] gives [a.b.c] when [x] is a release level, and
    [a.b.c-x] when it is not. *)
Theorem hyphenated_fourth_part_is_inverted a b c x y :
  isDigits a = true -> isDigits b = true -> isDigits c = true ->
  plainWord x = true -> forallb solidChar y = true ->
  parsePythonVersion (dotted a b c ++ lit "." ++ x ++ lit "-" ++ y) =
  Some (if isReleaseLevel x then dotted a b c else dotted a b c ++ lit "-" ++ x).
Proof. apply parse_hyphenated_fourth. Qed.

Lemma hyphenated_fourth_part_is_inverted_witness :
  parsePythonVersion (lit "3.10.4.final-0") = Some (lit "3.10.4") /\
  parsePythonVersion (lit "3.10.4.local-0") = Some (lit "3.10.4-local").
Proof.
  split.
  - apply (hyphenated_fourth_part_is_inverted
             (lit "3") (lit "10") (lit "4") (lit "final") (lit "0")); reflexivity.
  - apply (hyphenated_fourth_part_is_inverted
             (lit "3") (lit "10") (lit "4") (lit "local") (lit "0")); reflexivity.
Defined.

(** X20.  On an input without hyphen the result is stable: parsing the
    string that was built for [SemVer] builds the same string again. *)
Theorem built_version_parses_to_itself version raw :
  ~ In "-"%char version ->
  parsePythonVersion version = Some raw ->
  parsePythonVersion raw = Some raw.
Proof.
  intros Hn H.
  destruct (version_shape version raw H) as [a [b [c [Ha [Hb [Hc [->|[t [-> Ht]]]]]]]]].
  - now apply parse_three.
  - apply parse_hyphen_level; auto.
Qed.

Lemma solid_no_hyphen_check s :
  forallb (fun c => negb (Ascii.eqb c "-"%char)) s = true -> ~ In "-"%char s.
Proof.
  intros H Hc. pose proof (proj1 (forallb_forall _ _) H _ Hc) as P. discriminate.
Qed.

Lemma built_version_parses_to_itself_witness :
  parsePythonVersion (lit "3.8.0-final") = Some (lit "3.8.0-final").
Proof.
  apply (built_version_parses_to_itself (lit " 3. 8.x.final.0")).
  - apply solid_no_hyphen_check. reflexivity.
  - reflexivity.
Defined.

Lemma parse_word (w tail : str) :
  plainWord w = true ->
  parsePythonVersion (w ++ tail) = Some (rawVersionOf (normalizedParts (w ++ tail))).
Proof.
  intros Hw. destruct (plainWord_cons w Hw) as [ch [s [-> [H _]]]].
  now apply parsePythonVersion_head.
Qed.

(** X21.  Each of the three numbers is the corresponding part of the input
    when that part is all digits and 0 when it is not, and a missing part
    counts as 0: for words [w1], [w2], [w3] (no white space, dot or hyphen)
    the inputs [w1], [w1.w2] and [w1.w2.w3] give the three numbers below, and
    no release level. *)
Theorem other_parts_become_zero w1 w2 w3 :
  plainWord w1 = true -> plainWord w2 = true -> plainWord w3 = true ->
  parsePythonVersion w1 = Some (dotted (numericPart w1) (lit "0") (lit "0")) /\
  parsePythonVersion (w1 ++ lit "." ++ w2) =
    Some (dotted (numericPart w1) (numericPart w2) (lit "0")) /\
  parsePythonVersion (dotted w1 w2 w3) =
    Some (dotted (numericPart w1) (numericPart w2) (numericPart w3)).
Proof.
  intros H1 H2 H3.
  pose proof (plainWord_solidWord _ H1) as S1.
  pose proof (plainWord_solidWord _ H2) as S2.
  pose proof (plainWord_solidWord _ H3) as S3.
  pose proof (plainWord_no_hyphen _ H1) as N1.
  pose proof (plainWord_no_hyphen _ H2) as N2.
  pose proof (plainWord_no_hyphen _ H3) as N3.
  repeat split.
  - rewrite <- (app_nil_r w1) at 1. rewrite parse_word, app_nil_r by assumption.
    f_equal. unfold normalizedParts. change w1 with (joinDots [w1]) at 1.
    rewrite parts_of_words; [| |discriminate|simpl; lia].
    + change [w1] with ([] ++ [w1]). now rewrite splitHyphen_plain.
    + repeat apply Forall_cons; try apply Forall_nil; assumption.
  - rewrite parse_word by assumption.
    f_equal. unfold normalizedParts.
    change (w1 ++ lit "." ++ w2) with (joinDots [w1; w2]).
    rewrite parts_of_words; [| |discriminate|simpl; lia].
    + change [w1; w2] with ([w1] ++ [w2]). now rewrite splitHyphen_plain.
    + repeat apply Forall_cons; try apply Forall_nil; assumption.
  - unfold dotted at 1. rewrite parse_word by assumption.
    f_equal. unfold normalizedParts.
    change (w1 ++ lit "." ++ w2 ++ lit "." ++ w3) with (joinDots [w1; w2; w3]).
    rewrite parts_of_words; [| |discriminate|simpl; lia].
    + change [w1; w2; w3] with ([w1; w2] ++ [w3]). now rewrite splitHyphen_plain.
    + repeat apply Forall_cons; try apply Forall_nil; assumption.
Qed.

Lemma other_parts_become_zero_witness :
  parsePythonVersion (lit "3") = Some (lit "3.0.0") /\
  parsePythonVersion (lit "3.8") = Some (lit "3.8.0") /\
  parsePythonVersion (lit "3.8.5rc1") = Some (lit "3.8.0").
Proof.
  apply (other_parts_become_zero (lit "3") (lit "8") (lit "5rc1")); reflexivity.
Defined.
